(** * The event-based main loop of Blocks (blocks/main_loop.py)

    A shallow embedding of [Timer], [TimeIt] and [MainLoop] and the
    properties of the loop's state machine, its timing instrumentation,
    its interrupt protocol and its error sequencing.

    Conventions of the embedding:
    - Python dictionaries are [gmap]s; the values stored in the log are
      the dynamic values of type [value].
    - Elapsed times are floats in the source; they are exact rationals
      ([Q]) here, so rounding is not part of the model.  The statements
      about the timer use the sums as the code forms them, not laws of
      arithmetic.
    - The source is Python 2 code ([time.clock]); where the two
      languages differ the embedding follows Python 2:
      [traceback.format_exc(e)] returns the formatted traceback, and
      values of different types can be compared.
    - Methods of [MainLoop] are computations in a state-and-exception
      monad over the record [MainLoop] (the object [self]).
    - Loops that need not terminate take a fuel argument; running out of
      fuel is the outcome [Timeout], distinct from every Python outcome. *)

From Stdlib Require Import ZArith QArith Lqa Lia Ascii String.
From stdpp Require Import gmap strings list.

Open Scope string_scope.
Open Scope list_scope.

(** ** Python exceptions and outcomes *)

(** The exception classes that the file raises, catches or can receive
    from its collaborators.  [KeyboardInterrupt] and [SystemExit] derive
    from [BaseException] only, every other one from [Exception]. *)
Inductive exn : Type :=
| TrainingFinish
| StopIteration
| KeyError (key : string)
| ValueError (msg : string)
| TypeError
| IndexError
| AttributeError
| ZeroDivisionError
| OtherError (what : string)
| KeyboardInterrupt
| SystemExit.

(** [isinstance(e, Exception)]: what [except Exception] catches. *)
Definition is_Exception (e : exn) : bool :=
  match e with
  | KeyboardInterrupt | SystemExit => false
  | _ => true
  end.

(** [isinstance(e, TrainingFinish)]. *)
Definition is_TrainingFinish (e : exn) : bool :=
  match e with TrainingFinish => true | _ => false end.

(** [isinstance(e, StopIteration)]. *)
Definition is_StopIteration (e : exn) : bool :=
  match e with StopIteration => true | _ => false end.

Inductive res (A : Type) : Type :=
| Val (a : A)
| Raise (e : exn)
| Timeout.
Arguments Val {A} a.
Arguments Raise {A} e.
Arguments Timeout {A}.

(** ** Timer *)

Module Timer.

(** A timing key is [tuple(self.current)]: the nesting path. *)
Definition key : Type := list string.

Record t : Type := mk {
  total : gmap key Q;       (* defaultdict(int) *)
  current : list string;    (* the stack, top at the end *)
  order : list key          (* OrderedSet: first insertion order *)
}.

(** [Timer.__init__] *)
Definition init : t := mk ∅ [] [].

(** [self.total[k]] on a [defaultdict(int)]: an absent key reads 0. *)
Definition get (m : gmap key Q) (k : key) : Q := default 0%Q (m !! k).

(** [OrderedSet.add]: appended unless already a member. *)
Definition ordered_add (k : key) (s : list key) : list key :=
  if decide (k ∈ s) then s else s ++ [k].

(** [Timer.enter] *)
Definition enter (name : string) (tm : t) : t :=
  let cur := current tm ++ [name] in
  mk (total tm) cur (ordered_add cur (order tm)).

(** [list.pop()]: raises [IndexError] on the empty list. *)
Definition pop (l : list string) : option (list string) :=
  match l with
  | [] => None
  | _ => Some (removelast l)
  end.

(** [Timer.exit]: the accumulation happens before the pop, so it
    survives a pop that raises. *)
Definition exit (elapsed : Q) (tm : t) : res unit * t :=
  let k := current tm in
  let tot := <[k := (get (total tm) k + elapsed)%Q]> (total tm) in
  match pop (current tm) with
  | Some cur => (Val tt, mk tot cur (order tm))
  | None => (Raise IndexError, mk tot (current tm) (order tm))
  end.

(** *** report *)

(** What one [print] call of [report] writes: the arguments given to
    the format string (the rendering to text is not modelled). *)
Inductive printed : Type :=
| Header                                  (* Section / Time / % of total *)
| Rule                                    (* '-' * 60 *)
| Row (label : string) (time : Q) (share : Q).

(** [' '.join(s.split('_'))]: every underscore becomes a space. *)
Fixpoint underscores_to_spaces (s : string) : string :=
  match s with
  | EmptyString => EmptyString
  | String c s' =>
      String (if Ascii.eqb c "_"%char then " "%char else c)
             (underscores_to_spaces s')
  end.

(** [c.upper()] for one character. *)
Definition upper (c : ascii) : ascii :=
  let n := nat_of_ascii c in
  if (97 <=? n)%nat && (n <=? 122)%nat then ascii_of_nat (n - 32) else c.

(** [section[0].upper() + section[1:]]; [section[0]] raises
    [IndexError] on the empty string. *)
Definition capitalize (s : string) : option string :=
  match s with
  | EmptyString => None
  | String c s' => Some (String (upper c) s')
  end.

(** [n * '  '] *)
Fixpoint indent (n : nat) : string :=
  match n with
  | O => ""
  | S n' => "  " +:+ indent n'
  end.

(** [a / b] on numbers: raises [ZeroDivisionError] when [b] is zero. *)
Definition divide (a b : Q) : option Q :=
  if Qeq_bool b 0 then None else Some (a / b)%Q.

(** [sum(v for k, v in self.total.items() if len(k) == 1)] *)
Definition top_level_total (m : gmap key Q) : Q :=
  map_fold (fun k v acc => if (length k =? 1)%nat then (acc + v)%Q else acc)
           0%Q m.

(** [k[level] == key[level]]; [None] stands for the [IndexError] of an
    index out of range. *)
Definition same_at (level : nat) (k1 k2 : key) : option bool :=
  match k1 !! level, k2 !! level with
  | Some a, Some b => Some (bool_decide (a = b))
  | _, _ => None
  end.

(** The list comprehension
    [[k for k in keys if k[level] == key[level] and len(k) > level + 1]].
    The index test comes first, so it can raise before the length test
    is reached. *)
Fixpoint children_of (level : nat) (ky : key) (keys : list key)
  : option (list key) :=
  match keys with
  | [] => Some []
  | k :: rest =>
      match same_at level k ky with
      | None => None
      | Some b =>
          match children_of level ky rest with
          | None => None
          | Some cs =>
              Some (if b && (level + 1 <? length k)%nat then k :: cs else cs)
          end
      end
  end.

Section Report.
Variable m : gmap key Q.      (* self.total *)
Variable grand : Q.           (* the closure variable [total] *)

(** One iteration of the [for key in keys] loop needs the recursive
    call; [rec] is [print_report] at the next level. *)
Definition report_key
    (rec : list key -> nat -> res Q * list printed)
    (keys : list key) (level : nat) (ky : key) (subtotal : Q)
  : res Q * list printed :=
  if (level + 1 <? length ky)%nat then (Val subtotal, [])
  else
    let subtotal' := (subtotal + get m ky)%Q in
    match last ky with
    | None => (Raise IndexError, [])
    | Some name =>
        match capitalize (underscores_to_spaces name) with
        | None => (Raise IndexError, [])
        | Some section =>
            match divide (get m ky) grand with
            | None => (Raise ZeroDivisionError, [])
            | Some share =>
                let line := Row (indent level +:+ section) (get m ky) share in
                match children_of level ky keys with
                | None => (Raise IndexError, [line])
                | Some children =>
                    match rec children (S level) with
                    | (Val child_total, out) =>
                        match children with
                        | [] => (Val subtotal', line :: out)
                        | _ =>
                            let other := (get m ky - child_total)%Q in
                            match divide other grand with
                            | None =>
                                (Raise ZeroDivisionError, line :: out)
                            | Some oshare =>
                                (Val subtotal',
                                 line :: out ++
                                   [Row (indent (S level) +:+ "Other")
                                        other oshare])
                            end
                        end
                    | (Raise e, out) => (Raise e, line :: out)
                    | (Timeout, out) => (Timeout, line :: out)
                    end
                end
            end
        end
    end.

(** The [for] loop of [print_report] over the remaining keys [ks];
    [keys] is the whole argument, from which children are drawn. *)
Fixpoint report_loop
    (rec : list key -> nat -> res Q * list printed)
    (keys : list key) (level : nat) (ks : list key) (subtotal : Q)
  : res Q * list printed :=
  match ks with
  | [] => (Val subtotal, [])
  | ky :: ks' =>
      match report_key rec keys level ky subtotal with
      | (Val subtotal', out) =>
          let '(r, out') := report_loop rec keys level ks' subtotal' in
          (r, out ++ out')
      | other => other
      end
  end.

(** [print_report(keys, level)]; the recursion is bounded by [fuel]. *)
Fixpoint print_report (fuel : nat) (keys : list key) (level : nat)
  : res Q * list printed :=
  match fuel with
  | O => (Timeout, [])
  | S fuel' => report_loop (print_report fuel') keys level keys 0%Q
  end.
End Report.

(** [Timer.report]: the outcome and what was printed.  Each recursive
    call receives strictly fewer keys, so [S (length order)] is enough
    fuel (lemma [print_report_fuel] below). *)
Definition report (tm : t) : res unit * list printed :=
  let grand := top_level_total (total tm) in
  let '(r, out) :=
    print_report (total tm) grand (S (length (order tm))) (order tm) 0 in
  (match r with
   | Val _ => Val tt
   | Raise e => Raise e
   | Timeout => Timeout
   end,
   Header :: Rule :: out).

End Timer.

(** ** Values stored in the log *)

(** The dynamic values that the loop reads from and writes to the log:
    [None], booleans, integers, strings and lists. *)
#[warnings="-register-all"]
Inductive value : Type :=
| VNone
| VBool (b : bool)
| VInt (z : Z)
| VStr (s : string)
| VList (l : list value).

(** Python's truth test, as applied by [if], [not] and [or]. *)
Definition truthy (v : value) : bool :=
  match v with
  | VNone => false
  | VBool b => b
  | VInt z => negb (z =? 0)%Z
  | VStr s => negb (String.eqb s "")
  | VList l => match l with [] => false | _ => true end
  end.

(** [d.get(k, False)] followed by a truth test. *)
Definition flag (d : gmap string value) (k : string) : bool :=
  truthy (default (VBool false) (d !! k)).

(** [v > 0]: numbers compare by value ([True] is 1); of the other
    values [None] is below every number, strings and lists above. *)
Definition positive (v : value) : bool :=
  match v with
  | VNone => false
  | VBool b => b
  | VInt z => (0 <? z)%Z
  | VStr _ | VList _ => true
  end.

(** [v + 1]; [None] stands for the [TypeError] of a non-number. *)
Definition plus_one (v : value) : option value :=
  match v with
  | VInt z => Some (VInt (z + 1))
  | VBool b => Some (VInt (Z.b2z b + 1))
  | _ => None
  end.

(** ** The log *)

(** Modelled from the spec: [blocks.log.TrainingLog] is not part of the
    file.  The log owns [status], a persistent mapping, and exposes
    [current_row], the mapping of annotations attached to the
    iteration in progress; both support lookup with a default. *)
Record Log : Type := mkLog {
  status : gmap string value;
  current_row : gmap string value
}.

(** Modelled from the spec: the log that [TrainingLog()] creates; the
    counters start at zero, the history of epoch boundaries is empty and
    so is the current row. *)
Definition TrainingLog : Log :=
  mkLog (<["iterations_done" := VInt 0]>
           (<["epochs_done" := VInt 0]>
              (<["_epoch_ends" := VList []]> ∅)))
        ∅.

(** ** Signals *)

Inductive signum : Type := SIGINT | SIGTERM.

(** What can be installed for a signal: one of the loop's two handlers,
    or a disposition that was in place before [run] (numbered). *)
Inductive handler : Type :=
| HandleEpochInterrupt        (* self._handle_epoch_interrupt *)
| HandleBatchInterrupt        (* self._handle_batch_interrupt *)
| Previous (disposition : nat).

(** ** Messages *)

Definition error_message : string :=
"

Blocks will attempt to run `on_error` extensions, potentially saving data, before exiting and reraising the error. Note that the usual `after_training` extensions will *not* be run. The original error will be re-raised and also stored in the training log. Press CTRL + C to halt Blocks immediately.".

Definition error_in_error_handling_message : string :=
"

Blocks will now exit. The remaining `on_error` extensions will not be run.".

Definition epoch_interrupt_message : string :=
"

Blocks will complete this epoch iteration of training and run extensions before exiting. If you do not want to complete this epoch, press CTRL + C again to stop training after the current batch.".

Definition batch_interrupt_message : string :=
"

Blocks will complete the current batch and run extensions before exiting. If you do not want to complete this batch, press CTRL + C again. WARNING: Note that this will end training immediately, and extensions that e.g. save your training progress won't be run.".

(** ** Collaborators

    The algorithm, the data stream, its epoch iterator and the
    extensions are opaque.  [World] is their joint private state.  A call
    to a collaborator may change the world and the log, may raise, may
    never return ([Timeout]), and signals may arrive while it runs. *)

Record reply (World A : Type) : Type := mkReply {
  outcome : res A;
  world_after : World;
  log_after : Log;
  signals : list signum
}.
Arguments mkReply {World A}.
Arguments outcome {World A}.
Arguments world_after {World A}.
Arguments log_after {World A}.
Arguments signals {World A}.

Definition collaborator (World A : Type) : Type := World -> Log -> reply World A.

Class Collaborators (World Batch Ext : Type) : Type := {
  algorithm_initialize : collaborator World unit;
  algorithm_process_batch : Batch -> collaborator World unit;
  (** [self.data_stream.get_epoch_iterator(as_dict=True)]; the iterator
      obtained is kept in the world ([self.epoch_iterator]). *)
  get_epoch_iterator : collaborator World unit;
  (** [next(self.epoch_iterator)] *)
  next_batch : collaborator World Batch;
  (** [extension.dispatch(CallbackName(method_name), *args)] *)
  dispatch : Ext -> string -> option Batch -> collaborator World unit;
  (** [type(extension).__name__] *)
  type_name : Ext -> string;
  (** [time.clock()]: the n-th reading of the process clock. *)
  clock : nat -> Q;
  (** [traceback.format_exc] for the exception being handled. *)
  format_exc : exn -> string;
  (** [config.profile] *)
  profile : bool;
  (** The sanity check at the top of [run]: whether there is a model and
      the algorithm is a [DifferentiableCostMinimizer], and the two
      comparisons made in that case. *)
  model_and_minimizer : World -> bool;
  same_objective : World -> bool;
  same_params : World -> bool
}.

(** ** The main loop *)

Section MainLoop.

Context {World Batch Ext : Type} `{Collaborators World Batch Ext}.

(** *** Instrumentation *)

Inductive call : Type :=
| Initialize
| ProcessBatch (b : Batch)
| GetEpochIterator
| Next
| Dispatch (e : Ext) (phase : string) (payload : option Batch).

(** The trace records what the loop did, in order; it is not read by
    the loop. *)
Inductive event : Type :=
| Called (c : call) (raised : option exn)   (* a collaborator call ended *)
| Phase (name : string)                     (* _run_extensions entered *)
| Logged (level : string) (msg : string)    (* logger.info/warning/error *)
| Delivered (sig : signum) (h : handler)    (* a signal reached h *)
| FinishRaised (level : string).            (* the finish check raised *)

Inductive timer_call : Type :=
| TEnter (name : string)
| TExit (elapsed : Q).

(** *** The object and the process state around it *)

Record MainLoop : Type := mkMainLoop {
  world : World;
  log : Log;
  extensions : list Ext;
  timer : Timer.t;
  original_sigint_handler : handler;
  original_sigterm_handler : handler;
  (* process state *)
  sigint : handler;                 (* installed for SIGINT *)
  sigterm : handler;                (* installed for SIGTERM *)
  ticks : nat;                      (* clock readings taken so far *)
  stdout : list Timer.printed;
  (* instrumentation *)
  trace : list event;
  timer_calls : list timer_call
}.

Definition with_world (w : World) (s : MainLoop) : MainLoop :=
  mkMainLoop w (log s) (extensions s) (timer s)
    (original_sigint_handler s) (original_sigterm_handler s)
    (sigint s) (sigterm s) (ticks s) (stdout s) (trace s) (timer_calls s).

Definition with_log (l : Log) (s : MainLoop) : MainLoop :=
  mkMainLoop (world s) l (extensions s) (timer s)
    (original_sigint_handler s) (original_sigterm_handler s)
    (sigint s) (sigterm s) (ticks s) (stdout s) (trace s) (timer_calls s).

Definition with_timer (tm : Timer.t) (s : MainLoop) : MainLoop :=
  mkMainLoop (world s) (log s) (extensions s) tm
    (original_sigint_handler s) (original_sigterm_handler s)
    (sigint s) (sigterm s) (ticks s) (stdout s) (trace s) (timer_calls s).

Definition with_original_sigint (h : handler) (s : MainLoop) : MainLoop :=
  mkMainLoop (world s) (log s) (extensions s) (timer s)
    h (original_sigterm_handler s)
    (sigint s) (sigterm s) (ticks s) (stdout s) (trace s) (timer_calls s).

Definition with_original_sigterm (h : handler) (s : MainLoop) : MainLoop :=
  mkMainLoop (world s) (log s) (extensions s) (timer s)
    (original_sigint_handler s) h
    (sigint s) (sigterm s) (ticks s) (stdout s) (trace s) (timer_calls s).

Definition with_sigint (h : handler) (s : MainLoop) : MainLoop :=
  mkMainLoop (world s) (log s) (extensions s) (timer s)
    (original_sigint_handler s) (original_sigterm_handler s)
    h (sigterm s) (ticks s) (stdout s) (trace s) (timer_calls s).

Definition with_sigterm (h : handler) (s : MainLoop) : MainLoop :=
  mkMainLoop (world s) (log s) (extensions s) (timer s)
    (original_sigint_handler s) (original_sigterm_handler s)
    (sigint s) h (ticks s) (stdout s) (trace s) (timer_calls s).

Definition with_ticks (n : nat) (s : MainLoop) : MainLoop :=
  mkMainLoop (world s) (log s) (extensions s) (timer s)
    (original_sigint_handler s) (original_sigterm_handler s)
    (sigint s) (sigterm s) n (stdout s) (trace s) (timer_calls s).

Definition with_stdout (o : list Timer.printed) (s : MainLoop) : MainLoop :=
  mkMainLoop (world s) (log s) (extensions s) (timer s)
    (original_sigint_handler s) (original_sigterm_handler s)
    (sigint s) (sigterm s) (ticks s) o (trace s) (timer_calls s).

Definition record_event (e : event) (s : MainLoop) : MainLoop :=
  mkMainLoop (world s) (log s) (extensions s) (timer s)
    (original_sigint_handler s) (original_sigterm_handler s)
    (sigint s) (sigterm s) (ticks s) (stdout s) (trace s ++ [e])
    (timer_calls s).

Definition record_timer_call (c : timer_call) (s : MainLoop) : MainLoop :=
  mkMainLoop (world s) (log s) (extensions s) (timer s)
    (original_sigint_handler s) (original_sigterm_handler s)
    (sigint s) (sigterm s) (ticks s) (stdout s) (trace s)
    (timer_calls s ++ [c]).

(** [self.status[k] = v] and [self.log.current_row[k] = v] *)
Definition set_status (k : string) (v : value) (s : MainLoop) : MainLoop :=
  with_log (mkLog (<[k := v]> (status (log s))) (current_row (log s))) s.

Definition set_row (k : string) (v : value) (s : MainLoop) : MainLoop :=
  with_log (mkLog (status (log s)) (<[k := v]> (current_row (log s)))) s.

(** *** The monad of methods *)

Definition M (A : Type) : Type := MainLoop -> res A * MainLoop.

Definition ret {A} (a : A) : M A := fun s => (Val a, s).

Definition bind {A B} (m : M A) (f : A -> M B) : M B :=
  fun s =>
    match m s with
    | (Val a, s') => f a s'
    | (Raise e, s') => (Raise e, s')
    | (Timeout, s') => (Timeout, s')
    end.

Definition raise {A} (e : exn) : M A := fun s => (Raise e, s).

Definition out_of_fuel {A} : M A := fun s => (Timeout, s).

(** A statement that only changes the state. *)
Definition modify (f : MainLoop -> MainLoop) : M unit :=
  fun s => (Val tt, f s).

(** An expression that only reads the state. *)
Definition gets {A} (f : MainLoop -> A) : M A := fun s => (Val (f s), s).

Notation "x <- m ;; k" := (bind m (fun x => k))
  (at level 20, m at level 99, k at level 200, only parsing).
Notation "m ;;; k" := (bind m (fun _ => k))
  (at level 100, k at level 200, right associativity, only parsing).

(** [try: m  except <classes>: h]: [h e] is the handler of the first
    matching clause, [None] when no clause matches. *)
Definition try_except {A} (m : M A) (h : exn -> option (M A)) : M A :=
  fun s =>
    match m s with
    | (Raise e, s') =>
        match h e with
        | Some k => k s'
        | None => (Raise e, s')
        end
    | other => other
    end.

(** [try: m  finally: fin]: an exception of [fin] replaces the pending
    outcome of [m]. *)
Definition try_finally {A} (m : M A) (fin : M unit) : M A :=
  fun s =>
    match m s with
    | (Timeout, s') => (Timeout, s')
    | (r, s') =>
        match fin s' with
        | (Val _, s'') => (r, s'')
        | (Raise e, s'') => (Raise e, s'')
        | (Timeout, s'') => (Timeout, s'')
        end
    end.

(** [d[k]] on a dictionary: [KeyError] when absent. *)
Definition status_item (k : string) : M value :=
  fun s =>
    match status (log s) !! k with
    | Some v => (Val v, s)
    | None => (Raise (KeyError k), s)
    end.

(** [logger.<level>(msg)] *)
Definition logger (level msg : string) : M unit :=
  modify (record_event (Logged level msg)).

(** *** TimeIt *)

(** [time.clock()] *)
Definition time_clock : M Q :=
  fun s => (Val (clock (ticks s)), with_ticks (S (ticks s)) s).

(** [self.timer.enter(name)] *)
Definition timer_enter (name : string) : M unit :=
  modify (fun s =>
    record_timer_call (TEnter name) (with_timer (Timer.enter name (timer s)) s)).

(** [self.timer.exit(t)] *)
Definition timer_exit (elapsed : Q) : M unit :=
  fun s =>
    let '(r, tm) := Timer.exit elapsed (timer s) in
    (r, record_timer_call (TExit elapsed) (with_timer tm s)).

(** [with TimeIt(name, self.timer): body].  [__enter__] enters the
    section and reads the clock; [__exit__] runs however the body ends
    and returns nothing, so an exception of the body propagates. *)
Definition TimeIt {A} (name : string) (body : M A) : M A :=
  timer_enter name ;;;
  start <- time_clock ;;
  try_finally body (now <- time_clock ;; timer_exit (now - start)%Q).

(** *** Interrupt handling *)

Definition installed (sig : signum) (s : MainLoop) : handler :=
  match sig with
  | SIGINT => sigint s
  | SIGTERM => sigterm s
  end.

(** [signal.signal(sig, h)] for its effect. *)
Definition install (sig : signum) (h : handler) (s : MainLoop) : MainLoop :=
  match sig with
  | SIGINT => with_sigint h s
  | SIGTERM => with_sigterm h s
  end.

(** [signal.signal(sig, h)]: installs [h], returns what was installed. *)
Definition signal_signal (sig : signum) (h : handler) : M handler :=
  fun s => (Val (installed sig s), install sig h s).

(** [MainLoop._restore_signal_handlers] *)
Definition _restore_signal_handlers (s : MainLoop) : MainLoop :=
  install SIGTERM (original_sigterm_handler s)
    (install SIGINT (original_sigint_handler s) s).

(** [MainLoop._handle_epoch_interrupt] *)
Definition _handle_epoch_interrupt (s : MainLoop) : MainLoop :=
  let s := record_event
             (Logged "warning"
                ("Received epoch interrupt signal." +:+ epoch_interrupt_message))
             s in
  let s := install SIGINT HandleBatchInterrupt s in
  let s := set_row "epoch_interrupt_received" (VBool true) s in
  set_status "epoch_interrupt_received" (VBool true) s.

(** [MainLoop._handle_batch_interrupt] *)
Definition _handle_batch_interrupt (s : MainLoop) : MainLoop :=
  let s := _restore_signal_handlers s in
  let s := record_event
             (Logged "warning"
                ("Received batch interrupt signal." +:+ batch_interrupt_message))
             s in
  let s := set_row "batch_interrupt_received" (VBool true) s in
  set_status "batch_interrupt_received" (VBool true) s.

(** Delivery of one signal to the process: the installed handler runs.
    Under a previous disposition the loop's state is not touched. *)
Definition deliver (sig : signum) (s : MainLoop) : MainLoop :=
  let h := installed sig s in
  let s := record_event (Delivered sig h) s in
  match h with
  | HandleEpochInterrupt => _handle_epoch_interrupt s
  | HandleBatchInterrupt => _handle_batch_interrupt s
  | Previous _ => s
  end.

Definition deliver_all (sigs : list signum) (s : MainLoop) : MainLoop :=
  fold_left (fun s sig => deliver sig s) sigs s.

(** *** Calls to collaborators *)

Definition invoke {A} (c : call) (f : collaborator World A) : M A :=
  fun s =>
    let r := f (world s) (log s) in
    let s := with_log (log_after r) (with_world (world_after r) s) in
    let s := deliver_all (signals r) s in
    match outcome r with
    | Val a => (Val a, record_event (Called c None) s)
    | Raise e => (Raise e, record_event (Called c (Some e)) s)
    | Timeout => (Timeout, s)
    end.

(** The [for extension in self.extensions] loop of [_run_extensions]. *)
Fixpoint dispatch_all (exts : list Ext) (method_name : string)
    (payload : option Batch) : M unit :=
  match exts with
  | [] => ret tt
  | e :: rest =>
      TimeIt (type_name e)
        (invoke (Dispatch e method_name payload)
                (dispatch e method_name payload)) ;;;
      dispatch_all rest method_name payload
  end.

(** [MainLoop._run_extensions] *)
Definition _run_extensions (method_name : string) (payload : option Batch)
  : M unit :=
  modify (record_event (Phase method_name)) ;;;
  TimeIt method_name
    (exts <- gets extensions ;; dispatch_all exts method_name payload).

(** [MainLoop._check_finish_training] *)
Definition _check_finish_training (level : string) : M unit :=
  fun s =>
    if flag (current_row (log s)) "training_finish_requested"
       || flag (status (log s)) "batch_interrupt_received"
    then (Raise TrainingFinish, record_event (FinishRaised level) s)
    else if String.eqb level "epoch"
            && flag (status (log s)) "epoch_interrupt_received"
    then (Raise TrainingFinish, record_event (FinishRaised level) s)
    else (Val tt, s).

(** *** Batches and epochs *)

(** [self.status[k] += 1] *)
Definition increment_status (k : string) : M unit :=
  v <- status_item k ;;
  match plus_one v with
  | Some v' => modify (set_status k v')
  | None => raise TypeError
  end.

(** [self.status[k].append(self.status[k2])] *)
Definition append_status (k k2 : string) : M unit :=
  v <- status_item k ;;
  match v with
  | VList l =>
      x <- status_item k2 ;;
      modify (set_status k (VList (l ++ [x])))
  | _ => raise AttributeError
  end.

(** The [try] statement of [_run_iteration]: the batch read, or [None]
    for the [return False] of the handler. *)
Definition read_data : M (option Batch) :=
  try_except
    (b <- TimeIt "read_data" (invoke Next next_batch) ;; ret (Some b))
    (fun e =>
       if is_StopIteration e then
         Some (received <- status_item "received_first_batch" ;;
               if negb (truthy received)
               then raise (ValueError "epoch iterator yielded zero batches")
               else ret None)
       else None).

(** [MainLoop._run_iteration] *)
Definition _run_iteration : M bool :=
  fetched <- read_data ;;
  match fetched with
  | None => ret false
  | Some batch =>
      modify (set_status "received_first_batch" (VBool true)) ;;;
      _run_extensions "before_batch" (Some batch) ;;;
      TimeIt "batch"
        (invoke (ProcessBatch batch) (algorithm_process_batch batch)) ;;;
      increment_status "iterations_done" ;;;
      _run_extensions "after_batch" (Some batch) ;;;
      _check_finish_training "batch" ;;;
      ret true
  end.

(** [while self._run_iteration(): pass] *)
Fixpoint iterations (fuel : nat) : M unit :=
  match fuel with
  | O => out_of_fuel
  | S fuel' =>
      again <- _run_iteration ;;
      if again then iterations fuel' else ret tt
  end.

(** The first [if] of [_run_epoch]: [false] stands for the
    [return False] of the [StopIteration] handler. *)
Definition start_epoch : M bool :=
  started <- gets (fun s => flag (status (log s)) "epoch_started") ;;
  if started then ret true
  else
    got <- try_except
             (modify (set_status "received_first_batch" (VBool false)) ;;;
              invoke GetEpochIterator get_epoch_iterator ;;;
              ret true)
             (fun e => if is_StopIteration e then Some (ret false) else None) ;;
    if got then
      modify (set_status "epoch_started" (VBool true)) ;;;
      _run_extensions "before_epoch" None ;;;
      ret true
    else ret false.

(** [MainLoop._run_epoch] *)
Definition _run_epoch (fuel : nat) : M bool :=
  go <- start_epoch ;;
  if go then
    TimeIt "epoch" (iterations fuel) ;;;
    modify (set_status "epoch_started" (VBool false)) ;;;
    increment_status "epochs_done" ;;;
    append_status "_epoch_ends" "iterations_done" ;;;
    _run_extensions "after_epoch" None ;;;
    _check_finish_training "epoch" ;;;
    ret true
  else ret false.

(** [while self._run_epoch(): pass] *)
Fixpoint epochs (inner fuel : nat) : M unit :=
  match fuel with
  | O => out_of_fuel
  | S fuel' =>
      again <- _run_epoch inner ;;
      if again then epochs inner fuel' else ret tt
  end.

(** *** run *)

(** The sanity check on model and algorithm. *)
Definition sanity_check : M unit :=
  w <- gets world ;;
  if model_and_minimizer w then
    (if same_objective w then ret tt
     else logger "warning" "different costs for model and algorithm") ;;;
    (if same_params w then ret tt
     else logger "warning" "different params for model and algorithm")
  else ret tt.

(** The [try] block of [run]. *)
Definition run_try (fuel : nat) : M unit :=
  logger "info" "Entered the main loop" ;;;
  started <- status_item "training_started" ;;
  (if negb (truthy started) then
     (* extension.main_loop = self: the back-reference is implicit *)
     _run_extensions "before_training" None ;;;
     TimeIt "initialization" (invoke Initialize algorithm_initialize) ;;;
     modify (set_status "training_started" (VBool true))
   else ret tt) ;;;
  done <- status_item "iterations_done" ;;
  (if positive done then
     _run_extensions "on_resumption" None ;;;
     modify (set_status "epoch_interrupt_received" (VBool false)) ;;;
     modify (set_status "batch_interrupt_received" (VBool false))
   else ret tt) ;;;
  TimeIt "training" (epochs fuel fuel).

(** The [except Exception as e] clause of [run]; [reraise_as(e)]
    raises [e]. *)
Definition on_exception (e : exn) : M unit :=
  modify _restore_signal_handlers ;;;
  modify (set_row "got_exception" (VStr (format_exc e))) ;;;
  logger "error" ("Error occured during training." +:+ error_message) ;;;
  try_except
    (_run_extensions "on_error" None)
    (fun inner_e =>
       if is_Exception inner_e then
         Some (logger "error" (format_exc inner_e) ;;;
               logger "error" ("Error occured when running extensions."
                               +:+ error_in_error_handling_message))
       else None) ;;;
  raise e.

(** The two [except] clauses of [run], in order. *)
Definition run_handlers (e : exn) : option (M unit) :=
  if is_TrainingFinish e then
    Some (modify (set_row "training_finished" (VBool true)))
  else if is_Exception e then Some (on_exception e)
  else None.

(** [self.timer.report()] *)
Definition timer_report : M unit :=
  fun s =>
    let '(r, out) := Timer.report (timer s) in
    (r, with_stdout (stdout s ++ out) s).

(** The [finally] block of [run]. *)
Definition run_finally : M unit :=
  finished <- gets (fun s => flag (current_row (log s)) "training_finished") ;;
  (if finished then _run_extensions "after_training" None else ret tt) ;;;
  (if profile then timer_report else ret tt) ;;;
  modify _restore_signal_handlers.

(** [MainLoop.run].  [logging.basicConfig()] and the recursion limit
    do not touch this state. *)
(** The two assignments that open the [with] block of [run]. *)
Definition install_handlers : M unit :=
  old_int <- signal_signal SIGINT HandleEpochInterrupt ;;
  modify (with_original_sigint old_int) ;;;
  old_term <- signal_signal SIGTERM HandleBatchInterrupt ;;
  modify (with_original_sigterm old_term).

Definition run (fuel : nat) : M unit :=
  sanity_check ;;;
  install_handlers ;;;
  try_finally (try_except (run_try fuel) run_handlers) run_finally.

(** [MainLoop.__init__], for a given log and list of extensions; [hi]
    and [ht] are the dispositions of the two signals in the process. *)
Definition __init__ (w : World) (lg : Log) (exts : list Ext)
    (hi ht : handler) : MainLoop :=
  let st :=
    <["batch_interrupt_received" := VBool false]>
      (<["epoch_interrupt_received" := VBool false]>
         (<["epoch_started" := VBool false]>
            (<["training_started" := VBool false]> (status lg)))) in
  mkMainLoop w (mkLog st (current_row lg)) exts Timer.init
    hi ht hi ht 0 [] [] [].

End MainLoop.

(** ** The interrupt controller of the specification

    The specification describes interrupt handling as a machine with
    three states.  [controller_step] follows its words; [controller_of]
    reads the state off the signal table of the process. *)

Inductive controller : Type :=
| Normal
| EpochInterruptPending
| BatchInterruptPending.

(** The transitions as the specification words them: the first graceful
    signal leads from [Normal] to [EpochInterruptPending]; the stronger
    signal (the termination signal, or a repeated graceful one) leads to
    [BatchInterruptPending], which is terminal. *)
Definition controller_step (c : controller) (sig : signum) : controller :=
  match c, sig with
  | Normal, SIGINT => EpochInterruptPending
  | Normal, SIGTERM => BatchInterruptPending
  | EpochInterruptPending, _ => BatchInterruptPending
  | BatchInterruptPending, _ => BatchInterruptPending
  end.

Section Controller.

Context {World Batch Ext : Type}.
Abbreviation State := (@MainLoop World Batch Ext).

(** The controller state that a signal table stands for. *)
Definition controller_of (s : State) : controller :=
  match sigint s with
  | HandleEpochInterrupt => Normal
  | HandleBatchInterrupt => EpochInterruptPending
  | Previous _ => BatchInterruptPending
  end.

Definition is_previous (h : handler) : Prop :=
  match h with Previous _ => True | _ => False end.

(** The signal tables that [run] and its handlers produce: the two
    handlers as installed by [run], the re-armed table, or the saved
    dispositions restored; the saved dispositions are not the loop's
    own handlers. *)
Definition interrupts_wf (s : State) : Prop :=
  is_previous (original_sigint_handler s) /\
  is_previous (original_sigterm_handler s) /\
  ((sigint s = HandleEpochInterrupt /\ sigterm s = HandleBatchInterrupt) \/
   (sigint s = HandleBatchInterrupt /\ sigterm s = HandleBatchInterrupt) \/
   (sigint s = original_sigint_handler s /\
    sigterm s = original_sigterm_handler s)).

End Controller.

(** ** Vocabulary of the statements *)

Section Vocabulary.

Context {World Batch Ext : Type} `{Collaborators World Batch Ext}.
Abbreviation State := (@MainLoop World Batch Ext).
Abbreviation Event := (@event Batch Ext).

(** The state in which the body of [with TimeIt(name, ...)] starts: the
    section is entered and the clock has been read once. *)
Definition entered (name : string) (s : State) : State :=
  with_ticks (S (ticks s))
    (record_timer_call (TEnter name)
       (with_timer (Timer.enter name (timer s)) s)).

(** The state in which [with TimeIt(...)] ends when its body ended in
    [s1] and the section was entered at clock reading [start]. *)
Definition exited (start : Q) (s1 : State) : State :=
  let elapsed := (clock (ticks s1) - start)%Q in
  record_timer_call (TExit elapsed)
    (with_timer (snd (Timer.exit elapsed (timer s1)))
       (with_ticks (S (ticks s1)) s1)).

Definition is_enter (c : timer_call) : bool :=
  match c with TEnter _ => true | TExit _ => false end.

Definition is_exit (c : timer_call) : bool :=
  match c with TEnter _ => false | TExit _ => true end.

(** The number of calls to the timer's [enter], and to its [exit],
    among [calls]. *)
Definition enters (calls : list timer_call) : nat :=
  length (List.filter is_enter calls).

Definition exits (calls : list timer_call) : nat :=
  length (List.filter is_exit calls).

(** A computation that, whenever it comes to an end, leaves the timer's
    stack as it found it and has made as many calls to [exit] as to
    [enter]. *)
Definition balanced {A} (m : M A) : Prop :=
  forall (s : State) (r : res A) (s' : State),
    m s = (r, s') -> r <> Timeout ->
    Timer.current (timer s') = Timer.current (timer s) /\
    exists calls, timer_calls s' = timer_calls s ++ calls /\
                  enters calls = exits calls.

(** A computation all of whose runs relate the log before to the log
    after by [R]. *)
Definition log_frame (R : Log -> Log -> Prop) {A} (m : M A) : Prop :=
  forall (s : State) (r : res A) (s' : State),
    m s = (r, s') -> R (log s) (log s').

(** A collaborator all of whose replies relate the log it was given to
    the log it leaves by [R]. *)
Definition respects (R : Log -> Log -> Prop) {A}
    (f : collaborator World A) : Prop :=
  forall (w : World) (l : Log), R l (log_after (f w l)).

(** All collaborators that the loop calls respect [R]. *)
Definition all_respect (R : Log -> Log -> Prop) : Prop :=
  respects R algorithm_initialize /\
  (forall b, respects R (algorithm_process_batch b)) /\
  respects R get_epoch_iterator /\
  respects R next_batch /\
  (forall e phase payload, respects R (dispatch e phase payload)).

(** The logs that agree with [l] on the status keys [keys]. *)
Definition same_status_on (keys : list string) (l l' : Log) : Prop :=
  forall k, k ∈ keys -> status l' !! k = status l !! k.

(** [R] relates a log to the result of writing the status key [k]. *)
Definition allows_status (R : Log -> Log -> Prop) (k : string) : Prop :=
  forall (l : Log) (v : value),
    R l (mkLog (<[k := v]> (status l)) (current_row l)).

(** [R] relates a log to the result of writing the key [k] of the
    current row. *)
Definition allows_row (R : Log -> Log -> Prop) (k : string) : Prop :=
  forall (l : Log) (v : value),
    R l (mkLog (status l) (<[k := v]> (current_row l))).

(** [R] relates a log to what the two interrupt handlers make of it. *)
Definition allows_interrupts (R : Log -> Log -> Prop) : Prop :=
  allows_status R "epoch_interrupt_received" /\
  allows_row R "epoch_interrupt_received" /\
  allows_status R "batch_interrupt_received" /\
  allows_row R "batch_interrupt_received".

(** A computation all of whose runs relate the state before to the
    state after by [R]. *)
Definition frame (R : State -> State -> Prop) {A} (m : M A) : Prop :=
  forall (s : State) (r : res A) (s' : State), m s = (r, s') -> R s s'.

(** The trace has grown, by events that all satisfy [P]. *)
Definition appends (P : Event -> Prop) (s s' : State) : Prop :=
  exists tl, trace s' = trace s ++ tl /\ Forall P tl.

(** The state in which the [try] statement of [run] starts: the sanity
    check is done and the two handlers are installed. *)
Definition at_try (s : State) : State :=
  snd (bind sanity_check (fun _ => install_handlers) s).

(** A computation that, when it ends by the finish signal, leaves as
    last event of the trace one that satisfies [Q]. *)
Definition finish_origin (Q : Event -> Prop) {A} (m : M A) : Prop :=
  forall (s s' : State),
    m s = (Raise TrainingFinish, s') ->
    exists ev, last (trace s') = Some ev /\ Q ev.

(** The status keys that record where the loop stands between epochs. *)
Definition epoch_keys : list string :=
  ["epoch_started"; "epochs_done"; "_epoch_ends"].

(** A successful call of [process_batch], and the start of an
    [after_epoch] phase, as events of the trace. *)
Definition is_processed (ev : Event) : bool :=
  match ev with
  | Called (ProcessBatch _) None => true
  | _ => false
  end.

Definition is_completed (ev : Event) : bool :=
  match ev with
  | Phase name => String.eqb name "after_epoch"
  | _ => false
  end.

(** The number of batches processed, and of epochs completed, among the
    events [tl]. *)
Definition processed (tl : list Event) : Z :=
  Z.of_nat (length (List.filter is_processed tl)).

Definition completed (tl : list Event) : Z :=
  Z.of_nat (length (List.filter is_completed tl)).

(** The status keys in which the loop counts. *)
Definition counter_keys : list string :=
  ["iterations_done"; "epochs_done"; "_epoch_ends"].

(** Between [s] and [s'] the two counters have advanced by the number
    of batches processed and of epochs completed in between, and the
    history of epoch boundaries has only been appended to. *)
Definition tracks (s s' : State) : Prop :=
  forall (i e : Z) (l : list value),
    status (log s) !! "iterations_done" = Some (VInt i) ->
    status (log s) !! "epochs_done" = Some (VInt e) ->
    status (log s) !! "_epoch_ends" = Some (VList l) ->
    exists (tl : list Event) (l' : list value),
      trace s' = trace s ++ tl /\
      status (log s') !! "iterations_done" = Some (VInt (i + processed tl)) /\
      status (log s') !! "epochs_done" = Some (VInt (e + completed tl)) /\
      status (log s') !! "_epoch_ends" = Some (VList (l ++ l')) /\
      Z.of_nat (length l') = completed tl.

(** Between [s] and [s'] nothing was counted: the three keys are
    untouched, no batch was processed and no epoch completed. *)
Definition uncounted (s s' : State) : Prop :=
  same_status_on counter_keys (log s) (log s') /\
  exists tl : list Event,
    trace s' = trace s ++ tl /\
    Forall (fun ev => is_processed ev = false /\ is_completed ev = false) tl.

(** *** Quantities of the timing report *)

(** [k] is a direct child of the path [p]: one name longer, with [p] as
    prefix. *)
Definition is_child (p k : Timer.key) : bool :=
  (length k =? S (length p))%nat && bool_decide (take (length p) k = p).

(** What [print_report] returns for the direct children of [p] among
    the paths [ks]: their accumulations added to [sub] one after the
    other, in the order of [ks]. *)
Fixpoint children_sum (m : gmap Timer.key Q) (ks : list Timer.key)
    (p : Timer.key) (sub : Q) : Q :=
  match ks with
  | [] => sub
  | k :: rest =>
      children_sum m rest p
        (if is_child p k then (sub + Timer.get m k)%Q else sub)
  end.

(** A timer as nested [TimeIt] sections leave it: every path is seen
    once, with its prefixes; only seen paths have an accumulation; the
    stack, if not empty, is a seen path; no accumulation is negative. *)
Record tidy (tm : Timer.t) : Prop := {
  tidy_nodup : NoDup (Timer.order tm);
  tidy_nonempty : [] ∉ Timer.order tm;
  tidy_seen : forall k, k ∉ Timer.order tm -> Timer.total tm !! k = None;
  tidy_prefix : forall k x, k ++ [x] ∈ Timer.order tm -> k <> [] ->
                            k ∈ Timer.order tm;
  tidy_current : Timer.current tm <> [] -> Timer.current tm ∈ Timer.order tm;
  tidy_nonneg : forall k, (0 <= Timer.get (Timer.total tm) k)%Q
}.

(** *** The lines of the timing report *)

(** The path [k] lies strictly below the path [pre]. *)
Definition below (pre k : Timer.key) : bool :=
  (length pre <? length k)%nat && bool_decide (take (length pre) k = pre).

(** The paths of [ord] strictly below [pre], in the order of [ord]. *)
Definition under (pre : Timer.key) (ord : list Timer.key) : list Timer.key :=
  List.filter (below pre) ord.

(** The section at the end of the path [k] has a name that is not the
    empty string. *)
Definition named (k : Timer.key) : bool :=
  match last k with
  | Some (String _ _) => true
  | _ => false
  end.

(** The line that the report prints for the seen path [k]: indented by
    its depth, the section's name with underscores as spaces and the
    first letter in upper case; [None] when the path or the name is
    empty. *)
Definition line_of (m : gmap Timer.key Q) (grand : Q) (k : Timer.key)
  : option Timer.printed :=
  match last k with
  | None => None
  | Some name =>
      match Timer.capitalize (Timer.underscores_to_spaces name) with
      | None => None
      | Some section =>
          Some (Timer.Row (Timer.indent (length k - 1) +:+ section)
                          (Timer.get m k) (Timer.get m k / grand)%Q)
      end
  end.

(** The line "Other" under the seen path [k]: indented one step more
    than [k], with the accumulation of [k] less the sum of its direct
    children's among [ord], and the share of that difference in
    [grand]. *)
Definition other_of (m : gmap Timer.key Q) (grand : Q) (ord : list Timer.key)
    (k : Timer.key) : Timer.printed :=
  let other := (Timer.get m k - children_sum m ord k 0)%Q in
  Timer.Row (Timer.indent (length k) +:+ "Other") other (other / grand)%Q.

(** *** Relations kept by every step of the loop *)

(** The events that a phase of [_run_extensions] records, the events
    that a call of a collaborator records, and the events that are
    recorded whatever the loop is doing. *)
Definition phase_allowed (allowed : Event -> Prop) (name : string) : Prop :=
  allowed (Phase name) /\
  forall e payload raised, allowed (Called (Dispatch e name payload) raised).

Definition call_allowed (allowed : Event -> Prop) (c : call) : Prop :=
  forall raised, allowed (Called c raised).

Definition noise_allowed (allowed : Event -> Prop) : Prop :=
  (forall level msg, allowed (Logged level msg)) /\
  (forall sig h, allowed (Delivered sig h)) /\
  (forall level, allowed (FinishRaised level)).

(** The events of the training loop proper. *)
Definition training_allowed (allowed : Event -> Prop) : Prop :=
  phase_allowed allowed "before_epoch" /\
  phase_allowed allowed "after_epoch" /\
  phase_allowed allowed "before_batch" /\
  phase_allowed allowed "after_batch" /\
  call_allowed allowed GetEpochIterator /\
  call_allowed allowed Next /\
  (forall b, call_allowed allowed (ProcessBatch b)).

(** A relation between states that every elementary update of the
    loop keeps, an event being recorded only if it is allowed. *)
Record stepwise (R : State -> State -> Prop) (allowed : Event -> Prop) : Prop := {
  sw_refl : forall s, R s s;
  sw_trans : forall s1 s2 s3, R s1 s2 -> R s2 s3 -> R s1 s3;
  sw_world : forall s w, R s (with_world w s);
  sw_log : forall s l, R s (with_log l s);
  sw_timer : forall s tm, R s (with_timer tm s);
  sw_timer_call : forall s c, R s (record_timer_call c s);
  sw_ticks : forall s n, R s (with_ticks n s);
  sw_install : forall s sig h, R s (install sig h s);
  sw_event : forall s e, allowed e -> R s (record_event e s)
}.

(** The saved dispositions of the two signals are the same. *)
Definition same_originals (s s' : State) : Prop :=
  original_sigint_handler s' = original_sigint_handler s /\
  original_sigterm_handler s' = original_sigterm_handler s.


(** The events of the start-up of training: the [before_training]
    phase, its calls, and the initialization of the algorithm. *)
Definition is_startup (ev : Event) : bool :=
  match ev with
  | Phase name => String.eqb name "before_training"
  | Called Initialize _ => true
  | Called (Dispatch _ name _) _ => String.eqb name "before_training"
  | _ => false
  end.

(** The events of the [on_error] phase. *)
Definition is_error_handling (ev : Event) : bool :=
  match ev with
  | Phase name => String.eqb name "on_error"
  | Called (Dispatch _ name _) _ => String.eqb name "on_error"
  | _ => false
  end.


(** The calls of collaborators among the events [tl], in order, each
    with the exception it raised if any. *)
Definition calls_of (tl : list Event) : list (call * option exn) :=
  flat_map (fun ev => match ev with
                      | Called c raised => [(c, raised)]
                      | _ => []
                      end) tl.

Definition is_call (ev : Event) : bool :=
  match ev with
  | Called _ _ => true
  | _ => false
  end.


(** The logs whose current row holds under [k] what the row of [l]
    holds. *)
Definition keeps_row (k : string) (l l' : Log) : Prop :=
  current_row l' !! k = current_row l !! k.


(** The timer of [s'] has seen the paths of the timer of [s] in the
    same order, then possibly more; if the former were seen once each,
    so are the latter. *)
Definition order_grows (s s' : State) : Prop :=
  exists more,
    Timer.order (timer s') = Timer.order (timer s) ++ more /\
    (NoDup (Timer.order (timer s)) -> NoDup (Timer.order (timer s'))).


(** The outcomes of the timing report: it returns, or it raises one
    of the two errors of its indexing and of its division. *)
Definition report_outcome {A} (r : res A) : Prop :=
  match r with
  | Val _ => True
  | Raise e => e = IndexError \/ e = ZeroDivisionError
  | Timeout => False
  end.


(** The start of the [after_training] phase, and the start of any
    phase, as events of the trace. *)
Definition is_after_training (ev : Event) : bool :=
  match ev with
  | Phase name => String.eqb name "after_training"
  | _ => false
  end.

Definition is_phase (ev : Event) : bool :=
  match ev with
  | Phase _ => true
  | _ => false
  end.


(** What a phase that ended with outcome [r] has dispatched, [tl]
    being the events recorded after its start: every extension of [exts]
    in order, each with the phase's name and arguments, if it returned;
    the extensions up to and including the one that raised, if it
    raised. *)
Definition dispatched_to (name : string) (payload : option Batch)
    (exts : list Ext) (r : res unit) (tl : list Event) : Prop :=
  match r with
  | Val _ =>
      calls_of tl = map (fun e => (Dispatch e name payload, None)) exts
  | Raise ex =>
      exists done e rest,
        exts = done ++ e :: rest /\
        calls_of tl =
          map (fun e => (Dispatch e name payload, None)) done
            ++ [(Dispatch e name payload, Some ex)]
  | Timeout =>
      exists done rest,
        exts = done ++ rest /\
        calls_of tl = map (fun e => (Dispatch e name payload, None)) done
  end.


(** *** Runs over a stream that is read to its end *)

(** The status keys that the loop reads while it trains. *)
Definition loop_keys : list string :=
  ["iterations_done"; "epochs_done"; "_epoch_ends"; "epoch_started";
   "received_first_batch"; "epoch_interrupt_received";
   "batch_interrupt_received"].

(** A log as a collaborator leaves it that neither writes the status
    keys of the loop nor requests a finish. *)
Definition calm (l l' : Log) : Prop :=
  same_status_on loop_keys l l' /\
  (flag (current_row l) "training_finish_requested" = false ->
   flag (current_row l') "training_finish_requested" = false).

(** A reply during which no signal arrived, with a calm log. *)
Definition quiet {A} (l : Log) (r : reply World A) : Prop :=
  signals r = [] /\ calm l (log_after r).

(** Total correctness of a computation of a loop with the extensions
    [exts]: from every state whose world and log satisfy [P] it comes to
    an end, with a result, a world and a log that satisfy [Q]. *)
Definition leads (exts : list Ext) {A} (P : World -> Log -> Prop) (m : M A)
    (Q : res A -> World -> Log -> Prop) : Prop :=
  forall s : State,
    extensions s = exts -> P (world s) (log s) ->
    exists (r : res A) (s' : State),
      m s = (r, s') /\ extensions s' = exts /\ Q r (world s') (log s').

Definition returning {A} (Q : A -> World -> Log -> Prop)
  : res A -> World -> Log -> Prop :=
  fun r w l => exists a, r = Val a /\ Q a w l.

Definition raising {A} (e : exn) (Q : World -> Log -> Prop)
  : res A -> World -> Log -> Prop :=
  fun r w l => r = Raise e /\ Q w l.

Section Streams.

(** Two views of the world: the epochs that the data stream has still to
    give, and the batches that the current epoch iterator has still to
    give. *)
Variable remaining : World -> list (list Batch).
Variable iterator : World -> list Batch.
(** The batches that the algorithm and the extensions process without
    failure or interruption. *)
Variable good : Batch -> Prop.
Variable exts : list Ext.

Definition keeps_stream {A} (w : World) (r : reply World A) : Prop :=
  remaining (world_after r) = remaining w /\
  iterator (world_after r) = iterator w.

(** The collaborators of a run with no failure and no interruption over
    a data stream: the algorithm and the extensions of [exts] return,
    leave the stream alone and are quiet; [get_epoch_iterator] gives the
    next epoch of the stream, [StopIteration] when there is none;
    [next] gives the next batch of the epoch, [StopIteration] when there
    is none. *)
Record streaming : Prop := {
  str_initialize :
    forall w l,
      outcome (algorithm_initialize w l) = Val tt /\
      quiet l (algorithm_initialize w l) /\
      keeps_stream w (algorithm_initialize w l);
  str_process_batch :
    forall b w l,
      good b ->
      outcome (algorithm_process_batch b w l) = Val tt /\
      quiet l (algorithm_process_batch b w l) /\
      keeps_stream w (algorithm_process_batch b w l);
  str_dispatch :
    forall e name payload w l,
      e ∈ exts ->
      (forall b, payload = Some b -> good b) ->
      outcome (dispatch e name payload w l) = Val tt /\
      quiet l (dispatch e name payload w l) /\
      keeps_stream w (dispatch e name payload w l);
  str_get_epoch_iterator :
    forall w l,
      quiet l (get_epoch_iterator w l) /\
      match remaining w with
      | [] =>
          outcome (get_epoch_iterator w l) = Raise StopIteration /\
          remaining (world_after (get_epoch_iterator w l)) = []
      | ep :: rest =>
          outcome (get_epoch_iterator w l) = Val tt /\
          remaining (world_after (get_epoch_iterator w l)) = rest /\
          iterator (world_after (get_epoch_iterator w l)) = ep
      end;
  str_next_batch :
    forall w l,
      quiet l (next_batch w l) /\
      remaining (world_after (next_batch w l)) = remaining w /\
      match iterator w with
      | [] => outcome (next_batch w l) = Raise StopIteration
      | b :: bs =>
          outcome (next_batch w l) = Val b /\
          iterator (world_after (next_batch w l)) = bs
      end
}.

(** Where the loop stands: the stream has the epochs [eps] to give, [i]
    batches and [e] epochs are counted, there is a history of epoch
    boundaries, and neither an interrupt nor a finish request is
    pending. *)
Record standing (i e : Z) (eps : list (list Batch)) (w : World) (l : Log)
  : Prop := {
  st_remaining : remaining w = eps;
  st_iterations : status l !! "iterations_done" = Some (VInt i);
  st_epochs : status l !! "epochs_done" = Some (VInt e);
  st_ends : exists ends, status l !! "_epoch_ends" = Some (VList ends);
  st_batch_interrupt : flag (status l) "batch_interrupt_received" = false;
  st_epoch_interrupt : flag (status l) "epoch_interrupt_received" = false;
  st_finish : flag (current_row l) "training_finish_requested" = false
}.

(** Between two epochs. *)
Definition between (i e : Z) (eps : list (list Batch)) (w : World) (l : Log)
  : Prop :=
  standing i e eps w l /\ flag (status l) "epoch_started" = false.

(** In an epoch whose iterator has the batches [bs] to give. *)
Definition in_epoch (i e : Z) (bs : list Batch) (eps : list (list Batch))
    (received : bool) (w : World) (l : Log) : Prop :=
  standing i e eps w l /\
  iterator w = bs /\
  status l !! "received_first_batch" = Some (VBool received).

(** A condition on world and log that the quiet collaborators keep. *)
Definition steady (P : World -> Log -> Prop) : Prop :=
  forall w l w' l',
    P w l ->
    remaining w' = remaining w -> iterator w' = iterator w -> calm l l' ->
    P w' l'.

(** A stream all of whose epochs are not empty, are made of good
    batches and are shorter than [fuel]. *)
Definition fits (fuel : nat) (eps : list (list Batch)) : Prop :=
  Forall (fun ep => ep <> [] /\ Forall good ep /\ (length ep < fuel)%nat) eps /\
  (length eps < fuel)%nat.

End Streams.

End Vocabulary.

(** ** A small world for examples

    Batches are numbers.  The data stream hands out the epochs of
    [stream] one after the other; [iterator] is what is left of the
    current epoch.  The algorithm fails on batch 0; while it processes
    batch 98 one interrupt arrives, while it processes batch 99 two. *)

Module Demo.

Record World : Type := mkWorld {
  stream : list (list nat);
  iterator : list nat
}.

(** [Printing] does nothing; [Saver] fails in [on_error]; [Stopper]
    requests the end of training after batch 7. *)
Inductive Ext : Type := Printing | Saver | Stopper.

Definition returns {A} (a : A) : collaborator World A :=
  fun w l => mkReply (Val a) w l [].

Definition fails {A} (e : exn) : collaborator World A :=
  fun w l => mkReply (Raise e) w l [].

Definition process_batch (b : nat) : collaborator World unit :=
  fun w l =>
    if (b =? 0)%nat then mkReply (Raise (OtherError "nan")) w l []
    else if (b =? 98)%nat then mkReply (Val tt) w l [SIGINT]
    else if (b =? 99)%nat then mkReply (Val tt) w l [SIGINT; SIGINT]
    else mkReply (Val tt) w l [].

Definition epoch_iterator : collaborator World unit :=
  fun w l =>
    match stream w with
    | ep :: rest => mkReply (Val tt) (mkWorld rest ep) l []
    | [] => mkReply (Raise StopIteration) w l []
    end.

Definition next : collaborator World nat :=
  fun w l =>
    match iterator w with
    | b :: bs => mkReply (Val b) (mkWorld (stream w) bs) l []
    | [] => mkReply (Raise StopIteration) w l []
    end.

Definition dispatch_ext (e : Ext) (phase : string) (payload : option nat)
  : collaborator World unit :=
  fun w l =>
    match e with
    | Printing => mkReply (Val tt) w l []
    | Saver =>
        if String.eqb phase "on_error"
        then mkReply (Raise (OtherError "disk full")) w l []
        else mkReply (Val tt) w l []
    | Stopper =>
        match payload with
        | Some 7%nat =>
            if String.eqb phase "after_batch"
            then mkReply (Val tt) w
                   (mkLog (status l)
                      (<["training_finish_requested" := VBool true]>
                         (current_row l))) []
            else mkReply (Val tt) w l []
        | _ => mkReply (Val tt) w l []
        end
    end.

Definition name_of (e : Ext) : string :=
  match e with
  | Printing => "Printing"
  | Saver => "Saver"
  | Stopper => "Stopper"
  end.

(** The clock advances by one between two readings. *)
Definition collaborators (profiling : bool) : Collaborators World nat Ext := {|
  algorithm_initialize := returns tt;
  algorithm_process_batch := process_batch;
  get_epoch_iterator := epoch_iterator;
  next_batch := next;
  dispatch := dispatch_ext;
  type_name := name_of;
  clock := fun n => inject_Z (Z.of_nat n);
  format_exc := fun e => "Traceback (most recent call last)";
  profile := profiling;
  model_and_minimizer := fun _ => false;
  same_objective := fun _ => true;
  same_params := fun _ => true
|}.

(** The same collaborators under a clock too coarse to see any time
    pass, with profiling on. *)
Definition frozen : Collaborators World nat Ext := {|
  algorithm_initialize := returns tt;
  algorithm_process_batch := process_batch;
  get_epoch_iterator := epoch_iterator;
  next_batch := next;
  dispatch := dispatch_ext;
  type_name := name_of;
  clock := fun n => 0%Q;
  format_exc := fun e => "Traceback (most recent call last)";
  profile := true;
  model_and_minimizer := fun _ => false;
  same_objective := fun _ => true;
  same_params := fun _ => true
|}.

(** A new main loop over the epochs [epochs], with a new log. *)
Definition fresh (epochs : list (list nat)) (exts : list Ext)
  : @MainLoop World nat Ext :=
  __init__ (mkWorld epochs []) TrainingLog exts (Previous 0) (Previous 1).

(** A main loop restored after a run that ended by the finish signal
    at iteration [n], between two epochs: the current row is the one in
    which that run finished. *)
Definition resumed (n : Z) (epochs : list (list nat)) (exts : list Ext)
  : @MainLoop World nat Ext :=
  mkMainLoop (mkWorld epochs [])
    (mkLog (<["training_started" := VBool true]>
              (<["epoch_started" := VBool false]>
                 (<["epoch_interrupt_received" := VBool false]>
                    (<["batch_interrupt_received" := VBool false]>
                       (<["iterations_done" := VInt n]>
                          (<["epochs_done" := VInt 1]>
                             (<["_epoch_ends" := VList [VInt n]]> ∅)))))))
           (<["training_finished" := VBool true]> ∅))
    exts Timer.init (Previous 0) (Previous 1) (Previous 0) (Previous 1)
    0 [] [] [].

End Demo.

(** The example world with an algorithm that is interrupted from the
    keyboard while it processes batch 0: under the default disposition
    of the signal, [KeyboardInterrupt] is raised in the call. *)
Definition interrupted : Collaborators Demo.World nat Demo.Ext := {|
  algorithm_initialize := Demo.returns tt;
  algorithm_process_batch :=
    fun b => if (b =? 0)%nat then Demo.fails KeyboardInterrupt
             else Demo.returns tt;
  get_epoch_iterator := Demo.epoch_iterator;
  next_batch := Demo.next;
  dispatch := Demo.dispatch_ext;
  type_name := Demo.name_of;
  clock := fun n => inject_Z (Z.of_nat n);
  format_exc := fun e => "Traceback (most recent call last)";
  profile := false;
  model_and_minimizer := fun _ => false;
  same_objective := fun _ => true;
  same_params := fun _ => true
|}.

(** The example world with extensions that raise the finish signal in
    the [after_training] phase. *)
Definition finishing : Collaborators Demo.World nat Demo.Ext := {|
  algorithm_initialize := Demo.returns tt;
  algorithm_process_batch := Demo.process_batch;
  get_epoch_iterator := Demo.epoch_iterator;
  next_batch := Demo.next;
  dispatch :=
    fun e phase payload =>
      if String.eqb phase "after_training" then Demo.fails TrainingFinish
      else Demo.returns tt;
  type_name := Demo.name_of;
  clock := fun n => inject_Z (Z.of_nat n);
  format_exc := fun e => "Traceback (most recent call last)";
  profile := false;
  model_and_minimizer := fun _ => false;
  same_objective := fun _ => true;
  same_params := fun _ => true
|}.

(** * Properties *)

Section Properties.

Context {World Batch Ext : Type} `{Collaborators World Batch Ext}.
Abbreviation State := (@MainLoop World Batch Ext).
Abbreviation Comp := (@M World Batch Ext).
Abbreviation balanced m := (@balanced World Batch Ext _ m).
Abbreviation log_frame R m := (@log_frame World Batch Ext R _ m).
Abbreviation frame R m := (@frame World Batch Ext R _ m).
Abbreviation finish_origin Q m := (@finish_origin World Batch Ext Q _ m).

(** ** The finish check *)

Lemma flag_absent (d : gmap string value) (k : string) :
  d !! k = None -> flag d k = false.
Proof. intros E. unfold flag. now rewrite E. Qed.

Lemma flag_bool (d : gmap string value) (k : string) (b : bool) :
  d !! k = Some (VBool b) -> flag d k = b.
Proof. intros E. unfold flag. now rewrite E. Qed.

(** C3.  The finish check raises the finish signal exactly when the
    current row requests a finish or the status records a batch
    interrupt (at either granularity), or, at epoch granularity only,
    the status records an epoch interrupt; it raises nothing else and
    otherwise leaves the state alone; an absent key counts as false. *)
Theorem check_finish_training_iff (level : string) (s : State) :
  ((exists s', _check_finish_training level s = (Raise TrainingFinish, s')) <->
     flag (current_row (log s)) "training_finish_requested" = true \/
     flag (status (log s)) "batch_interrupt_received" = true \/
     (level = "epoch" /\
      flag (status (log s)) "epoch_interrupt_received" = true)) /\
  ((exists s', _check_finish_training "batch" s = (Raise TrainingFinish, s')) <->
     flag (current_row (log s)) "training_finish_requested" = true \/
     flag (status (log s)) "batch_interrupt_received" = true) /\
  (_check_finish_training level s = (Val tt, s) \/
   _check_finish_training level s =
     (Raise TrainingFinish, record_event (FinishRaised level) s)) /\
  (forall (d : gmap string value) (k : string),
      d !! k = None -> flag d k = false).
Proof.
  assert (G : forall lv,
    (exists s', _check_finish_training lv s = (Raise TrainingFinish, s')) <->
     flag (current_row (log s)) "training_finish_requested" = true \/
     flag (status (log s)) "batch_interrupt_received" = true \/
     (lv = "epoch" /\
      flag (status (log s)) "epoch_interrupt_received" = true)).
  { intros lv. unfold _check_finish_training.
    destruct (flag (current_row (log s)) "training_finish_requested");
      [ split; eauto | ].
    destruct (flag (status (log s)) "batch_interrupt_received");
      [ split; eauto | ].
    cbn [orb].
    destruct (String.eqb_spec lv "epoch") as [-> | Hne]; cbn [andb].
    - destruct (flag (status (log s)) "epoch_interrupt_received").
      + split; eauto.
      + split.
        * intros [s' E]. discriminate E.
        * intros [E | [E | [_ E]]]; discriminate E.
    - split.
      + intros [s' E]. discriminate E.
      + intros [E | [E | [E _]]]; try discriminate E. contradiction. }
  split; [ apply G | ].
  split.
  { rewrite G. split.
    - intros [E | [E | [E _]]]; auto. discriminate E.
    - intros [E | E]; auto. }
  split; [ | apply flag_absent ].
  unfold _check_finish_training.
  destruct (_ || _); [ now right | ].
  destruct (_ && _); [ now right | now left ].
Qed.

(** ** The interrupt handlers *)

Lemma deliver_all_app (a b : list signum) (s : State) :
  deliver_all (a ++ b) s = deliver_all b (deliver_all a s).
Proof. unfold deliver_all. apply fold_left_app. Qed.

Lemma deliver_wf (sig : signum) (s : State) :
  interrupts_wf s -> interrupts_wf (deliver sig s).
Proof.
  unfold interrupts_wf. intros (Hi & Ht & Htab).
  destruct (original_sigint_handler s) eqn:Eoi; try contradiction.
  destruct (original_sigterm_handler s) eqn:Eot; try contradiction.
  destruct sig; unfold deliver; cbn;
    destruct Htab as [[Ei Et] | [[Ei Et] | [Ei Et]]];
    rewrite ?Ei, ?Et; cbn; rewrite ?Eoi, ?Eot, ?Ei, ?Et; cbn; auto 6.
Qed.

Lemma deliver_controller (sig : signum) (s : State) :
  interrupts_wf s ->
  controller_of (deliver sig s) = controller_step (controller_of s) sig.
Proof.
  unfold interrupts_wf. intros (Hi & Ht & Htab).
  destruct (original_sigint_handler s) eqn:Eoi; try contradiction.
  destruct (original_sigterm_handler s) eqn:Eot; try contradiction.
  destruct sig; unfold deliver, controller_of; cbn;
    destruct Htab as [[Ei Et] | [[Ei Et] | [Ei Et]]];
    rewrite ?Ei, ?Et; cbn; rewrite ?Eoi, ?Eot, ?Ei, ?Et; reflexivity.
Qed.

Lemma deliver_all_controller (sigs : list signum) (s : State) :
  interrupts_wf s ->
  interrupts_wf (deliver_all sigs s) /\
  controller_of (deliver_all sigs s) =
    fold_left controller_step sigs (controller_of s).
Proof.
  revert s. induction sigs as [ | sig sigs IH ]; intros s Hwf; cbn.
  - auto.
  - destruct (IH (deliver sig s) (deliver_wf sig s Hwf)) as [Hw Hc].
    split; [ exact Hw | ].
    unfold deliver_all in Hc. rewrite Hc.
    now rewrite (deliver_controller sig s Hwf).
Qed.

(** What [run] leaves in the signal table before the loop starts. *)
Lemma install_handlers_normal (s : State) :
  is_previous (sigint s) -> is_previous (sigterm s) ->
  exists s', install_handlers s = (Val tt, s') /\
             interrupts_wf s' /\ controller_of s' = Normal /\
             sigint s' = HandleEpochInterrupt /\
             sigterm s' = HandleBatchInterrupt /\
             original_sigint_handler s' = sigint s /\
             original_sigterm_handler s' = sigterm s /\
             log s' = log s.
Proof.
  intros Hi Ht. eexists. split; [ reflexivity | ].
  unfold interrupts_wf, controller_of; cbn. auto 10.
Qed.

(** C6.  From a signal table produced by [run], every delivery moves the
    controller as the specification's machine does, along any sequence of
    signals.  The first graceful signal, met in [Normal], sets
    [epoch_interrupt_received] in status and current row and re-arms the
    handler, so that the same signal again leads to
    [BatchInterruptPending]; the stronger signal (the termination signal,
    or the graceful one met in [EpochInterruptPending]) restores both
    saved dispositions at once and sets [batch_interrupt_received] in
    status and current row. *)
Theorem interrupt_controller_refinement (s : State) (sig : signum) :
  interrupts_wf s ->
  (forall sigs : list signum,
      interrupts_wf (deliver_all sigs s) /\
      controller_of (deliver_all sigs s) =
        fold_left controller_step sigs (controller_of s)) /\
  controller_of (deliver sig s) = controller_step (controller_of s) sig /\
  (controller_of s = Normal -> sig = SIGINT ->
     controller_of (deliver sig s) = EpochInterruptPending /\
     status (log (deliver sig s)) !! "epoch_interrupt_received"
       = Some (VBool true) /\
     current_row (log (deliver sig s)) !! "epoch_interrupt_received"
       = Some (VBool true) /\
     sigint (deliver sig s) = HandleBatchInterrupt /\
     controller_of (deliver SIGINT (deliver sig s)) = BatchInterruptPending) /\
  (controller_of s <> BatchInterruptPending ->
   sig = SIGTERM \/ controller_of s = EpochInterruptPending ->
     controller_of (deliver sig s) = BatchInterruptPending /\
     sigint (deliver sig s) = original_sigint_handler s /\
     sigterm (deliver sig s) = original_sigterm_handler s /\
     status (log (deliver sig s)) !! "batch_interrupt_received"
       = Some (VBool true) /\
     current_row (log (deliver sig s)) !! "batch_interrupt_received"
       = Some (VBool true)).
Proof.
  intros Hwf.
  split; [ intros sigs; now apply deliver_all_controller | ].
  split; [ now apply deliver_controller | ].
  pose proof (deliver_controller sig s Hwf) as Hstep.
  pose proof (deliver_wf sig s Hwf) as Hwf'.
  destruct Hwf as (Hi & Ht & Htab).
  split.
  - intros Hn ->. rewrite Hstep, Hn. cbn [controller_step].
    unfold controller_of in Hn.
    destruct (sigint s) eqn:Ei; try discriminate Hn.
    assert (Hd : deliver SIGINT s =
                 _handle_epoch_interrupt
                   (record_event (Delivered SIGINT HandleEpochInterrupt) s)).
    { unfold deliver. cbn. now rewrite Ei. }
    split; [ reflexivity | ].
    rewrite (deliver_controller SIGINT _ Hwf'), Hstep.
    unfold controller_of at 1. rewrite Ei. cbn [controller_step].
    rewrite Hd. cbn.
    repeat split; try reflexivity; apply lookup_insert_eq.
  - intros Hnb Hstrong.
    assert (Hd : deliver sig s =
                 _handle_batch_interrupt
                   (record_event (Delivered sig HandleBatchInterrupt) s)).
    { unfold controller_of in Hnb, Hstrong. unfold deliver.
      destruct Htab as [[Ei Et] | [[Ei Et] | [Ei Et]]].
      - rewrite Ei in Hstrong. destruct Hstrong as [-> | Hc]; [ | discriminate Hc ].
        cbn. now rewrite Et.
      - destruct sig; cbn; now rewrite ?Ei, ?Et.
      - rewrite Ei in Hnb. destruct (original_sigint_handler s);
          try contradiction; try (now contradiction Hnb). }
    split.
    { rewrite Hstep. destruct (controller_of s), sig; try reflexivity;
        try (now contradiction Hnb).
      destruct Hstrong as [E | E]; discriminate E. }
    rewrite Hd. cbn.
    repeat split; try reflexivity; apply lookup_insert_eq.
Qed.

(** ** Running the monad *)

Lemma bind_val {A B} (m : Comp A) (f : A -> Comp B) (s s1 : State) (a : A) :
  m s = (Val a, s1) -> bind m f s = f a s1.
Proof. intros E. unfold bind. now rewrite E. Qed.

Lemma bind_raise {A B} (m : Comp A) (f : A -> Comp B) (s s1 : State) (e : exn) :
  m s = (Raise e, s1) -> bind m f s = (Raise e, s1).
Proof. intros E. unfold bind. now rewrite E. Qed.

Lemma bind_timeout {A B} (m : Comp A) (f : A -> Comp B) (s s1 : State) :
  m s = (Timeout, s1) -> bind m f s = (Timeout, s1).
Proof. intros E. unfold bind. now rewrite E. Qed.

Lemma bind_inv {A B} (m : Comp A) (f : A -> Comp B) (s s' : State) (r : res B) :
  bind m f s = (r, s') ->
  (exists a s1, m s = (Val a, s1) /\ f a s1 = (r, s')) \/
  (exists e, m s = (Raise e, s') /\ r = Raise e) \/
  (m s = (Timeout, s') /\ r = Timeout).
Proof.
  unfold bind. destruct (m s) as [[a | e | ] s1]; intros E.
  - left. eauto.
  - right. left. inversion E. eauto.
  - right. right. inversion E. eauto.
Qed.

Lemma try_finally_inv {A} (m : Comp A) (fin : Comp unit) (s s' : State) (r : res A) :
  try_finally m fin s = (r, s') ->
  (m s = (Timeout, s') /\ r = Timeout) \/
  (exists r1 s1, m s = (r1, s1) /\ r1 <> Timeout /\
     ((fin s1 = (Val tt, s') /\ r = r1) \/
      (exists e, fin s1 = (Raise e, s') /\ r = Raise e) \/
      (fin s1 = (Timeout, s') /\ r = Timeout))).
Proof.
  unfold try_finally. destruct (m s) as [[a | e | ] s1]; intros E.
  - right. exists (Val a), s1. split; [ reflexivity | ]. split; [ discriminate | ].
    destruct (fin s1) as [[[] | e' | ] s2]; inversion E; subst; eauto 6.
  - right. exists (Raise e), s1. split; [ reflexivity | ]. split; [ discriminate | ].
    destruct (fin s1) as [[[] | e' | ] s2]; inversion E; subst; eauto 6.
  - left. inversion E. auto.
Qed.

Lemma try_except_inv {A} (m : Comp A) (h : exn -> option (Comp A))
    (s s' : State) (r : res A) :
  try_except m h s = (r, s') ->
  (exists e s1 k, m s = (Raise e, s1) /\ h e = Some k /\ k s1 = (r, s')) \/
  (m s = (r, s') /\ forall e, r = Raise e -> h e = None).
Proof.
  unfold try_except. destruct (m s) as [[a | e | ] s1] eqn:Em; intros E.
  - right. inversion E; subst. split; [ reflexivity | ]. discriminate.
  - destruct (h e) as [k | ] eqn:Eh.
    + left. eauto 6.
    + right. inversion E; subst. split; [ reflexivity | ].
      intros e' E'. now inversion E'; subst.
  - right. inversion E; subst. split; [ reflexivity | ]. discriminate.
Qed.

(** ** TimeIt *)

Lemma entered_current (name : string) (s : State) :
  Timer.current (timer (entered name s)) = Timer.current (timer s) ++ [name].
Proof. reflexivity. Qed.

Lemma pop_snoc (l : list string) (x : string) : Timer.pop (l ++ [x]) = Some l.
Proof.
  unfold Timer.pop. rewrite removelast_last.
  now destruct l.
Qed.

(** [exit] after a balanced body: the pop finds the name that [enter]
    pushed. *)
Lemma timer_exit_snoc (elapsed : Q) (tm : Timer.t) (c : list string) (x : string) :
  Timer.current tm = c ++ [x] ->
  Timer.exit elapsed tm =
    (Val tt,
     Timer.mk (<[c ++ [x] := (Timer.get (Timer.total tm) (c ++ [x]) + elapsed)%Q]>
                 (Timer.total tm))
              c (Timer.order tm)).
Proof.
  intros E. unfold Timer.exit. now rewrite E, pop_snoc.
Qed.

Lemma TimeIt_unfold {A} (name : string) (body : Comp A) (s : State) :
  TimeIt name body s =
    try_finally body
      (bind time_clock (fun now => timer_exit (now - clock (ticks s))%Q))
      (entered name s).
Proof. reflexivity. Qed.

Lemma TimeIt_timeout {A} (name : string) (body : Comp A) (s s1 : State) :
  body (entered name s) = (Timeout, s1) ->
  TimeIt name body s = (Timeout, s1).
Proof.
  intros E. rewrite TimeIt_unfold. unfold try_finally. now rewrite E.
Qed.

(** The body ended (normally or by an exception) with the stack as
    [enter] left it: [TimeIt] ends the same way, after one [exit]. *)
Lemma TimeIt_ends {A} (name : string) (body : Comp A) (s s1 : State) (r : res A) :
  body (entered name s) = (r, s1) ->
  r <> Timeout ->
  Timer.current (timer s1) = Timer.current (timer s) ++ [name] ->
  TimeIt name body s = (r, exited (clock (ticks s)) s1).
Proof.
  intros E Hr Hc. rewrite TimeIt_unfold. unfold try_finally. rewrite E.
  unfold bind, time_clock, timer_exit, exited. cbn.
  rewrite (timer_exit_snoc _ _ _ _ Hc). cbn.
  destruct r; try reflexivity. now contradiction Hr.
Qed.

Lemma exited_current (start : Q) (s1 : State) (c : list string) (x : string) :
  Timer.current (timer s1) = c ++ [x] ->
  Timer.current (timer (exited start s1)) = c.
Proof.
  intros E. unfold exited. cbn. now rewrite (timer_exit_snoc _ _ _ _ E).
Qed.

Lemma TimeIt_inv {A} (name : string) (body : Comp A) (s s' : State) (r : res A) :
  balanced body ->
  TimeIt name body s = (r, s') ->
  exists s1, body (entered name s) = (r, s1) /\
             (r = Timeout /\ s' = s1 \/
              r <> Timeout /\ s' = exited (clock (ticks s)) s1 /\
              Timer.current (timer s1) = Timer.current (timer s) ++ [name]).
Proof.
  intros Hb E.
  destruct (body (entered name s)) as [r1 s1] eqn:Eb.
  destruct r1 as [a | e | ].
  - destruct (Hb _ _ _ Eb ltac:(discriminate)) as [Hc _].
    rewrite entered_current in Hc.
    rewrite (TimeIt_ends _ _ _ _ _ Eb ltac:(discriminate) Hc) in E.
    inversion E; subst. exists s1. split; [ reflexivity | ].
    right. repeat split; try discriminate; auto.
  - destruct (Hb _ _ _ Eb ltac:(discriminate)) as [Hc _].
    rewrite entered_current in Hc.
    rewrite (TimeIt_ends _ _ _ _ _ Eb ltac:(discriminate) Hc) in E.
    inversion E; subst. exists s1. split; [ reflexivity | ].
    right. repeat split; try discriminate; auto.
  - rewrite (TimeIt_timeout _ _ _ _ Eb) in E. inversion E; subst.
    exists s'. auto.
Qed.

(** ** The structure of the loop's code

    A property of computations that holds of every step that leaves the
    timer and the clock alone, and that is kept by sequencing, by
    [try] ... [except], by [try] ... [finally] and by [TimeIt], holds of
    every method of the loop. *)

Lemma enters_app (a b : list timer_call) : enters (a ++ b) = (enters a + enters b)%nat.
Proof. unfold enters. now rewrite List.filter_app, length_app. Qed.

Lemma exits_app (a b : list timer_call) : exits (a ++ b) = (exits a + exits b)%nat.
Proof. unfold exits. now rewrite List.filter_app, length_app. Qed.

Lemma deliver_timer (sig : signum) (s : State) :
  timer (deliver sig s) = timer s /\
  timer_calls (deliver sig s) = timer_calls s /\
  ticks (deliver sig s) = ticks s.
Proof.
  unfold deliver. destruct (installed sig s); repeat split; reflexivity.
Qed.

Lemma deliver_all_timer (sigs : list signum) (s : State) :
  timer (deliver_all sigs s) = timer s /\
  timer_calls (deliver_all sigs s) = timer_calls s /\
  ticks (deliver_all sigs s) = ticks s.
Proof.
  revert s. induction sigs as [ | sig sigs IH ]; intros s; cbn; [ now repeat split | ].
  unfold deliver_all in IH. destruct (IH (deliver sig s)) as (-> & -> & ->).
  apply deliver_timer.
Qed.

Section Structural.

Variable Q : forall A : Type, Comp A -> Prop.

Hypothesis Q_still :
  forall (A : Type) (m : Comp A),
    (forall s r s', m s = (r, s') ->
       timer s' = timer s /\ timer_calls s' = timer_calls s /\ ticks s' = ticks s) ->
    Q A m.
Hypothesis Q_bind :
  forall (A B : Type) (m : Comp A) (f : A -> Comp B),
    Q A m -> (forall a, Q B (f a)) -> Q B (bind m f).
Hypothesis Q_try_except :
  forall (A : Type) (m : Comp A) (h : exn -> option (Comp A)),
    Q A m -> (forall e k, h e = Some k -> Q A k) -> Q A (try_except m h).
Hypothesis Q_try_finally :
  forall (A : Type) (m : Comp A) (fin : Comp unit),
    Q A m -> Q unit fin -> Q A (try_finally m fin).
Hypothesis Q_TimeIt :
  forall (A : Type) (name : string) (body : Comp A),
    Q A body -> Q A (TimeIt name body).

Lemma structural_ret {A} (a : A) : Q _ (ret a : Comp A).
Proof. apply Q_still. intros s r s' E. now inversion E. Qed.

Lemma structural_raise {A} (e : exn) : Q _ (raise e : Comp A).
Proof. apply Q_still. intros s r s' E. now inversion E. Qed.

Lemma structural_out_of_fuel {A} : Q _ (out_of_fuel : Comp A).
Proof. apply Q_still. intros s r s' E. now inversion E. Qed.

Lemma structural_gets {A} (f : State -> A) : Q _ (gets f : Comp A).
Proof. apply Q_still. intros s r s' E. now inversion E. Qed.

Lemma structural_modify (f : State -> State) :
  (forall s, timer (f s) = timer s /\ timer_calls (f s) = timer_calls s /\
             ticks (f s) = ticks s) ->
  Q _ (modify f).
Proof.
  intros Hf. apply Q_still. intros s r s' E. inversion E; subst. apply Hf.
Qed.

Lemma structural_status_item (k : string) : Q _ (status_item k).
Proof.
  apply Q_still. intros s r s' E. unfold status_item in E.
  destruct (status (log s) !! k); now inversion E.
Qed.

Lemma structural_logger (level msg : string) : Q _ (logger level msg).
Proof. now apply structural_modify. Qed.

Lemma structural_invoke {A} (c : call) (f : collaborator World A) :
  Q _ (invoke c f).
Proof.
  apply Q_still. intros s r s' E. unfold invoke in E.
  pose proof (deliver_all_timer (signals (f (world s) (log s)))
                (with_log (log_after (f (world s) (log s)))
                   (with_world (world_after (f (world s) (log s))) s)))
    as (Ht & Hc & Hk).
  destruct (outcome (f (world s) (log s))); inversion E; subst; cbn;
    rewrite Ht, Hc, Hk; now repeat split.
Qed.

Create HintDb str discriminated.
#[local] Hint Resolve structural_ret structural_raise structural_out_of_fuel
  structural_gets Q_bind Q_try_except Q_try_finally
  structural_status_item structural_logger structural_invoke Q_TimeIt : str.

Lemma structural_dispatch_all (exts : list Ext) (name : string) (payload : option Batch) :
  Q _ (dispatch_all exts name payload).
Proof.
  induction exts as [ | e rest IH ]; cbn [dispatch_all]; auto with str.
Qed.

Lemma structural_run_extensions (name : string) (payload : option Batch) :
  Q _ (_run_extensions name payload).
Proof.
  unfold _run_extensions. apply Q_bind.
  - now apply structural_modify.
  - intros _. apply Q_TimeIt, Q_bind; auto with str.
    intros exts. apply structural_dispatch_all.
Qed.

Lemma structural_check_finish_training (level : string) :
  Q _ (_check_finish_training level).
Proof.
  apply Q_still. intros s r s' E. unfold _check_finish_training in E.
  destruct (_ || _); [ now inversion E | ].
  destruct (_ && _); now inversion E.
Qed.

Lemma structural_increment_status (k : string) : Q _ (increment_status k).
Proof.
  unfold increment_status. apply Q_bind; auto with str.
  intros v. destruct (plus_one v); auto with str. now apply structural_modify.
Qed.

Lemma structural_append_status (k k2 : string) : Q _ (append_status k k2).
Proof.
  unfold append_status. apply Q_bind; auto with str.
  intros v. destruct v; auto with str.
  apply Q_bind; auto with str. intros x. now apply structural_modify.
Qed.

#[local] Hint Resolve structural_dispatch_all structural_run_extensions
  structural_check_finish_training structural_increment_status
  structural_append_status : str.

Lemma structural_read_data : Q _ read_data.
Proof.
  unfold read_data. apply Q_try_except; auto with str.
  intros e k. destruct (is_StopIteration e); [ | discriminate ].
  intros E. inversion E; subst. apply Q_bind; auto with str.
  intros v. destruct (negb (truthy v)); auto with str.
Qed.

Lemma structural_run_iteration : Q _ _run_iteration.
Proof.
  unfold _run_iteration. apply Q_bind; [ apply structural_read_data | ].
  intros [b | ]; auto with str.
  apply Q_bind; [ now apply structural_modify | intros _ ].
  auto 10 with str.
Qed.

Lemma structural_iterations (fuel : nat) : Q _ (iterations fuel).
Proof.
  induction fuel as [ | fuel IH ]; cbn [iterations]; auto with str.
  apply Q_bind; [ apply structural_run_iteration | ].
  intros [ | ]; auto with str.
Qed.

Lemma structural_start_epoch : Q _ start_epoch.
Proof.
  unfold start_epoch. apply Q_bind; auto with str.
  intros [ | ]; auto with str.
  apply Q_bind.
  - apply Q_try_except.
    + apply Q_bind; [ now apply structural_modify | auto with str ].
    + intros e k. destruct (is_StopIteration e); [ | discriminate ].
      intros E. inversion E. auto with str.
  - intros [ | ]; auto with str.
    apply Q_bind; [ now apply structural_modify | auto with str ].
Qed.

Lemma structural_run_epoch (fuel : nat) : Q _ (_run_epoch fuel).
Proof.
  unfold _run_epoch. apply Q_bind; [ apply structural_start_epoch | ].
  intros [ | ]; auto with str.
  apply Q_bind;
    [ apply Q_TimeIt, structural_iterations | intros _ ].
  apply Q_bind; [ now apply structural_modify | intros _ ].
  auto 10 with str.
Qed.

Lemma structural_epochs (inner fuel : nat) : Q _ (epochs inner fuel).
Proof.
  induction fuel as [ | fuel IH ]; cbn [epochs]; auto with str.
  apply Q_bind; [ apply structural_run_epoch | ].
  intros [ | ]; auto with str.
Qed.

Lemma structural_run_try (fuel : nat) : Q _ (run_try fuel).
Proof.
  unfold run_try.
  apply Q_bind; auto with str. intros _.
  apply Q_bind; auto with str. intros started.
  apply Q_bind.
  { destruct (negb (truthy started)); auto with str.
    apply Q_bind; auto with str. intros _.
    apply Q_bind; auto with str. intros _.
    now apply structural_modify. }
  intros _. apply Q_bind; auto with str. intros done.
  apply Q_bind.
  { destruct (positive done); auto with str.
    apply Q_bind; auto with str. intros _.
    apply Q_bind; [ now apply structural_modify | intros _ ].
    now apply structural_modify. }
  intros _. apply Q_TimeIt, structural_epochs.
Qed.

Lemma structural_on_exception (e : exn) : Q _ (on_exception e).
Proof.
  unfold on_exception.
  apply Q_bind; [ now apply structural_modify | intros _ ].
  apply Q_bind; [ now apply structural_modify | intros _ ].
  apply Q_bind; auto with str. intros _.
  apply Q_bind; auto with str.
  apply Q_try_except; auto with str.
  intros e' k. destruct (is_Exception e'); [ | discriminate ].
  intros E. inversion E. auto with str.
Qed.

Lemma structural_run_handlers (e : exn) (k : Comp unit) :
  run_handlers e = Some k -> Q _ k.
Proof.
  unfold run_handlers. destruct (is_TrainingFinish e).
  - intros E. inversion E. now apply structural_modify.
  - destruct (is_Exception e); [ | discriminate ].
    intros E. inversion E. apply structural_on_exception.
Qed.

Lemma structural_timer_report : Q _ timer_report.
Proof.
  apply Q_still. intros s r s' E. unfold timer_report in E.
  destruct (Timer.report (timer s)). now inversion E.
Qed.

Lemma structural_run_finally : Q _ run_finally.
Proof.
  unfold run_finally. apply Q_bind; auto with str. intros finished.
  apply Q_bind; [ destruct finished; auto with str | intros _ ].
  apply Q_bind.
  - destruct profile; auto with str. apply structural_timer_report.
  - intros _. now apply structural_modify.
Qed.

Lemma structural_run (fuel : nat) : Q _ (run fuel).
Proof.
  unfold run. apply Q_bind.
  { unfold sanity_check. apply Q_bind; auto with str. intros w.
    destruct (model_and_minimizer w); auto with str.
    apply Q_bind.
    - destruct (same_objective w); auto with str.
    - intros _. destruct (same_params w); auto with str. }
  intros _. apply Q_bind.
  { apply Q_still. intros s r s' E. now inversion E. }
  intros _. apply Q_try_finally.
  - apply Q_try_except; [ apply structural_run_try | ].
    intros e k. apply structural_run_handlers.
  - apply structural_run_finally.
Qed.



End Structural.

(** ** The timer's stack is left as found *)

(** A step that does not touch the timer. *)
Lemma balanced_still {A} (m : Comp A) :
  (forall s r s', m s = (r, s') ->
     timer s' = timer s /\ timer_calls s' = timer_calls s /\ ticks s' = ticks s) ->
  balanced m.
Proof.
  intros Hm s r s' E _. destruct (Hm _ _ _ E) as (-> & -> & _).
  split; [ reflexivity | ]. exists []. now rewrite app_nil_r.
Qed.

Lemma balanced_seq (s s1 s2 : State) :
  (Timer.current (timer s1) = Timer.current (timer s) /\
   exists calls, timer_calls s1 = timer_calls s ++ calls /\
                 enters calls = exits calls) ->
  (Timer.current (timer s2) = Timer.current (timer s1) /\
   exists calls, timer_calls s2 = timer_calls s1 ++ calls /\
                 enters calls = exits calls) ->
  Timer.current (timer s2) = Timer.current (timer s) /\
  exists calls, timer_calls s2 = timer_calls s ++ calls /\
                enters calls = exits calls.
Proof.
  intros (E1 & c1 & T1 & M1) (E2 & c2 & T2 & M2).
  split; [ congruence | ]. exists (c1 ++ c2).
  split; [ now rewrite T2, T1, app_assoc | ].
  rewrite enters_app, exits_app. lia.
Qed.

Lemma balanced_bind {A B} (m : Comp A) (f : A -> Comp B) :
  balanced m -> (forall a, balanced (f a)) -> balanced (bind m f).
Proof.
  intros Hm Hf s r s' E Hr.
  destruct (bind_inv _ _ _ _ _ E) as [(a & s1 & E1 & E2) | [(e & E1 & ->) | [E1 ->]]].
  - apply balanced_seq with (s1 := s1).
    + apply (Hm _ _ _ E1). discriminate.
    + now apply (Hf a _ _ _ E2).
  - apply (Hm _ _ _ E1). discriminate.
  - now contradiction Hr.
Qed.

Lemma balanced_try_except {A} (m : Comp A) (h : exn -> option (Comp A)) :
  balanced m -> (forall e k, h e = Some k -> balanced k) ->
  balanced (try_except m h).
Proof.
  intros Hm Hh s r s' E Hr.
  destruct (try_except_inv _ _ _ _ _ E) as [(e & s1 & k & E1 & Ek & E2) | [E1 _]].
  - apply balanced_seq with (s1 := s1).
    + apply (Hm _ _ _ E1). discriminate.
    + now apply (Hh _ _ Ek _ _ _ E2).
  - now apply (Hm _ _ _ E1).
Qed.

Lemma balanced_try_finally {A} (m : Comp A) (fin : Comp unit) :
  balanced m -> balanced fin -> balanced (try_finally m fin).
Proof.
  intros Hm Hf s r s' E Hr.
  destruct (try_finally_inv _ _ _ _ _ E)
    as [[_ ->] | (r1 & s1 & E1 & Hr1 & [[E2 ->] | [(e & E2 & ->) | [_ ->]]])];
    try (now contradiction Hr).
  - apply balanced_seq with (s1 := s1).
    + now apply (Hm _ _ _ E1).
    + apply (Hf _ _ _ E2). discriminate.
  - apply balanced_seq with (s1 := s1).
    + now apply (Hm _ _ _ E1).
    + apply (Hf _ _ _ E2). discriminate.
Qed.

Lemma balanced_TimeIt {A} (name : string) (body : Comp A) :
  balanced body -> balanced (TimeIt name body).
Proof.
  intros Hb s r s' E Hr.
  destruct (TimeIt_inv _ _ _ _ _ Hb E) as (s1 & Eb & [[-> _] | (_ & -> & Hc)]).
  - now contradiction Hr.
  - split; [ now apply exited_current with (x := name) | ].
    destruct (Hb _ _ _ Eb Hr) as (_ & calls & Hcalls & Hm).
    exists (TEnter name :: calls ++ [TExit (clock (ticks s1) - clock (ticks s))%Q]).
    split.
    + unfold exited. cbn. rewrite Hcalls. cbn.
      now rewrite <- !app_assoc.
    + change (TEnter name :: calls ++ [TExit (clock (ticks s1) - clock (ticks s))%Q])
        with ([TEnter name] ++ calls ++ [TExit (clock (ticks s1) - clock (ticks s))%Q]).
      rewrite !enters_app, !exits_app. cbn. lia.
Qed.

Lemma balanced_invoke {A} (c : call) (f : collaborator World A) :
  balanced (invoke c f).
Proof.
  apply (structural_invoke (fun A m => balanced m)).
  intros B m. apply balanced_still.
Qed.

Lemma balanced_run_iteration : balanced _run_iteration.
Proof.
  apply (structural_run_iteration (fun A m => balanced m)).
  - intros A m. apply balanced_still.
  - intros A B m f. apply balanced_bind.
  - intros A m h. apply balanced_try_except.
  - intros A name body. apply balanced_TimeIt.
Qed.

Lemma balanced_run (fuel : nat) : balanced (run fuel).
Proof.
  apply (structural_run (fun A m => balanced m)).
  - intros A m. apply balanced_still.
  - intros A B m f. apply balanced_bind.
  - intros A m h. apply balanced_try_except.
  - intros A m fin. apply balanced_try_finally.
  - intros A name body. apply balanced_TimeIt.
Qed.

(** C5.  Around any block of work that comes to an end, by returning or
    by raising, and that leaves the timer's stack as it found it,
    [TimeIt] calls [enter] once before the block and [exit] once after
    it, ends the way the block ended, and restores the stack to its value
    before the entry; the calls made by the block lie between the two.
    The whole of [run] is balanced in this sense. *)
Theorem TimeIt_enter_exit_once {A} (name : string) (body : Comp A)
    (s s1 : State) (r : res A) (inner : list timer_call) :
  body (entered name s) = (r, s1) ->
  r <> Timeout ->
  Timer.current (timer s1) = Timer.current (timer (entered name s)) ->
  timer_calls s1 = timer_calls (entered name s) ++ inner ->
  (exists s',
     TimeIt name body s = (r, s') /\
     timer_calls s' =
       timer_calls s ++
         [TEnter name] ++ inner ++
         [TExit (clock (ticks s1) - clock (ticks s))%Q] /\
     Timer.current (timer (entered name s)) = Timer.current (timer s) ++ [name] /\
     Timer.current (timer s') = Timer.current (timer s)) /\
  (forall fuel, balanced (run fuel)).
Proof.
  intros Eb Hr Hc Hcalls. split; [ | apply balanced_run ].
  rewrite entered_current in Hc.
  exists (exited (clock (ticks s)) s1).
  split; [ now apply TimeIt_ends | ].
  split.
  - unfold exited. cbn. rewrite Hcalls. cbn. now rewrite <- !app_assoc.
  - split; [ reflexivity | ]. now apply exited_current with (x := name).
Qed.

(** ** Frames on the log *)

Section Frames.

Variable R : Log -> Log -> Prop.
Hypothesis R_refl : forall l, R l l.
Hypothesis R_trans : forall l1 l2 l3, R l1 l2 -> R l2 l3 -> R l1 l3.

Lemma log_frame_still {A} (m : Comp A) :
  (forall s r s', m s = (r, s') -> log s' = log s) -> log_frame R m.
Proof. intros Hm s r s' E. rewrite (Hm _ _ _ E). apply R_refl. Qed.

Lemma log_frame_ret {A} (a : A) : log_frame R (ret a : Comp A).
Proof. apply log_frame_still. intros s r s' E. now inversion E. Qed.

Lemma log_frame_raise {A} (e : exn) : log_frame R (raise e : Comp A).
Proof. apply log_frame_still. intros s r s' E. now inversion E. Qed.

Lemma log_frame_out_of_fuel {A} : log_frame R (out_of_fuel : Comp A).
Proof. apply log_frame_still. intros s r s' E. now inversion E. Qed.

Lemma log_frame_gets {A} (f : State -> A) : log_frame R (gets f : Comp A).
Proof. apply log_frame_still. intros s r s' E. now inversion E. Qed.

Lemma log_frame_modify (f : State -> State) :
  (forall s, R (log s) (log (f s))) -> log_frame R (modify f).
Proof. intros Hf s r s' E. inversion E; subst. apply Hf. Qed.

Lemma log_frame_status_item (k : string) : log_frame R (status_item k).
Proof.
  apply log_frame_still. intros s r s' E. unfold status_item in E.
  destruct (status (log s) !! k); now inversion E.
Qed.

Lemma log_frame_logger (level msg : string) : log_frame R (logger level msg).
Proof. apply log_frame_still. intros s r s' E. now inversion E. Qed.

Lemma log_frame_bind {A B} (m : Comp A) (f : A -> Comp B) :
  log_frame R m -> (forall a, log_frame R (f a)) -> log_frame R (bind m f).
Proof.
  intros Hm Hf s r s' E.
  destruct (bind_inv _ _ _ _ _ E) as [(a & s1 & E1 & E2) | [(e & E1 & ->) | [E1 ->]]].
  - apply R_trans with (log s1); [ apply (Hm _ _ _ E1) | apply (Hf _ _ _ _ E2) ].
  - apply (Hm _ _ _ E1).
  - apply (Hm _ _ _ E1).
Qed.

Lemma log_frame_try_except {A} (m : Comp A) (h : exn -> option (Comp A)) :
  log_frame R m -> (forall e k, h e = Some k -> log_frame R k) ->
  log_frame R (try_except m h).
Proof.
  intros Hm Hh s r s' E.
  destruct (try_except_inv _ _ _ _ _ E) as [(e & s1 & k & E1 & Ek & E2) | [E1 _]].
  - apply R_trans with (log s1); [ apply (Hm _ _ _ E1) | apply (Hh _ _ Ek _ _ _ E2) ].
  - apply (Hm _ _ _ E1).
Qed.

Lemma log_frame_try_finally {A} (m : Comp A) (fin : Comp unit) :
  log_frame R m -> log_frame R fin -> log_frame R (try_finally m fin).
Proof.
  intros Hm Hf s r s' E.
  destruct (try_finally_inv _ _ _ _ _ E)
    as [[E1 ->] | (r1 & s1 & E1 & Hr1 & [[E2 ->] | [(e & E2 & ->) | [E2 ->]]])].
  - apply (Hm _ _ _ E1).
  - apply R_trans with (log s1); [ apply (Hm _ _ _ E1) | apply (Hf _ _ _ E2) ].
  - apply R_trans with (log s1); [ apply (Hm _ _ _ E1) | apply (Hf _ _ _ E2) ].
  - apply R_trans with (log s1); [ apply (Hm _ _ _ E1) | apply (Hf _ _ _ E2) ].
Qed.

Lemma log_frame_TimeIt {A} (name : string) (body : Comp A) :
  log_frame R body -> log_frame R (TimeIt name body).
Proof.
  intros Hb. unfold TimeIt.
  apply log_frame_bind; [ now apply log_frame_still; intros s r s' E; inversion E | intros _ ].
  apply log_frame_bind; [ now apply log_frame_still; intros s r s' E; inversion E | intros start ].
  apply log_frame_try_finally; [ exact Hb | ].
  apply log_frame_bind; [ now apply log_frame_still; intros s r s' E; inversion E | intros now ].
  apply log_frame_still. intros s r s' E. unfold timer_exit in E.
  destruct (Timer.exit _ (timer s)). now inversion E.
Qed.

Lemma log_frame_set_status (k : string) (v : value) :
  allows_status R k -> log_frame R (modify (set_status k v)).
Proof. intros Hk. apply log_frame_modify. intros s. apply Hk. Qed.

Lemma log_frame_set_row (k : string) (v : value) :
  allows_row R k -> log_frame R (modify (set_row k v)).
Proof. intros Hk. apply log_frame_modify. intros s. apply Hk. Qed.

Lemma log_frame_check_finish_training (level : string) :
  log_frame R (_check_finish_training level).
Proof.
  apply log_frame_still. intros s r s' E. unfold _check_finish_training in E.
  destruct (_ || _); [ now inversion E | ].
  destruct (_ && _); now inversion E.
Qed.

Lemma log_frame_increment_status (k : string) :
  allows_status R k -> log_frame R (increment_status k).
Proof.
  intros Hk. unfold increment_status.
  apply log_frame_bind; [ apply log_frame_status_item | intros v ].
  destruct (plus_one v); [ now apply log_frame_set_status | apply log_frame_raise ].
Qed.

Lemma log_frame_append_status (k k2 : string) :
  allows_status R k -> log_frame R (append_status k k2).
Proof.
  intros Hk. unfold append_status.
  apply log_frame_bind; [ apply log_frame_status_item | intros v ].
  destruct v; try apply log_frame_raise.
  apply log_frame_bind; [ apply log_frame_status_item | intros x ].
  now apply log_frame_set_status.
Qed.

Hypothesis R_interrupts : allows_interrupts R.

Lemma deliver_frame (sig : signum) (s : State) : R (log s) (log (deliver sig s)).
Proof.
  destruct R_interrupts as (Hes & Her & Hbs & Hbr).
  unfold deliver. destruct (installed sig s); cbn.
  - eapply R_trans; [ apply (Her (log s) (VBool true)) | ].
    apply (Hes (mkLog _ _) (VBool true)).
  - eapply R_trans; [ apply (Hbr (log s) (VBool true)) | ].
    apply (Hbs (mkLog _ _) (VBool true)).
  - apply R_refl.
Qed.

Lemma deliver_all_frame (sigs : list signum) (s : State) :
  R (log s) (log (deliver_all sigs s)).
Proof.
  revert s. induction sigs as [ | sig sigs IH ]; intros s; cbn.
  - apply R_refl.
  - eapply R_trans; [ apply (deliver_frame sig) | apply IH ].
Qed.

Lemma log_frame_invoke {A} (c : call) (f : collaborator World A) :
  respects R f -> log_frame R (invoke c f).
Proof.
  intros Hf s r s' E. unfold invoke in E.
  assert (G : R (log s)
                (log (deliver_all (signals (f (world s) (log s)))
                        (with_log (log_after (f (world s) (log s)))
                           (with_world (world_after (f (world s) (log s))) s))))).
  { eapply R_trans; [ | apply deliver_all_frame ]. cbn. apply Hf. }
  destruct (outcome (f (world s) (log s))); inversion E; subst; exact G.
Qed.

Hypothesis R_respected : all_respect R.

Lemma log_frame_dispatch_all (exts : list Ext) (name : string)
    (payload : option Batch) :
  log_frame R (dispatch_all exts name payload).
Proof.
  destruct R_respected as (_ & _ & _ & _ & Hd).
  induction exts as [ | e rest IH ]; cbn [dispatch_all].
  - apply log_frame_ret.
  - apply log_frame_bind; [ | intros _; exact IH ].
    apply log_frame_TimeIt, log_frame_invoke, Hd.
Qed.

Lemma log_frame_run_extensions (name : string) (payload : option Batch) :
  log_frame R (_run_extensions name payload).
Proof.
  unfold _run_extensions.
  apply log_frame_bind;
    [ now apply log_frame_still; intros s r s' E; inversion E | intros _ ].
  apply log_frame_TimeIt, log_frame_bind; [ apply log_frame_gets | intros exts ].
  apply log_frame_dispatch_all.
Qed.

(** What follows the fetch of a batch in [_run_iteration]. *)
Lemma log_frame_process (batch : Batch) :
  allows_status R "iterations_done" ->
  log_frame R
    (bind (_run_extensions "before_batch" (Some batch)) (fun _ =>
     bind (TimeIt "batch"
             (invoke (ProcessBatch batch) (algorithm_process_batch batch))) (fun _ =>
     bind (increment_status "iterations_done") (fun _ =>
     bind (_run_extensions "after_batch" (Some batch)) (fun _ =>
     bind (_check_finish_training "batch") (fun _ => ret true)))))).
Proof.
  intros Hi. destruct R_respected as (_ & Hp & _ & _ & _).
  apply log_frame_bind; [ apply log_frame_run_extensions | intros _ ].
  apply log_frame_bind; [ apply log_frame_TimeIt, log_frame_invoke, Hp | intros _ ].
  apply log_frame_bind; [ now apply log_frame_increment_status | intros _ ].
  apply log_frame_bind; [ apply log_frame_run_extensions | intros _ ].
  apply log_frame_bind; [ apply log_frame_check_finish_training | intros _ ].
  apply log_frame_ret.
Qed.

Lemma log_frame_read_data : log_frame R read_data.
Proof.
  destruct R_respected as (_ & _ & _ & Hn & _).
  unfold read_data. apply log_frame_try_except.
  - apply log_frame_bind; [ | intros b; apply log_frame_ret ].
    apply log_frame_TimeIt, log_frame_invoke, Hn.
  - intros e k. destruct (is_StopIteration e); [ | discriminate ].
    intros E. inversion E; subst.
    apply log_frame_bind; [ apply log_frame_status_item | intros v ].
    destruct (negb (truthy v)); [ apply log_frame_raise | apply log_frame_ret ].
Qed.

Lemma log_frame_run_iteration :
  allows_status R "received_first_batch" ->
  allows_status R "iterations_done" ->
  log_frame R _run_iteration.
Proof.
  intros Hf Hi. unfold _run_iteration.
  apply log_frame_bind; [ apply log_frame_read_data | intros [batch | ] ].
  - apply log_frame_bind; [ now apply log_frame_set_status | intros _ ].
    now apply log_frame_process.
  - apply log_frame_ret.
Qed.

Lemma log_frame_iterations (fuel : nat) :
  allows_status R "received_first_batch" ->
  allows_status R "iterations_done" ->
  log_frame R (iterations fuel).
Proof.
  intros Hf Hi. induction fuel as [ | fuel IH ]; cbn [iterations].
  - apply log_frame_out_of_fuel.
  - apply log_frame_bind; [ now apply log_frame_run_iteration | ].
    intros [ | ]; [ exact IH | apply log_frame_ret ].
Qed.

End Frames.

(** Agreement on a set of status keys is a frame. *)
Lemma same_status_on_refl (keys : list string) (l : Log) : same_status_on keys l l.
Proof. now intros k _. Qed.

Lemma same_status_on_trans (keys : list string) (l1 l2 l3 : Log) :
  same_status_on keys l1 l2 -> same_status_on keys l2 l3 ->
  same_status_on keys l1 l3.
Proof. intros H12 H23 k Hk. now rewrite (H23 k Hk), (H12 k Hk). Qed.

Lemma same_status_on_allows_status (keys : list string) (k : string) :
  k ∉ keys -> allows_status (same_status_on keys) k.
Proof.
  intros Hk l v k' Hk'. cbn. apply lookup_insert_ne. intros ->. now apply Hk.
Qed.

Lemma same_status_on_allows_row (keys : list string) (k : string) :
  allows_row (same_status_on keys) k.
Proof. now intros l v k' Hk'. Qed.

Lemma same_status_on_allows_interrupts (keys : list string) :
  "epoch_interrupt_received" ∉ keys ->
  "batch_interrupt_received" ∉ keys ->
  allows_interrupts (same_status_on keys).
Proof.
  intros He Hb. repeat split;
    auto using same_status_on_allows_status, same_status_on_allows_row.
Qed.

(** ** Exhaustion of the epoch iterator *)

Ltac not_in_keys :=
  let Hin := fresh "Hin" in
  intros Hin;
  repeat (apply elem_of_cons in Hin as [Hin | Hin]; [ discriminate Hin | ]);
  now apply elem_of_nil in Hin.

Lemma invoke_raises {A} (c : call) (f : collaborator World A) (s : State) (e : exn) :
  outcome (f (world s) (log s)) = Raise e ->
  exists s', invoke c f s = (Raise e, s').
Proof. intros E. unfold invoke. rewrite E. eauto. Qed.

Section FirstBatch.

Hypothesis flag_respected :
  all_respect (same_status_on ["received_first_batch"]).

Let R := same_status_on ["received_first_batch"].

Lemma first_batch_frame_interrupts : allows_interrupts R.
Proof. apply same_status_on_allows_interrupts; not_in_keys. Qed.

Lemma run_iteration_exhausted (s : State) (v : value) :
  outcome (next_batch (world s) (log s)) = Raise StopIteration ->
  status (log s) !! "received_first_batch" = Some v ->
  exists s',
    _run_iteration s =
      (if truthy v then Val false
       else Raise (ValueError "epoch iterator yielded zero batches"), s') /\
    Timer.current (timer s') = Timer.current (timer s).
Proof.
  intros Enext Hv.
  destruct (invoke_raises Next next_batch (entered "read_data" s) StopIteration Enext)
    as (sa & Ea).
  assert (Hca : Timer.current (timer sa) = Timer.current (timer s) ++ ["read_data"]).
  { destruct (balanced_invoke _ _ _ _ _ Ea ltac:(discriminate)) as [Hc _].
    now rewrite Hc. }
  assert (Hva : status (log sa) !! "received_first_batch" = Some v).
  { destruct flag_respected as (_ & _ & _ & Hn & _).
    pose proof (log_frame_invoke R (same_status_on_refl _)
                  (same_status_on_trans _) first_batch_frame_interrupts
                  Next next_batch Hn _ _ _ Ea) as Hfr.
    rewrite (Hfr "received_first_batch"); [ exact Hv | ].
    apply list_elem_of_singleton. reflexivity. }
  pose proof (TimeIt_ends "read_data" _ s sa _ Ea ltac:(discriminate) Hca) as Et.
  exists (exited (clock (ticks s)) sa).
  split; [ | now apply exited_current with (x := "read_data") ].
  assert (Er : read_data s =
               (if truthy v then Val None
                else Raise (ValueError "epoch iterator yielded zero batches"),
                exited (clock (ticks s)) sa)).
  { unfold read_data, try_except. erewrite bind_raise by exact Et.
    cbn [is_StopIteration]. unfold bind, status_item.
    change (log (exited (clock (ticks s)) sa)) with (log sa).
    rewrite Hva. now destruct (truthy v). }
  unfold _run_iteration, bind. rewrite Er. now destruct (truthy v).
Qed.

Lemma first_batch_key : "received_first_batch" ∈ ["received_first_batch"].
Proof. apply list_elem_of_singleton. reflexivity. Qed.

(** A fresh epoch starts with the flag cleared. *)
Lemma start_epoch_clears_flag (s s1 : State) :
  flag (status (log s)) "epoch_started" = false ->
  start_epoch s = (Val true, s1) ->
  status (log s1) !! "received_first_batch" = Some (VBool false).
Proof.
  intros Hf E.
  assert (Hfr : log_frame R
    (bind (try_except
             (bind (invoke GetEpochIterator get_epoch_iterator)
                   (fun _ => ret true))
             (fun e => if is_StopIteration e then Some (ret false) else None))
          (fun got : bool =>
             if got then
               bind (modify (set_status "epoch_started" (VBool true))) (fun _ =>
               bind (_run_extensions "before_epoch" None) (fun _ => ret true))
             else ret false))).
  { destruct flag_respected as (_ & _ & Hg & _ & _).
    pose proof (same_status_on_refl ["received_first_batch"]) as Hrefl.
    pose proof (same_status_on_trans ["received_first_batch"]) as Htrans.
    apply log_frame_bind; try assumption.
    - apply log_frame_try_except; try assumption.
      + apply log_frame_bind; try assumption.
        * apply log_frame_invoke; try assumption.
          apply first_batch_frame_interrupts.
        * intros _. now apply log_frame_ret.
      + intros e k. destruct (is_StopIteration e); [ | discriminate ].
        intros Ek. inversion Ek. now apply log_frame_ret.
    - intros [ | ]; [ | now apply log_frame_ret ].
      apply log_frame_bind; try assumption.
      + apply log_frame_set_status.
        apply same_status_on_allows_status. not_in_keys.
      + intros _. apply log_frame_bind; try assumption.
        * apply log_frame_run_extensions; try assumption.
          apply first_batch_frame_interrupts.
        * intros _. now apply log_frame_ret. }
  unfold start_epoch in E. unfold bind at 1, gets in E. rewrite Hf in E.
  specialize (Hfr (set_status "received_first_batch" (VBool false) s) _ _ E).
  rewrite (Hfr _ first_batch_key). cbn. apply lookup_insert_eq.
Qed.

(** An iteration that processed a batch leaves the flag set. *)
Lemma run_iteration_sets_flag (s s1 : State) :
  _run_iteration s = (Val true, s1) ->
  status (log s1) !! "received_first_batch" = Some (VBool true).
Proof.
  intros E. unfold _run_iteration in E.
  destruct (bind_inv _ _ _ _ _ E) as [(fetched & s0 & E0 & E1) | [(e & _ & Ee) | [_ Ee]]];
    try discriminate Ee.
  destruct fetched as [batch | ]; [ | discriminate E1 ].
  pose proof (log_frame_process R (same_status_on_refl _) (same_status_on_trans _)
                first_batch_frame_interrupts flag_respected batch
                ltac:(apply same_status_on_allows_status; not_in_keys)
                (set_status "received_first_batch" (VBool true) s0) _ _ E1) as Hfr.
  rewrite (Hfr _ first_batch_key). cbn. apply lookup_insert_eq.
Qed.

(** An epoch whose iterator yields nothing at all fails. *)
Lemma run_epoch_zero_batches (fuel : nat) (s s1 : State) :
  flag (status (log s)) "epoch_started" = false ->
  start_epoch s = (Val true, s1) ->
  outcome (next_batch (world s1) (log s1)) = Raise StopIteration ->
  exists s',
    _run_epoch (S fuel) s =
      (Raise (ValueError "epoch iterator yielded zero batches"), s').
Proof.
  intros Hf Es Enext.
  pose proof (start_epoch_clears_flag _ _ Hf Es) as Hflag.
  destruct (run_iteration_exhausted (entered "epoch" s1) (VBool false) Enext Hflag)
    as (s2 & Ei & Hc).
  cbn [truthy] in Ei.
  exists (exited (clock (ticks s1)) s2).
  unfold _run_epoch. erewrite bind_val by exact Es. cbn iota.
  apply bind_raise. apply TimeIt_ends; [ | discriminate | exact Hc ].
  cbn [iterations]. now apply bind_raise.
Qed.

(** After a processed batch, exhaustion ends the loop of the epoch. *)
Lemma iterations_end_after_batch (fuel : nat) (s s1 : State) :
  _run_iteration s = (Val true, s1) ->
  outcome (next_batch (world s1) (log s1)) = Raise StopIteration ->
  exists s',
    _run_iteration s1 = (Val false, s') /\
    iterations (S (S fuel)) s = (Val tt, s').
Proof.
  intros E1 Enext.
  pose proof (run_iteration_sets_flag _ _ E1) as Hflag.
  destruct (run_iteration_exhausted s1 (VBool true) Enext Hflag) as (s2 & Ei & _).
  cbn [truthy] in Ei. exists s2. split; [ exact Ei | ].
  cbn [iterations]. erewrite bind_val by exact E1. cbn iota.
  erewrite bind_val by exact Ei. reflexivity.
Qed.

End FirstBatch.

(** C2.  With collaborators that leave the status key
    [received_first_batch] to the loop: when the epoch iterator is
    exhausted, the batch step raises [ValueError] ("epoch iterator
    yielded zero batches") if the flag is false and returns [False]
    without error if it is true.  The flag is false when a fresh epoch has
    received nothing, so an epoch whose iterator yields no batch at all
    fails; it is true after a processed batch, so the same exhaustion
    then ends the epoch's loop normally. *)
Theorem exhaustion_before_first_batch_fails :
  all_respect (same_status_on ["received_first_batch"]) ->
  (forall (s : State) (v : value),
      outcome (next_batch (world s) (log s)) = Raise StopIteration ->
      status (log s) !! "received_first_batch" = Some v ->
      exists s',
        _run_iteration s =
          (if truthy v then Val false
           else Raise (ValueError "epoch iterator yielded zero batches"), s')) /\
  (forall (fuel : nat) (s s1 : State),
      flag (status (log s)) "epoch_started" = false ->
      start_epoch s = (Val true, s1) ->
      outcome (next_batch (world s1) (log s1)) = Raise StopIteration ->
      exists s',
        _run_epoch (S fuel) s =
          (Raise (ValueError "epoch iterator yielded zero batches"), s')) /\
  (forall (fuel : nat) (s s1 : State),
      _run_iteration s = (Val true, s1) ->
      outcome (next_batch (world s1) (log s1)) = Raise StopIteration ->
      exists s',
        _run_iteration s1 = (Val false, s') /\
        iterations (S (S fuel)) s = (Val tt, s')).
Proof.
  intros Hresp. split; [ | split ].
  - intros s v Enext Hv.
    destruct (run_iteration_exhausted Hresp s v Enext Hv) as (s' & E & _).
    eauto.
  - intros fuel s s1. apply run_epoch_zero_batches. exact Hresp.
  - intros fuel s s1. apply iterations_end_after_batch. exact Hresp.
Qed.

(** ** What the trace can gain *)

Lemma frame_bind (R : State -> State -> Prop) {A B} (m : Comp A) (f : A -> Comp B) :
  (forall s1 s2 s3, R s1 s2 -> R s2 s3 -> R s1 s3) ->
  frame R m -> (forall a, frame R (f a)) -> frame R (bind m f).
Proof.
  intros Htrans Hm Hf s r s' E.
  destruct (bind_inv _ _ _ _ _ E) as [(a & s1 & E1 & E2) | [(e & E1 & ->) | [E1 ->]]].
  - apply Htrans with s1; [ apply (Hm _ _ _ E1) | apply (Hf _ _ _ _ E2) ].
  - apply (Hm _ _ _ E1).
  - apply (Hm _ _ _ E1).
Qed.

Lemma frame_try_except (R : State -> State -> Prop) {A}
    (m : Comp A) (h : exn -> option (Comp A)) :
  (forall s1 s2 s3, R s1 s2 -> R s2 s3 -> R s1 s3) ->
  frame R m -> (forall e k, h e = Some k -> frame R k) ->
  frame R (try_except m h).
Proof.
  intros Htrans Hm Hh s r s' E.
  destruct (try_except_inv _ _ _ _ _ E) as [(e & s1 & k & E1 & Ek & E2) | [E1 _]].
  - apply Htrans with s1; [ apply (Hm _ _ _ E1) | apply (Hh _ _ Ek _ _ _ E2) ].
  - apply (Hm _ _ _ E1).
Qed.

Lemma frame_try_finally (R : State -> State -> Prop) {A}
    (m : Comp A) (fin : Comp unit) :
  (forall s1 s2 s3, R s1 s2 -> R s2 s3 -> R s1 s3) ->
  frame R m -> frame R fin -> frame R (try_finally m fin).
Proof.
  intros Htrans Hm Hf s r s' E.
  destruct (try_finally_inv _ _ _ _ _ E)
    as [[E1 ->] | (r1 & s1 & E1 & Hr1 & [[E2 ->] | [(e & E2 & ->) | [E2 ->]]])].
  - apply (Hm _ _ _ E1).
  - apply Htrans with s1; [ apply (Hm _ _ _ E1) | apply (Hf _ _ _ E2) ].
  - apply Htrans with s1; [ apply (Hm _ _ _ E1) | apply (Hf _ _ _ E2) ].
  - apply Htrans with s1; [ apply (Hm _ _ _ E1) | apply (Hf _ _ _ E2) ].
Qed.

Section Traces.

Variable P : @event Batch Ext -> Prop.
Hypothesis P_most : forall e : @event Batch Ext, e <> Phase "after_training" -> P e.

Lemma appends_refl (s : State) : appends P s s.
Proof. exists []. now rewrite app_nil_r. Qed.

Lemma appends_trans (s1 s2 s3 : State) :
  appends P s1 s2 -> appends P s2 s3 -> appends P s1 s3.
Proof.
  intros (t1 & E1 & F1) (t2 & E2 & F2). exists (t1 ++ t2).
  split; [ now rewrite E2, E1, app_assoc | now apply Forall_app ].
Qed.

Lemma appends_same (s s' : State) : trace s' = trace s -> appends P s s'.
Proof. intros E. exists []. now rewrite app_nil_r. Qed.

Lemma appends_event (e : event) (s : State) :
  e <> Phase "after_training" -> appends P s (record_event e s).
Proof.
  intros He. exists [e]. split; [ reflexivity | ].
  constructor; [ now apply P_most | constructor ].
Qed.

Lemma traces_still {A} (m : Comp A) :
  (forall s r s', m s = (r, s') -> trace s' = trace s) -> frame (appends P) m.
Proof. intros Hm s r s' E. apply appends_same, (Hm _ _ _ E). Qed.

Lemma traces_ret {A} (a : A) : frame (appends P) (ret a : Comp A).
Proof. apply traces_still. intros s r s' E. now inversion E. Qed.

Lemma traces_raise {A} (e : exn) : frame (appends P) (raise e : Comp A).
Proof. apply traces_still. intros s r s' E. now inversion E. Qed.

Lemma traces_out_of_fuel {A} : frame (appends P) (out_of_fuel : Comp A).
Proof. apply traces_still. intros s r s' E. now inversion E. Qed.

Lemma traces_gets {A} (f : State -> A) : frame (appends P) (gets f : Comp A).
Proof. apply traces_still. intros s r s' E. now inversion E. Qed.

Lemma traces_modify (f : State -> State) :
  (forall s, trace (f s) = trace s) -> frame (appends P) (modify f).
Proof. intros Hf. apply traces_still. intros s r s' E. inversion E; subst. apply Hf. Qed.

Lemma traces_status_item (k : string) : frame (appends P) (status_item k).
Proof.
  apply traces_still. intros s r s' E. unfold status_item in E.
  destruct (status (log s) !! k); now inversion E.
Qed.

Lemma traces_logger (level msg : string) : frame (appends P) (logger level msg).
Proof.
  intros s r s' E. inversion E; subst. apply appends_event. discriminate.
Qed.

Lemma traces_bind {A B} (m : Comp A) (f : A -> Comp B) :
  frame (appends P) m -> (forall a, frame (appends P) (f a)) ->
  frame (appends P) (bind m f).
Proof. apply frame_bind, appends_trans. Qed.

Lemma traces_try_except {A} (m : Comp A) (h : exn -> option (Comp A)) :
  frame (appends P) m -> (forall e k, h e = Some k -> frame (appends P) k) ->
  frame (appends P) (try_except m h).
Proof. apply frame_try_except, appends_trans. Qed.

Lemma traces_try_finally {A} (m : Comp A) (fin : Comp unit) :
  frame (appends P) m -> frame (appends P) fin ->
  frame (appends P) (try_finally m fin).
Proof. apply frame_try_finally, appends_trans. Qed.

Lemma traces_TimeIt {A} (name : string) (body : Comp A) :
  frame (appends P) body -> frame (appends P) (TimeIt name body).
Proof.
  intros Hb. unfold TimeIt.
  apply traces_bind; [ now apply traces_modify | intros _ ].
  apply traces_bind;
    [ now apply traces_still; intros s r s' E; inversion E | intros start ].
  apply traces_try_finally; [ exact Hb | ].
  apply traces_bind;
    [ now apply traces_still; intros s r s' E; inversion E | intros now ].
  apply traces_still. intros s r s' E. unfold timer_exit in E.
  destruct (Timer.exit _ (timer s)). now inversion E.
Qed.

Lemma deliver_appends (sig : signum) (s : State) : appends P s (deliver sig s).
Proof.
  unfold deliver.
  assert (Hd : appends P s (record_event (Delivered sig (installed sig s)) s))
    by (apply appends_event; discriminate).
  destruct (installed sig s).
  - eapply appends_trans; [ exact Hd | ].
    unfold _handle_epoch_interrupt.
    eapply appends_trans;
      [ apply (appends_event
                 (Logged "warning"
                    ("Received epoch interrupt signal." +:+ epoch_interrupt_message)));
        discriminate | ].
    now apply appends_same.
  - eapply appends_trans; [ exact Hd | ].
    unfold _handle_batch_interrupt.
    eapply appends_trans; [ | now apply appends_same ].
    eapply appends_trans;
      [ | apply (appends_event
                   (Logged "warning"
                      ("Received batch interrupt signal." +:+ batch_interrupt_message)));
          discriminate ].
    now apply appends_same.
  - exact Hd.
Qed.

Lemma deliver_all_appends (sigs : list signum) (s : State) :
  appends P s (deliver_all sigs s).
Proof.
  revert s. induction sigs as [ | sig sigs IH ]; intros s; cbn.
  - apply appends_refl.
  - eapply appends_trans; [ apply (deliver_appends sig) | apply IH ].
Qed.

Lemma traces_invoke {A} (c : call) (f : collaborator World A) :
  frame (appends P) (invoke c f).
Proof.
  intros s r s' E. unfold invoke in E.
  pose proof (deliver_all_appends (signals (f (world s) (log s)))
                (with_log (log_after (f (world s) (log s)))
                   (with_world (world_after (f (world s) (log s))) s))) as Hd.
  assert (H0 : appends P s
                 (with_log (log_after (f (world s) (log s)))
                    (with_world (world_after (f (world s) (log s))) s)))
    by now apply appends_same.
  pose proof (appends_trans _ _ _ H0 Hd) as Hs.
  destruct (outcome (f (world s) (log s))); inversion E; subst.
  - eapply appends_trans; [ exact Hs | apply appends_event; discriminate ].
  - eapply appends_trans; [ exact Hs | apply appends_event; discriminate ].
  - exact Hs.
Qed.

Create HintDb traces discriminated.
#[local] Hint Resolve traces_ret traces_raise traces_out_of_fuel traces_gets
  traces_status_item traces_logger traces_bind traces_try_except
  traces_try_finally traces_TimeIt traces_invoke : traces.

Lemma traces_dispatch_all (exts : list Ext) (name : string) (payload : option Batch) :
  frame (appends P) (dispatch_all exts name payload).
Proof.
  induction exts as [ | e rest IH ]; cbn [dispatch_all]; auto with traces.
Qed.

Lemma traces_run_extensions (name : string) (payload : option Batch) :
  name <> "after_training" ->
  frame (appends P) (_run_extensions name payload).
Proof.
  intros Hn. unfold _run_extensions. apply traces_bind.
  - intros s r s' E. inversion E; subst. apply appends_event. congruence.
  - intros _. apply traces_TimeIt, traces_bind; auto with traces.
    intros exts. apply traces_dispatch_all.
Qed.

Lemma traces_check_finish_training (level : string) :
  frame (appends P) (_check_finish_training level).
Proof.
  intros s r s' E. unfold _check_finish_training in E.
  destruct (_ || _);
    [ inversion E; subst; apply appends_event; discriminate | ].
  destruct (_ && _); inversion E; subst;
    [ apply appends_event; discriminate | apply appends_refl ].
Qed.

Lemma traces_increment_status (k : string) : frame (appends P) (increment_status k).
Proof.
  unfold increment_status. apply traces_bind; auto with traces.
  intros v. destruct (plus_one v); auto with traces. now apply traces_modify.
Qed.

Lemma traces_append_status (k k2 : string) : frame (appends P) (append_status k k2).
Proof.
  unfold append_status. apply traces_bind; auto with traces.
  intros v. destruct v; auto with traces.
  apply traces_bind; auto with traces. intros x. now apply traces_modify.
Qed.

#[local] Hint Resolve traces_dispatch_all traces_check_finish_training
  traces_increment_status traces_append_status : traces.

Lemma traces_read_data : frame (appends P) read_data.
Proof.
  unfold read_data. apply traces_try_except; auto with traces.
  intros e k. destruct (is_StopIteration e); [ | discriminate ].
  intros E. inversion E; subst. apply traces_bind; auto with traces.
  intros v. destruct (negb (truthy v)); auto with traces.
Qed.

Lemma traces_run_iteration : frame (appends P) _run_iteration.
Proof.
  unfold _run_iteration. apply traces_bind; [ apply traces_read_data | ].
  intros [b | ]; auto with traces.
  apply traces_bind; [ now apply traces_modify | intros _ ].
  apply traces_bind; [ now apply traces_run_extensions | intros _ ].
  apply traces_bind; [ auto with traces | intros _ ].
  apply traces_bind; [ auto with traces | intros _ ].
  apply traces_bind; [ now apply traces_run_extensions | intros _ ].
  auto with traces.
Qed.

Lemma traces_iterations (fuel : nat) : frame (appends P) (iterations fuel).
Proof.
  induction fuel as [ | fuel IH ]; cbn [iterations]; auto with traces.
  apply traces_bind; [ apply traces_run_iteration | ].
  intros [ | ]; auto with traces.
Qed.

Lemma traces_start_epoch : frame (appends P) start_epoch.
Proof.
  unfold start_epoch. apply traces_bind; auto with traces.
  intros [ | ]; auto with traces.
  apply traces_bind.
  - apply traces_try_except.
    + apply traces_bind; [ now apply traces_modify | auto with traces ].
    + intros e k. destruct (is_StopIteration e); [ | discriminate ].
      intros E. inversion E. auto with traces.
  - intros [ | ]; auto with traces.
    apply traces_bind; [ now apply traces_modify | intros _ ].
    apply traces_bind; [ now apply traces_run_extensions | auto with traces ].
Qed.

Lemma traces_run_epoch (fuel : nat) : frame (appends P) (_run_epoch fuel).
Proof.
  unfold _run_epoch. apply traces_bind; [ apply traces_start_epoch | ].
  intros [ | ]; auto with traces.
  apply traces_bind; [ apply traces_TimeIt, traces_iterations | intros _ ].
  apply traces_bind; [ now apply traces_modify | intros _ ].
  apply traces_bind; [ auto with traces | intros _ ].
  apply traces_bind; [ auto with traces | intros _ ].
  apply traces_bind; [ now apply traces_run_extensions | intros _ ].
  auto with traces.
Qed.

Lemma traces_epochs (inner fuel : nat) : frame (appends P) (epochs inner fuel).
Proof.
  induction fuel as [ | fuel IH ]; cbn [epochs]; auto with traces.
  apply traces_bind; [ apply traces_run_epoch | ].
  intros [ | ]; auto with traces.
Qed.

Lemma traces_run_try (fuel : nat) : frame (appends P) (run_try fuel).
Proof.
  unfold run_try.
  apply traces_bind; auto with traces. intros _.
  apply traces_bind; auto with traces. intros started.
  apply traces_bind.
  { destruct (negb (truthy started)); auto with traces.
    apply traces_bind; [ now apply traces_run_extensions | intros _ ].
    apply traces_bind; auto with traces. intros _.
    now apply traces_modify. }
  intros _. apply traces_bind; auto with traces. intros done.
  apply traces_bind.
  { destruct (positive done); auto with traces.
    apply traces_bind; [ now apply traces_run_extensions | intros _ ].
    apply traces_bind; [ now apply traces_modify | intros _ ].
    now apply traces_modify. }
  intros _. apply traces_TimeIt, traces_epochs.
Qed.

Lemma traces_on_exception (e : exn) : frame (appends P) (on_exception e).
Proof.
  unfold on_exception.
  apply traces_bind; [ now apply traces_modify | intros _ ].
  apply traces_bind; [ now apply traces_modify | intros _ ].
  apply traces_bind; auto with traces. intros _.
  apply traces_bind; auto with traces.
  apply traces_try_except; [ now apply traces_run_extensions | ].
  intros e' k. destruct (is_Exception e'); [ | discriminate ].
  intros E. inversion E. auto with traces.
Qed.

Lemma traces_run_handlers (e : exn) (k : Comp unit) :
  run_handlers e = Some k -> frame (appends P) k.
Proof.
  unfold run_handlers. destruct (is_TrainingFinish e).
  - intros E. inversion E. now apply traces_modify.
  - destruct (is_Exception e); [ | discriminate ].
    intros E. inversion E. apply traces_on_exception.
Qed.

Lemma traces_timer_report : frame (appends P) timer_report.
Proof.
  apply traces_still. intros s r s' E. unfold timer_report in E.
  destruct (Timer.report (timer s)). now inversion E.
Qed.

(** The [finally] block when the current row does not show
    [training_finished]. *)
Lemma traces_run_finally_unfinished (s s' : State) (r : res unit) :
  flag (current_row (log s)) "training_finished" = false ->
  run_finally s = (r, s') -> trace s' = trace s.
Proof.
  intros Hf E. unfold run_finally in E. unfold bind at 1, gets in E.
  rewrite Hf in E. unfold bind at 1, ret in E.
  destruct (bind_inv _ _ _ _ _ E) as [(a & s1 & E1 & E2) | [(e & E1 & _) | [E1 _]]].
  - inversion E2; subst. cbn.
    destruct profile; [ | now inversion E1 ].
    unfold timer_report in E1. destruct (Timer.report (timer s)).
    now inversion E1.
  - destruct profile; [ | now inversion E1 ].
    unfold timer_report in E1. destruct (Timer.report (timer s)).
    now inversion E1.
  - destruct profile; [ | now inversion E1 ].
    unfold timer_report in E1. destruct (Timer.report (timer s)).
    now inversion E1.
Qed.

End Traces.

Lemma at_try_run (fuel : nat) (s : State) :
  run fuel s =
    try_finally (try_except (run_try fuel) run_handlers) run_finally (at_try s).
Proof.
  unfold run, at_try, sanity_check, bind, gets.
  destruct (model_and_minimizer (world s)); cbn;
    repeat match goal with
           | |- context [if ?b then _ else _] => destruct b; cbn
           end; reflexivity.
Qed.

Lemma traces_sanity_install (P : @event Batch Ext -> Prop) :
  (forall e : @event Batch Ext, e <> Phase "after_training" -> P e) ->
  frame (appends P) (bind sanity_check (fun _ => install_handlers)).
Proof.
  intros HP. apply traces_bind.
  - unfold sanity_check. apply traces_bind; [ apply traces_gets | intros w ].
    destruct (model_and_minimizer w); [ | apply traces_ret ].
    apply traces_bind.
    + destruct (same_objective w); [ apply traces_ret | now apply traces_logger ].
    + intros _. destruct (same_params w); [ apply traces_ret | now apply traces_logger ].
  - intros _. apply traces_still. intros s r s' E. now inversion E.
Qed.

Lemma at_try_facts (s : State) :
  log (at_try s) = log s /\
  world (at_try s) = world s /\
  timer (at_try s) = timer s /\
  sigint (at_try s) = HandleEpochInterrupt /\
  sigterm (at_try s) = HandleBatchInterrupt /\
  original_sigint_handler (at_try s) = sigint s /\
  original_sigterm_handler (at_try s) = sigterm s /\
  appends (fun e => e <> Phase "after_training") s (at_try s).
Proof.
  assert (Ha : appends (fun e => e <> Phase "after_training") s (at_try s)).
  { unfold at_try.
    destruct (bind sanity_check (fun _ => install_handlers) s) as [r s'] eqn:E.
    apply (traces_sanity_install _ (fun e He => He) _ _ _ E). }
  revert Ha. unfold at_try, sanity_check, bind, gets.
  destruct (model_and_minimizer (world s)); cbn;
    repeat match goal with
           | |- context [if ?b then _ else _] => destruct b; cbn
           end; intros Ha; repeat split; try reflexivity; exact Ha.
Qed.

(** ** The end of [run] *)

Lemma traces_any_run_finally_tail :
  frame (appends (fun _ => True))
    (bind (TimeIt "after_training"
             (bind (gets extensions)
                   (fun exts => dispatch_all exts "after_training" None)))
          (fun _ => bind (if profile then timer_report else ret tt)
                         (fun _ => modify _restore_signal_handlers))).
Proof.
  pose proof (fun (e : @event Batch Ext) (_ : e <> Phase "after_training") => I)
    as HP.
  apply traces_bind.
  - apply traces_TimeIt, traces_bind; [ apply traces_gets | intros exts ].
    now apply traces_dispatch_all.
  - intros _. apply traces_bind.
    + destruct profile; [ apply traces_timer_report | apply traces_ret ].
    + intros _. now apply traces_modify.
Qed.

(** The [finally] block runs [after_training] exactly when the current
    row shows [training_finished]. *)
Lemma run_finally_after_training (s s' : State) (r : res unit) :
  run_finally s = (r, s') ->
  (flag (current_row (log s)) "training_finished" = true ->
     exists tl, trace s' = trace s ++ Phase "after_training" :: tl) /\
  (flag (current_row (log s)) "training_finished" = false ->
     trace s' = trace s).
Proof.
  intros E. split; intros Hf.
  - unfold run_finally in E. unfold bind at 1, gets in E. rewrite Hf in E.
    destruct (traces_any_run_finally_tail
                (record_event (Phase "after_training") s) _ _ E) as (tl & Et & _).
    exists tl. rewrite Et. cbn. now rewrite <- app_assoc.
  - now apply (traces_run_finally_unfinished s s' r).
Qed.

(** The batch step up to and including the [after_batch] phase. *)
Lemma run_iteration_finish_after_batch (s s0 s1 : State) (batch : Batch) :
  read_data s = (Val (Some batch), s0) ->
  bind (_run_extensions "before_batch" (Some batch)) (fun _ =>
  bind (TimeIt "batch"
          (invoke (ProcessBatch batch) (algorithm_process_batch batch))) (fun _ =>
  bind (increment_status "iterations_done") (fun _ =>
        _run_extensions "after_batch" (Some batch))))
    (set_status "received_first_batch" (VBool true) s0) = (Val tt, s1) ->
  flag (current_row (log s1)) "training_finish_requested" = true \/
  flag (status (log s1)) "batch_interrupt_received" = true ->
  _run_iteration s =
    (Raise TrainingFinish, record_event (FinishRaised "batch") s1).
Proof.
  intros Er Ew Hflag. unfold _run_iteration.
  erewrite bind_val by exact Er. cbn iota. unfold bind at 1, modify.
  destruct (bind_inv _ _ _ _ _ Ew) as [(a1 & t1 & E1 & Ew1) | [(e & _ & Ee) | [_ Ee]]];
    try discriminate Ee.
  erewrite bind_val by exact E1.
  destruct (bind_inv _ _ _ _ _ Ew1) as [(a2 & t2 & E2 & Ew2) | [(e & _ & Ee) | [_ Ee]]];
    try discriminate Ee.
  erewrite bind_val by exact E2.
  destruct (bind_inv _ _ _ _ _ Ew2) as [(a3 & t3 & E3 & Ew3) | [(e & _ & Ee) | [_ Ee]]];
    try discriminate Ee.
  erewrite bind_val by exact E3.
  erewrite bind_val by exact Ew3.
  apply bind_raise. unfold _check_finish_training.
  destruct Hflag as [-> | ->]; [ reflexivity | ].
  now rewrite orb_true_r.
Qed.

(** ** The error path of [run] *)

(** The state in which the [on_error] phase starts after the error [e]
    left the [try] block in state [s1]. *)
Lemma on_exception_unfold (e : exn) (s1 : State) :
  on_exception e s1 =
    bind (try_except
            (_run_extensions "on_error" None)
            (fun inner_e =>
               if is_Exception inner_e then
                 Some (bind (logger "error" (format_exc inner_e)) (fun _ =>
                       logger "error"
                         ("Error occured when running extensions."
                          +:+ error_in_error_handling_message)))
               else None))
         (fun _ => raise e)
      (record_event
         (Logged "error" ("Error occured during training." +:+ error_message))
         (set_row "got_exception" (VStr (format_exc e))
            (_restore_signal_handlers s1))).
Proof. reflexivity. Qed.

(** The error path, step by step: an ordinary error [e] leaves the
    [try] block; the handler restores the signal dispositions, records
    the formatted error in the current row, logs, and runs [on_error];
    if that phase returns, or fails with an ordinary error (which is
    logged), [e] is raised again.  If then the current row does not show
    [training_finished], the [finally] block adds nothing to the trace,
    no [after_training] phase is in the trace of the whole run, and
    without profiling the run ends by raising [e]. *)
Lemma run_error_path (fuel : nat) (s s1 : State) (e : exn) :
  run_try fuel (at_try s) = (Raise e, s1) ->
  is_TrainingFinish e = false ->
  is_Exception e = true ->
  let s2 :=
    record_event
      (Logged "error" ("Error occured during training." +:+ error_message))
      (set_row "got_exception" (VStr (format_exc e))
         (_restore_signal_handlers s1)) in
  current_row (log s2) !! "got_exception" = Some (VStr (format_exc e)) /\
  sigint s2 = original_sigint_handler s1 /\
  sigterm s2 = original_sigterm_handler s1 /\
  forall (r3 : res unit) (s3 : State),
    _run_extensions "on_error" None s2 = (r3, s3) ->
    r3 <> Timeout ->
    (forall e', r3 = Raise e' -> is_Exception e' = true) ->
    let s4 :=
      match r3 with
      | Raise e' =>
          record_event
            (Logged "error" ("Error occured when running extensions."
                             +:+ error_in_error_handling_message))
            (record_event (Logged "error" (format_exc e')) s3)
      | _ => s3
      end in
    try_except (run_try fuel) run_handlers (at_try s) = (Raise e, s4) /\
    (flag (current_row (log s4)) "training_finished" = false ->
     forall (r : res unit) (s' : State),
       run fuel s = (r, s') ->
       trace s' = trace s4 /\
       appends (fun ev => ev <> Phase "after_training") s s' /\
       (profile = false -> r = Raise e)).
Proof.
  intros E Hnf Hex s2.
  split; [ cbn; apply lookup_insert_eq | ].
  split; [ reflexivity | ]. split; [ reflexivity | ].
  intros r3 s3 E3 Hr3 Hinner s4.
  assert (Eh : try_except (run_try fuel) run_handlers (at_try s) = (Raise e, s4)).
  { unfold try_except. rewrite E. unfold run_handlers. rewrite Hnf, Hex.
    rewrite on_exception_unfold. fold s2. unfold bind at 1, try_except.
    rewrite E3. subst s4. destruct r3 as [[] | e' | ].
    - reflexivity.
    - rewrite (Hinner e' eq_refl). reflexivity.
    - now contradiction Hr3. }
  split; [ exact Eh | ].
  intros Hflag r s' Erun.
  rewrite at_try_run in Erun. unfold try_finally in Erun. rewrite Eh in Erun.
  destruct (run_finally s4) as [rf sf] eqn:Ef.
  pose proof (traces_run_finally_unfinished _ _ _ Hflag Ef) as Etr.
  assert (Hs' : s' = sf) by (destruct rf; now inversion Erun).
  subst s'. split; [ exact Etr | ]. split.
  - pose (P := fun ev : @event Batch Ext => ev <> Phase "after_training").
    assert (HP : forall ev : @event Batch Ext, ev <> Phase "after_training" -> P ev)
      by (intros ev Hev; exact Hev).
    destruct (at_try_facts s) as (_ & _ & _ & _ & _ & _ & _ & H0).
    assert (Hfr : frame (appends P) (try_except (run_try fuel) run_handlers)).
    { apply traces_try_except; [ now apply traces_run_try | ].
      intros e0 k. now apply traces_run_handlers. }
    pose proof (Hfr _ _ _ Eh) as H1.
    eapply appends_trans; [ exact H0 | ].
    eapply appends_trans; [ exact H1 | ].
    now apply appends_same.
  - intros Hp. unfold run_finally in Ef. unfold bind at 1, gets in Ef.
    rewrite Hflag, Hp in Ef. cbn in Ef. inversion Ef; subst.
    now inversion Erun.
Qed.

(** ** Where a finish signal comes from *)

Section Origins.

Variable Q : @event Batch Ext -> Prop.
Hypothesis Q_called : forall c, Q (Called c (Some TrainingFinish)).

Lemma last_snoc_event (t : list (@event Batch Ext)) (ev : @event Batch Ext) :
  last (t ++ [ev]) = Some ev.
Proof. apply last_snoc. Qed.

Lemma origin_never {A} (m : Comp A) :
  (forall s s', m s <> (Raise TrainingFinish, s')) -> finish_origin Q m.
Proof. intros Hm s s' E. now contradiction (Hm s s'). Qed.

Lemma origin_ret {A} (a : A) : finish_origin Q (ret a : Comp A).
Proof. apply origin_never. intros s s' E. inversion E. Qed.

Lemma origin_gets {A} (f : State -> A) : finish_origin Q (gets f : Comp A).
Proof. apply origin_never. intros s s' E. inversion E. Qed.

Lemma origin_modify (f : State -> State) : finish_origin Q (modify f).
Proof. apply origin_never. intros s s' E. inversion E. Qed.

Lemma origin_raise {A} (e : exn) :
  e <> TrainingFinish -> finish_origin Q (raise e : Comp A).
Proof. intros He. apply origin_never. intros s s' E. inversion E. congruence. Qed.

Lemma origin_status_item (k : string) : finish_origin Q (status_item k).
Proof.
  apply origin_never. intros s s' E. unfold status_item in E.
  destruct (status (log s) !! k); inversion E.
Qed.

Lemma origin_bind {A B} (m : Comp A) (f : A -> Comp B) :
  finish_origin Q m -> (forall a, finish_origin Q (f a)) ->
  finish_origin Q (bind m f).
Proof.
  intros Hm Hf s s' E.
  destruct (bind_inv _ _ _ _ _ E) as [(a & s1 & E1 & E2) | [(e & E1 & Ee) | [_ Ee]]].
  - apply (Hf a _ _ E2).
  - inversion Ee; subst. apply (Hm _ _ E1).
  - discriminate Ee.
Qed.

Lemma origin_try_except {A} (m : Comp A) (h : exn -> option (Comp A)) :
  finish_origin Q m -> (forall e k, h e = Some k -> finish_origin Q k) ->
  finish_origin Q (try_except m h).
Proof.
  intros Hm Hh s s' E.
  destruct (try_except_inv _ _ _ _ _ E) as [(e & s1 & k & E1 & Ek & E2) | [E1 _]].
  - apply (Hh _ _ Ek _ _ E2).
  - apply (Hm _ _ E1).
Qed.

Lemma origin_TimeIt {A} (name : string) (body : Comp A) :
  finish_origin Q body -> finish_origin Q (TimeIt name body).
Proof.
  intros Hb s s' E. rewrite TimeIt_unfold in E.
  destruct (try_finally_inv _ _ _ _ _ E)
    as [[_ Ee] | (r1 & s1 & E1 & Hr1 & [[E2 Er] | [(e & E2 & Ee) | [_ Ee]]])];
    try discriminate Ee.
  - subst r1.
    destruct (Hb _ _ E1) as (ev & Hl & Hq). exists ev. split; [ | exact Hq ].
    unfold bind, time_clock, timer_exit in E2. cbn in E2.
    destruct (Timer.exit _ (timer s1)) as [rx tm]. inversion E2; subst. exact Hl.
  - exfalso. inversion Ee; subst.
    unfold bind, time_clock, timer_exit in E2. cbn in E2.
    unfold Timer.exit in E2. destruct (Timer.pop _); inversion E2.
Qed.

Lemma origin_invoke {A} (c : call) (f : collaborator World A) :
  finish_origin Q (invoke c f).
Proof.
  intros s s' E. unfold invoke in E.
  destruct (outcome (f (world s) (log s))) as [a | e | ]; inversion E; subst.
  exists (Called c (Some TrainingFinish)).
  split; [ apply last_snoc_event | apply Q_called ].
Qed.

Lemma origin_dispatch_all (exts : list Ext) (name : string) (payload : option Batch) :
  finish_origin Q (dispatch_all exts name payload).
Proof.
  induction exts as [ | e rest IH ]; cbn [dispatch_all].
  - apply origin_ret.
  - apply origin_bind; [ | intros _; exact IH ].
    apply origin_TimeIt, origin_invoke.
Qed.

Lemma origin_run_extensions (name : string) (payload : option Batch) :
  finish_origin Q (_run_extensions name payload).
Proof.
  unfold _run_extensions. apply origin_bind; [ apply origin_modify | intros _ ].
  apply origin_TimeIt, origin_bind; [ apply origin_gets | intros exts ].
  apply origin_dispatch_all.
Qed.

Lemma origin_check_finish_training (level : string) :
  Q (FinishRaised level) -> finish_origin Q (_check_finish_training level).
Proof.
  intros Hq s s' E. unfold _check_finish_training in E.
  exists (FinishRaised level). split; [ | exact Hq ].
  destruct (_ || _); [ inversion E; subst; apply last_snoc_event | ].
  destruct (_ && _); inversion E; subst. apply last_snoc_event.
Qed.

Lemma origin_increment_status (k : string) : finish_origin Q (increment_status k).
Proof.
  unfold increment_status. apply origin_bind; [ apply origin_status_item | intros v ].
  destruct (plus_one v); [ apply origin_modify | now apply origin_raise ].
Qed.

Lemma origin_append_status (k k2 : string) : finish_origin Q (append_status k k2).
Proof.
  unfold append_status. apply origin_bind; [ apply origin_status_item | intros v ].
  destruct v; try (now apply origin_raise).
  apply origin_bind; [ apply origin_status_item | intros x; apply origin_modify ].
Qed.

Lemma origin_start_epoch : finish_origin Q start_epoch.
Proof.
  unfold start_epoch. apply origin_bind; [ apply origin_gets | ].
  intros [ | ]; [ apply origin_ret | ].
  apply origin_bind.
  - apply origin_try_except.
    + apply origin_bind; [ apply origin_modify | intros _ ].
      apply origin_bind; [ apply origin_invoke | intros _; apply origin_ret ].
    + intros e k. destruct (is_StopIteration e); [ | discriminate ].
      intros E. inversion E. apply origin_ret.
  - intros [ | ]; [ | apply origin_ret ].
    apply origin_bind; [ apply origin_modify | intros _ ].
    apply origin_bind; [ apply origin_run_extensions | intros _; apply origin_ret ].
Qed.

(** What follows the loop over the batches in [_run_epoch]. *)
Lemma origin_epoch_end :
  Q (FinishRaised "epoch") ->
  finish_origin Q
    (bind (modify (set_status "epoch_started" (VBool false))) (fun _ =>
     bind (increment_status "epochs_done") (fun _ =>
     bind (append_status "_epoch_ends" "iterations_done") (fun _ =>
     bind (_run_extensions "after_epoch" None) (fun _ =>
     bind (_check_finish_training "epoch") (fun _ => ret true)))))).
Proof.
  intros Hq.
  apply origin_bind; [ apply origin_modify | intros _ ].
  apply origin_bind; [ apply origin_increment_status | intros _ ].
  apply origin_bind; [ apply origin_append_status | intros _ ].
  apply origin_bind; [ apply origin_run_extensions | intros _ ].
  apply origin_bind; [ now apply origin_check_finish_training | intros _ ].
  apply origin_ret.
Qed.

End Origins.

(** ** A finish in the middle of an epoch *)

Section MidEpoch.

Hypothesis epoch_keys_respected : all_respect (same_status_on epoch_keys).

Lemma epoch_keys_interrupts : allows_interrupts (same_status_on epoch_keys).
Proof. apply same_status_on_allows_interrupts; not_in_keys. Qed.

Lemma epoch_keys_iterations (fuel : nat) :
  log_frame (same_status_on epoch_keys) (TimeIt "epoch" (iterations fuel)).
Proof.
  pose proof (same_status_on_refl epoch_keys) as Hrefl.
  pose proof (same_status_on_trans epoch_keys) as Htrans.
  apply log_frame_TimeIt; try assumption.
  apply log_frame_iterations; try assumption.
  - apply epoch_keys_interrupts.
  - apply same_status_on_allows_status; not_in_keys.
  - apply same_status_on_allows_status; not_in_keys.
Qed.

(** When [start_epoch] lets the epoch go on, the status shows the epoch
    as started and the two records of finished epochs are untouched. *)
Lemma start_epoch_started (s s1 : State) :
  start_epoch s = (Val true, s1) ->
  flag (status (log s1)) "epoch_started" = true /\
  status (log s1) !! "epochs_done" = status (log s) !! "epochs_done" /\
  status (log s1) !! "_epoch_ends" = status (log s) !! "_epoch_ends".
Proof.
  intros E. unfold start_epoch in E. unfold bind at 1, gets in E.
  destruct (flag (status (log s)) "epoch_started") eqn:Hf.
  - inversion E; subst. auto.
  - pose proof (same_status_on_refl epoch_keys) as Hrefl.
    pose proof (same_status_on_trans epoch_keys) as Htrans.
    destruct epoch_keys_respected as (_ & _ & Hg & _ & _).
    destruct (bind_inv _ _ _ _ _ E) as [(got & s0 & E0 & E1) | [(e & _ & Ee) | [_ Ee]]];
      try discriminate Ee.
    destruct got; [ | discriminate E1 ].
    assert (H0 : same_status_on ["epochs_done"; "_epoch_ends"] (log s) (log s0)).
    { assert (Hfr : log_frame (same_status_on ["epochs_done"; "_epoch_ends"])
        (try_except
           (bind (modify (set_status "received_first_batch" (VBool false))) (fun _ =>
            bind (invoke GetEpochIterator get_epoch_iterator) (fun _ => ret true)))
           (fun e => if is_StopIteration e then Some (ret false) else None))).
      { apply log_frame_try_except; try apply same_status_on_trans.
        - apply log_frame_bind; try apply same_status_on_trans.
          + apply log_frame_set_status.
            apply same_status_on_allows_status; not_in_keys.
          + intros _. apply log_frame_bind; try apply same_status_on_trans.
            * apply log_frame_invoke;
                try apply same_status_on_refl; try apply same_status_on_trans.
              -- apply same_status_on_allows_interrupts; not_in_keys.
              -- intros w l k Hk. apply (Hg w l k).
                 unfold epoch_keys. apply elem_of_cons. now right.
            * intros _. apply log_frame_ret, same_status_on_refl.
        - intros e k. destruct (is_StopIteration e); [ | discriminate ].
          intros Ek. inversion Ek. apply log_frame_ret, same_status_on_refl. }
      apply (Hfr _ _ _ E0). }
    assert (H1 : same_status_on epoch_keys
                   (log (set_status "epoch_started" (VBool true) s0)) (log s1)).
    { assert (Hfr : log_frame (same_status_on epoch_keys)
        (bind (_run_extensions "before_epoch" None) (fun _ => ret true))).
      { apply log_frame_bind; try assumption.
        - apply log_frame_run_extensions; try assumption.
          apply epoch_keys_interrupts.
        - intros _. now apply log_frame_ret. }
      apply (Hfr _ _ _ E1). }
    split; [ | split ].
    + unfold flag. rewrite (H1 "epoch_started"); [ | unfold epoch_keys; set_solver ].
      cbn. now rewrite lookup_insert_eq.
    + rewrite (H1 "epochs_done"); [ | unfold epoch_keys; set_solver ].
      cbn. rewrite lookup_insert_ne by discriminate.
      apply (H0 "epochs_done"). set_solver.
    + rewrite (H1 "_epoch_ends"); [ | unfold epoch_keys; set_solver ].
      cbn. rewrite lookup_insert_ne by discriminate.
      apply (H0 "_epoch_ends"). set_solver.
Qed.

Lemma run_epoch_finish_at_batch (fuel : nat) (s s' : State) :
  _run_epoch fuel s = (Raise TrainingFinish, s') ->
  last (trace s') = Some (FinishRaised "batch") ->
  flag (status (log s')) "epoch_started" = true /\
  status (log s') !! "epochs_done" = status (log s) !! "epochs_done" /\
  status (log s') !! "_epoch_ends" = status (log s) !! "_epoch_ends".
Proof.
  intros E Hlast.
  pose (Q := fun ev : @event Batch Ext => ev <> FinishRaised "batch").
  assert (Qc : forall c, Q (Called c (Some TrainingFinish))) by (intros c; discriminate).
  assert (Qe : Q (FinishRaised "epoch")) by discriminate.
  unfold _run_epoch in E.
  destruct (bind_inv _ _ _ _ _ E) as [(go & s1 & E1 & E2) | [(e & E1 & Ee) | [_ Ee]]];
    try discriminate Ee.
  2:{ inversion Ee; subst.
      destruct (origin_start_epoch Q Qc _ _ E1) as (ev & Hl & Hq).
      rewrite Hlast in Hl. inversion Hl; subst. now contradiction Hq. }
  destruct go; [ | discriminate E2 ].
  destruct (start_epoch_started _ _ E1) as (Hst & Hdone & Hends).
  destruct (bind_inv _ _ _ _ _ E2) as [([] & s2 & E3 & E4) | [(e & E3 & Ee) | [_ Ee]]];
    try discriminate Ee.
  - destruct (origin_epoch_end Q Qc Qe _ _ E4) as (ev & Hl & Hq).
    rewrite Hlast in Hl. inversion Hl; subst. now contradiction Hq.
  - pose proof (epoch_keys_iterations fuel _ _ _ E3) as Hfr.
    split; [ | split ].
    + unfold flag. rewrite (Hfr "epoch_started"); [ exact Hst | ].
      unfold epoch_keys; set_solver.
    + rewrite (Hfr "epochs_done"); [ exact Hdone | unfold epoch_keys; set_solver ].
    + rewrite (Hfr "_epoch_ends"); [ exact Hends | unfold epoch_keys; set_solver ].
Qed.

End MidEpoch.

(** C10.  With collaborators that leave the status keys
    [epoch_started], [epochs_done] and [_epoch_ends] to the loop: when an
    epoch ends by the finish signal raised by the check at batch
    granularity, the status still shows the epoch as started, and
    [epochs_done] and the history of epoch boundaries are as they were
    when the epoch step began.  The handler of the finish signal then
    changes nothing but the key [training_finished] of the current row.
    A later [start_epoch] on a status that shows the epoch as started
    goes on with it: no new iterator, no [before_epoch] phase. *)
Theorem finish_mid_epoch_leaves_epoch_open :
  all_respect (same_status_on epoch_keys) ->
  (forall (fuel : nat) (s s' : State),
      _run_epoch fuel s = (Raise TrainingFinish, s') ->
      last (trace s') = Some (FinishRaised "batch") ->
      flag (status (log s')) "epoch_started" = true /\
      status (log s') !! "epochs_done" = status (log s) !! "epochs_done" /\
      status (log s') !! "_epoch_ends" = status (log s) !! "_epoch_ends") /\
  (forall s1 : State,
      exists k, run_handlers TrainingFinish = Some k /\
                k s1 = (Val tt, set_row "training_finished" (VBool true) s1) /\
                status (log (set_row "training_finished" (VBool true) s1))
                  = status (log s1) /\
                current_row (log (set_row "training_finished" (VBool true) s1))
                  = <["training_finished" := VBool true]> (current_row (log s1))) /\
  (forall s : State,
      flag (status (log s)) "epoch_started" = true ->
      start_epoch s = (Val true, s)).
Proof.
  intros Hresp. split; [ | split ].
  - intros fuel s s'. now apply run_epoch_finish_at_batch.
  - intros s1. eexists. split; [ reflexivity | ]. repeat split.
  - intros s Hf. unfold start_epoch, bind, gets. now rewrite Hf.
Qed.

(** ** Counting batches and epochs *)

Lemma processed_app (a b : list (@event Batch Ext)) :
  processed (a ++ b) = (processed a + processed b)%Z.
Proof. unfold processed. rewrite List.filter_app, length_app. lia. Qed.

Lemma completed_app (a b : list (@event Batch Ext)) :
  completed (a ++ b) = (completed a + completed b)%Z.
Proof. unfold completed. rewrite List.filter_app, length_app. lia. Qed.

Lemma uncounted_counts (tl : list (@event Batch Ext)) :
  Forall (fun ev => is_processed ev = false /\ is_completed ev = false) tl ->
  processed tl = 0%Z /\ completed tl = 0%Z.
Proof.
  unfold processed, completed.
  induction 1 as [ | ev tl [Hp Hc] _ [IHp IHc] ]; cbn; [ now split | ].
  rewrite Hp, Hc. now split.
Qed.

Lemma uncounted_silent (s s' : State) :
  log s' = log s -> trace s' = trace s -> uncounted s s'.
Proof.
  intros El Et. split.
  - rewrite El. apply same_status_on_refl.
  - exists []. rewrite app_nil_r. split; [ exact Et | constructor ].
Qed.

Lemma uncounted_refl (s : State) : uncounted s s.
Proof. now apply uncounted_silent. Qed.

Lemma uncounted_trans (s1 s2 s3 : State) :
  uncounted s1 s2 -> uncounted s2 s3 -> uncounted s1 s3.
Proof.
  intros (L1 & t1 & E1 & F1) (L2 & t2 & E2 & F2). split.
  - eapply same_status_on_trans; eassumption.
  - exists (t1 ++ t2). split; [ now rewrite E2, E1, app_assoc | now apply Forall_app ].
Qed.

Lemma uncounted_event (ev : @event Batch Ext) (s : State) :
  is_processed ev = false -> is_completed ev = false ->
  uncounted s (record_event ev s).
Proof.
  intros Hp Hc. split; [ apply same_status_on_refl | ].
  exists [ev]. split; [ reflexivity | ]. constructor; [ now split | constructor ].
Qed.

Lemma uncounted_set_status (k : string) (v : value) (s : State) :
  k ∉ counter_keys -> uncounted s (set_status k v s).
Proof.
  intros Hk. split.
  - now apply same_status_on_allows_status.
  - exists []. rewrite app_nil_r. split; [ reflexivity | constructor ].
Qed.

Lemma uncounted_set_row (k : string) (v : value) (s : State) :
  uncounted s (set_row k v s).
Proof.
  split.
  - now apply same_status_on_allows_row.
  - exists []. rewrite app_nil_r. split; [ reflexivity | constructor ].
Qed.

Lemma uncounted_handle_epoch_interrupt (s : State) :
  uncounted s (_handle_epoch_interrupt s).
Proof.
  split.
  - intros k Hk. cbn. apply lookup_insert_ne. intros <-.
    revert Hk. unfold counter_keys. not_in_keys.
  - eexists [_]. split; [ reflexivity | ]. now repeat constructor.
Qed.

Lemma uncounted_handle_batch_interrupt (s : State) :
  uncounted s (_handle_batch_interrupt s).
Proof.
  split.
  - intros k Hk. cbn. apply lookup_insert_ne. intros <-.
    revert Hk. unfold counter_keys. not_in_keys.
  - eexists [_]. split; [ reflexivity | ]. now repeat constructor.
Qed.

Lemma uncounted_deliver (sig : signum) (s : State) : uncounted s (deliver sig s).
Proof.
  unfold deliver.
  assert (Hd : uncounted s (record_event (Delivered sig (installed sig s)) s))
    by now apply uncounted_event.
  destruct (installed sig s); [ | | exact Hd ].
  - eapply uncounted_trans; [ exact Hd | apply uncounted_handle_epoch_interrupt ].
  - eapply uncounted_trans; [ exact Hd | apply uncounted_handle_batch_interrupt ].
Qed.

Lemma uncounted_deliver_all (sigs : list signum) (s : State) :
  uncounted s (deliver_all sigs s).
Proof.
  revert s. induction sigs as [ | sig sigs IH ]; intros s; cbn.
  - apply uncounted_refl.
  - eapply uncounted_trans; [ apply (uncounted_deliver sig) | apply IH ].
Qed.

Lemma unc_still {A} (m : Comp A) :
  (forall s r s', m s = (r, s') -> log s' = log s /\ trace s' = trace s) ->
  frame uncounted m.
Proof. intros Hm s r s' E. destruct (Hm _ _ _ E). now apply uncounted_silent. Qed.

Lemma unc_ret {A} (a : A) : frame uncounted (ret a : Comp A).
Proof. apply unc_still. intros s r s' E. now inversion E. Qed.

Lemma unc_raise {A} (e : exn) : frame uncounted (raise e : Comp A).
Proof. apply unc_still. intros s r s' E. now inversion E. Qed.

Lemma unc_out_of_fuel {A} : frame uncounted (out_of_fuel : Comp A).
Proof. apply unc_still. intros s r s' E. now inversion E. Qed.

Lemma unc_gets {A} (f : State -> A) : frame uncounted (gets f : Comp A).
Proof. apply unc_still. intros s r s' E. now inversion E. Qed.

Lemma unc_modify (f : State -> State) :
  (forall s, uncounted s (f s)) -> frame uncounted (modify f).
Proof. intros Hf s r s' E. inversion E; subst. apply Hf. Qed.

Lemma unc_status_item (k : string) : frame uncounted (status_item k).
Proof.
  apply unc_still. intros s r s' E. unfold status_item in E.
  destruct (status (log s) !! k); now inversion E.
Qed.

Lemma unc_logger (level msg : string) : frame uncounted (logger level msg).
Proof. apply unc_modify. intros s. now apply uncounted_event. Qed.

Lemma unc_bind {A B} (m : Comp A) (f : A -> Comp B) :
  frame uncounted m -> (forall a, frame uncounted (f a)) ->
  frame uncounted (bind m f).
Proof. apply frame_bind, uncounted_trans. Qed.

Lemma unc_try_except {A} (m : Comp A) (h : exn -> option (Comp A)) :
  frame uncounted m -> (forall e k, h e = Some k -> frame uncounted k) ->
  frame uncounted (try_except m h).
Proof. apply frame_try_except, uncounted_trans. Qed.

Lemma unc_try_finally {A} (m : Comp A) (fin : Comp unit) :
  frame uncounted m -> frame uncounted fin -> frame uncounted (try_finally m fin).
Proof. apply frame_try_finally, uncounted_trans. Qed.

Lemma unc_timer_exit (elapsed : Q) : frame uncounted (timer_exit elapsed).
Proof.
  apply unc_still. intros s r s' E. unfold timer_exit in E.
  destruct (Timer.exit _ (timer s)). now inversion E.
Qed.

Lemma unc_TimeIt {A} (name : string) (body : Comp A) :
  frame uncounted body -> frame uncounted (TimeIt name body).
Proof.
  intros Hb. unfold TimeIt.
  apply unc_bind; [ now apply unc_still; intros s r s' E; inversion E | intros _ ].
  apply unc_bind; [ now apply unc_still; intros s r s' E; inversion E | intros start ].
  apply unc_try_finally; [ exact Hb | ].
  apply unc_bind; [ now apply unc_still; intros s r s' E; inversion E | intros now ].
  apply unc_timer_exit.
Qed.

Lemma unc_check_finish_training (level : string) :
  frame uncounted (_check_finish_training level).
Proof.
  intros s r s' E. unfold _check_finish_training in E.
  destruct (_ || _); [ inversion E; subst; now apply uncounted_event | ].
  destruct (_ && _); inversion E; subst;
    [ now apply uncounted_event | apply uncounted_refl ].
Qed.

Create HintDb unc discriminated.
#[local] Hint Resolve unc_ret unc_raise unc_out_of_fuel unc_gets unc_status_item
  unc_logger unc_bind unc_try_except unc_try_finally unc_TimeIt
  unc_check_finish_training : unc.

Lemma tracks_refl (s : State) : tracks s s.
Proof.
  intros i e l Hi He Hl. exists [], []. rewrite !app_nil_r.
  unfold processed, completed. cbn. rewrite !Z.add_0_r. auto.
Qed.

Lemma tracks_trans (s1 s2 s3 : State) : tracks s1 s2 -> tracks s2 s3 -> tracks s1 s3.
Proof.
  intros H12 H23 i e l Hi He Hl.
  destruct (H12 i e l Hi He Hl) as (t1 & l1 & E1 & Hi1 & He1 & Hl1 & Hn1).
  destruct (H23 _ _ _ Hi1 He1 Hl1) as (t2 & l2 & E2 & Hi2 & He2 & Hl2 & Hn2).
  exists (t1 ++ t2), (l1 ++ l2).
  rewrite processed_app, completed_app, length_app.
  rewrite E2, E1, Hi2, He2, Hl2, <- !app_assoc.
  repeat split; try reflexivity; try (do 2 f_equal; lia); lia.
Qed.

Lemma uncounted_tracks (s s' : State) : uncounted s s' -> tracks s s'.
Proof.
  intros (Hlog & tl & Et & Hf) i e l Hi He Hl.
  destruct (uncounted_counts tl Hf) as [Hp Hc].
  exists tl, []. rewrite Hp, Hc, app_nil_r, !Z.add_0_r.
  repeat split; try assumption.
  - rewrite (Hlog "iterations_done"); [ exact Hi | unfold counter_keys; set_solver ].
  - rewrite (Hlog "epochs_done"); [ exact He | unfold counter_keys; set_solver ].
  - rewrite (Hlog "_epoch_ends"); [ exact Hl | unfold counter_keys; set_solver ].
Qed.

Lemma tracks_of_uncounted {A} (m : Comp A) : frame uncounted m -> frame tracks m.
Proof. intros Hm s r s' E. apply uncounted_tracks, (Hm _ _ _ E). Qed.

Lemma tracks_bind {A B} (m : Comp A) (f : A -> Comp B) :
  frame tracks m -> (forall a, frame tracks (f a)) -> frame tracks (bind m f).
Proof. apply frame_bind, tracks_trans. Qed.

(** A unit [bind m f] followed by [g]. *)
Lemma tracks_bind_unit {A B C} (m : Comp A) (f : A -> Comp B) (g : B -> Comp C) :
  frame tracks (bind m f) -> (forall b, frame tracks (g b)) ->
  frame tracks (bind m (fun a => bind (f a) g)).
Proof.
  intros Hu Hg s r s' E.
  assert (E' : bind (bind m f) g s = (r, s')).
  { rewrite <- E. unfold bind. destruct (m s) as [[a | e | ] s1]; reflexivity. }
  apply (tracks_bind _ _ Hu Hg _ _ _ E').
Qed.

Section Counting.

Hypothesis counters_respected : all_respect (same_status_on counter_keys).

Lemma reply_uncounted {A} (f : collaborator World A) (s : State) :
  respects (same_status_on counter_keys) f ->
  uncounted s
    (deliver_all (signals (f (world s) (log s)))
       (with_log (log_after (f (world s) (log s)))
          (with_world (world_after (f (world s) (log s))) s))).
Proof.
  intros Hf. eapply uncounted_trans; [ | apply uncounted_deliver_all ].
  split; [ apply Hf | ].
  exists []. rewrite app_nil_r. split; [ reflexivity | constructor ].
Qed.

Lemma unc_invoke {A} (c : call) (f : collaborator World A) :
  respects (same_status_on counter_keys) f ->
  (forall r, is_processed (Called c r) = false) ->
  frame uncounted (invoke c f).
Proof.
  intros Hf Hc s r s' E. unfold invoke in E.
  pose proof (reply_uncounted f s Hf) as Hu.
  destruct (outcome (f (world s) (log s))); inversion E; subst.
  - eapply uncounted_trans; [ exact Hu | now apply uncounted_event ].
  - eapply uncounted_trans; [ exact Hu | now apply uncounted_event ].
  - exact Hu.
Qed.

Lemma unc_dispatch_all (exts : list Ext) (name : string) (payload : option Batch) :
  frame uncounted (dispatch_all exts name payload).
Proof.
  destruct counters_respected as (_ & _ & _ & _ & Hd).
  induction exts as [ | e rest IH ]; cbn [dispatch_all]; auto with unc.
  apply unc_bind; [ | intros _; exact IH ].
  apply unc_TimeIt, unc_invoke; [ apply Hd | reflexivity ].
Qed.

Lemma unc_run_extensions (name : string) (payload : option Batch) :
  name <> "after_epoch" -> frame uncounted (_run_extensions name payload).
Proof.
  intros Hn. unfold _run_extensions. apply unc_bind.
  - apply unc_modify. intros s. apply uncounted_event; [ reflexivity | ].
    cbn. now apply String.eqb_neq.
  - intros _. apply unc_TimeIt, unc_bind; auto with unc.
    intros exts. apply unc_dispatch_all.
Qed.

Lemma unc_read_data : frame uncounted read_data.
Proof.
  destruct counters_respected as (_ & _ & _ & Hn & _).
  unfold read_data. apply unc_try_except.
  - apply unc_bind; [ | auto with unc ].
    apply unc_TimeIt, unc_invoke; [ exact Hn | reflexivity ].
  - intros e k. destruct (is_StopIteration e); [ | discriminate ].
    intros E. inversion E; subst. apply unc_bind; auto with unc.
    intros v. destruct (negb (truthy v)); auto with unc.
Qed.

Lemma unc_start_epoch : frame uncounted start_epoch.
Proof.
  destruct counters_respected as (_ & _ & Hg & _ & _).
  unfold start_epoch. apply unc_bind; auto with unc.
  intros [ | ]; auto with unc.
  apply unc_bind.
  - apply unc_try_except.
    + apply unc_bind.
      * apply unc_modify. intros s. apply uncounted_set_status.
        unfold counter_keys. not_in_keys.
      * intros _. apply unc_bind; [ | auto with unc ].
        apply unc_invoke; [ exact Hg | reflexivity ].
    + intros e k. destruct (is_StopIteration e); [ | discriminate ].
      intros E. inversion E. auto with unc.
  - intros [ | ]; auto with unc.
    apply unc_bind.
    + apply unc_modify. intros s. apply uncounted_set_status.
      unfold counter_keys. not_in_keys.
    + intros _. apply unc_bind; [ | auto with unc ].
      now apply unc_run_extensions.
Qed.

(** The call of [process_batch] under its timer: up to the call
    nothing is counted; if it returns, the trace gains the event of a
    processed batch. *)
Lemma process_batch_cases (batch : Batch) (s s1 : State) (r : res unit) :
  TimeIt "batch" (invoke (ProcessBatch batch) (algorithm_process_batch batch)) s
    = (r, s1) ->
  exists s0,
    uncounted s s0 /\
    ((r = Val tt /\
      trace s1 = trace s0 ++ [Called (ProcessBatch batch) None] /\
      log s1 = log s0) \/
     (r <> Val tt /\ uncounted s0 s1)).
Proof.
  destruct counters_respected as (_ & Hp & _ & _ & _).
  intros E.
  destruct (TimeIt_inv _ _ _ _ _ (balanced_invoke _ _) E) as (t0 & E0 & Hcase).
  pose proof (reply_uncounted (algorithm_process_batch batch)
                (entered "batch" s) (Hp batch)) as Hu.
  unfold invoke in E0.
  set (s0 := deliver_all _ _) in *.
  exists s0. split.
  { eapply uncounted_trans; [ | exact Hu ]. now apply uncounted_silent. }
  destruct (outcome (algorithm_process_batch batch (world (entered "batch" s))
                       (log (entered "batch" s)))) as [[] | e | ];
    inversion E0; subst r t0; clear E0.
  - left. destruct Hcase as [[Hr _] | (_ & -> & _)]; [ discriminate Hr | ].
    auto.
  - right. split; [ discriminate | ].
    destruct Hcase as [[Hr _] | (_ & -> & _)]; [ discriminate Hr | ].
    apply uncounted_trans
      with (record_event (Called (ProcessBatch batch) (Some e)) s0);
      [ now apply uncounted_event | now apply uncounted_silent ].
  - right. split; [ discriminate | ].
    destruct Hcase as [[_ ->] | (Hr & _)]; [ | now contradiction Hr ].
    apply uncounted_refl.
Qed.

(** The call of [process_batch] and the increment that follows it. *)
Lemma tracks_process_batch (batch : Batch) :
  frame tracks
    (bind (TimeIt "batch"
             (invoke (ProcessBatch batch) (algorithm_process_batch batch)))
          (fun _ => increment_status "iterations_done")).
Proof.
  intros s r s' E.
  destruct (bind_inv _ _ _ _ _ E) as [([] & s1 & E1 & E2) | [(e & E1 & ->) | [E1 ->]]].
  - destruct (process_batch_cases _ _ _ _ E1)
      as (s0 & Hu & [(_ & Et1 & El1) | (Hr & _)]); [ | now contradiction Hr ].
    destruct Hu as (Hlog & tl & Et & Hf).
    destruct (uncounted_counts tl Hf) as [Hpz Hcz].
    intros i e l Hi He Hl.
    assert (Hi1 : status (log s1) !! "iterations_done" = Some (VInt i)).
    { rewrite El1, (Hlog "iterations_done"); [ exact Hi | ].
      unfold counter_keys; set_solver. }
    unfold increment_status, bind, status_item in E2.
    rewrite Hi1 in E2. cbn in E2. inversion E2; subst.
    exists (tl ++ [Called (ProcessBatch batch) None]), [].
    rewrite processed_app, completed_app, Hpz, Hcz, app_nil_r. cbn.
    rewrite Et1, Et, <- app_assoc, El1.
    split; [ reflexivity | ].
    split; [ rewrite lookup_insert_eq; do 2 f_equal; unfold processed; cbn; lia | ].
    split; [ rewrite lookup_insert_ne by discriminate;
             rewrite (Hlog "epochs_done");
             [ rewrite He; do 2 f_equal; unfold completed; cbn; lia
             | unfold counter_keys; set_solver ] | ].
    split; [ rewrite lookup_insert_ne by discriminate;
             rewrite (Hlog "_epoch_ends");
             [ exact Hl | unfold counter_keys; set_solver ] | ].
    unfold completed. cbn. lia.
  - destruct (process_batch_cases _ _ _ _ E1)
      as (s0 & Hu & [(Hr & _) | (_ & Hu')]); [ discriminate Hr | ].
    apply uncounted_tracks. eapply uncounted_trans; eassumption.
  - destruct (process_batch_cases _ _ _ _ E1)
      as (s0 & Hu & [(Hr & _) | (_ & Hu')]); [ discriminate Hr | ].
    apply uncounted_tracks. eapply uncounted_trans; eassumption.
Qed.

(** The bookkeeping at the end of an epoch, up to the [after_epoch]
    phase. *)
Lemma tracks_epoch_end :
  frame tracks
    (bind (increment_status "epochs_done") (fun _ =>
     bind (append_status "_epoch_ends" "iterations_done") (fun _ =>
           _run_extensions "after_epoch" None))).
Proof.
  intros s r s' E i e l Hi He Hl.
  unfold increment_status in E. unfold bind at 1 2, status_item in E.
  rewrite He in E. cbn in E.
  unfold append_status in E. unfold bind at 1 2, status_item in E. cbn in E.
  rewrite lookup_insert_ne in E by discriminate. rewrite Hl in E.
  unfold bind at 1 in E. cbn in E.
  rewrite lookup_insert_ne in E by discriminate. rewrite Hi in E. cbn in E.
  unfold _run_extensions in E. unfold bind at 1, modify in E.
  assert (Hfr : frame uncounted
                  (TimeIt "after_epoch"
                     (bind (gets extensions)
                           (fun exts => dispatch_all exts "after_epoch" None)))).
  { apply unc_TimeIt, unc_bind; auto with unc. intros exts. apply unc_dispatch_all. }
  destruct (Hfr _ _ _ E) as (Hlog & tl & Et & Hf).
  destruct (uncounted_counts tl Hf) as [Hpz Hcz].
  exists (Phase "after_epoch" :: tl), [VInt i].
  change (Phase "after_epoch" :: tl) with ([Phase "after_epoch"] ++ tl).
  rewrite processed_app, completed_app, Hpz, Hcz.
  split; [ rewrite Et; cbn; now rewrite <- app_assoc | ].
  split; [ rewrite (Hlog "iterations_done") by (unfold counter_keys; set_solver);
           cbn; rewrite !lookup_insert_ne by discriminate;
           rewrite Hi; do 2 f_equal; unfold processed; cbn; lia | ].
  split; [ rewrite (Hlog "epochs_done") by (unfold counter_keys; set_solver);
           cbn; rewrite lookup_insert_ne by discriminate;
           rewrite lookup_insert_eq; do 2 f_equal; unfold completed; cbn; lia | ].
  split; [ rewrite (Hlog "_epoch_ends") by (unfold counter_keys; set_solver);
           cbn; now rewrite lookup_insert_eq | ].
  unfold completed. cbn. lia.
Qed.

Lemma tracks_run_iteration : frame tracks _run_iteration.
Proof.
  unfold _run_iteration.
  apply tracks_bind; [ apply tracks_of_uncounted, unc_read_data | ].
  intros [batch | ]; [ | apply tracks_of_uncounted, unc_ret ].
  apply tracks_bind.
  { apply tracks_of_uncounted, unc_modify. intros s.
    apply uncounted_set_status. unfold counter_keys. not_in_keys. }
  intros _. apply tracks_bind.
  { apply tracks_of_uncounted. now apply unc_run_extensions. }
  intros _. apply tracks_bind_unit; [ apply tracks_process_batch | ].
  intros _. apply tracks_of_uncounted.
  apply unc_bind; [ now apply unc_run_extensions | intros _ ].
  auto with unc.
Qed.

Lemma tracks_iterations (fuel : nat) : frame tracks (iterations fuel).
Proof.
  induction fuel as [ | fuel IH ]; cbn [iterations].
  - apply tracks_of_uncounted, unc_out_of_fuel.
  - apply tracks_bind; [ apply tracks_run_iteration | ].
    intros [ | ]; [ exact IH | apply tracks_of_uncounted, unc_ret ].
Qed.

Lemma tracks_TimeIt {A} (name : string) (body : Comp A) :
  frame tracks body -> frame tracks (TimeIt name body).
Proof.
  intros Hb. unfold TimeIt.
  apply tracks_bind;
    [ now apply tracks_of_uncounted, unc_still; intros s r s' E; inversion E | intros _ ].
  apply tracks_bind;
    [ now apply tracks_of_uncounted, unc_still; intros s r s' E; inversion E | intros start ].
  apply frame_try_finally; [ apply tracks_trans | exact Hb | ].
  apply tracks_of_uncounted, unc_bind;
    [ now apply unc_still; intros s r s' E; inversion E | intros now ].
  apply unc_timer_exit.
Qed.

Lemma tracks_run_epoch (fuel : nat) : frame tracks (_run_epoch fuel).
Proof.
  unfold _run_epoch.
  apply tracks_bind; [ apply tracks_of_uncounted, unc_start_epoch | ].
  intros [ | ]; [ | apply tracks_of_uncounted, unc_ret ].
  apply tracks_bind; [ apply tracks_TimeIt, tracks_iterations | intros _ ].
  apply tracks_bind.
  { apply tracks_of_uncounted, unc_modify. intros s.
    apply uncounted_set_status. unfold counter_keys. not_in_keys. }
  intros _.
  assert (Hend : frame tracks
    (bind (bind (increment_status "epochs_done") (fun _ =>
           bind (append_status "_epoch_ends" "iterations_done") (fun _ =>
                 _run_extensions "after_epoch" None)))
          (fun _ => bind (_check_finish_training "epoch") (fun _ => ret true)))).
  { apply tracks_bind; [ apply tracks_epoch_end | intros _ ].
    apply tracks_of_uncounted. auto with unc. }
  intros s r s' E. apply (Hend s r s'). rewrite <- E.
  unfold bind. destruct (increment_status "epochs_done" s) as [[[] | e | ] s1];
    try reflexivity.
  destruct (append_status "_epoch_ends" "iterations_done" s1) as [[[] | e | ] s2];
    reflexivity.
Qed.

Lemma tracks_epochs (inner fuel : nat) : frame tracks (epochs inner fuel).
Proof.
  induction fuel as [ | fuel IH ]; cbn [epochs].
  - apply tracks_of_uncounted, unc_out_of_fuel.
  - apply tracks_bind; [ apply tracks_run_epoch | ].
    intros [ | ]; [ exact IH | apply tracks_of_uncounted, unc_ret ].
Qed.

Lemma tracks_run_try (fuel : nat) : frame tracks (run_try fuel).
Proof.
  destruct counters_respected as (Hi & _ & _ & _ & _).
  unfold run_try.
  apply tracks_bind; [ apply tracks_of_uncounted, unc_logger | intros _ ].
  apply tracks_bind; [ apply tracks_of_uncounted, unc_status_item | intros started ].
  apply tracks_bind.
  { apply tracks_of_uncounted.
    destruct (negb (truthy started)); auto with unc.
    apply unc_bind; [ now apply unc_run_extensions | intros _ ].
    apply unc_bind.
    - apply unc_TimeIt, unc_invoke; [ exact Hi | reflexivity ].
    - intros _. apply unc_modify. intros s.
      apply uncounted_set_status. unfold counter_keys. not_in_keys. }
  intros _.
  apply tracks_bind; [ apply tracks_of_uncounted, unc_status_item | intros done ].
  apply tracks_bind.
  { apply tracks_of_uncounted.
    destruct (positive done); auto with unc.
    apply unc_bind; [ now apply unc_run_extensions | intros _ ].
    apply unc_bind.
    - apply unc_modify. intros s.
      apply uncounted_set_status. unfold counter_keys. not_in_keys.
    - intros _. apply unc_modify. intros s.
      apply uncounted_set_status. unfold counter_keys. not_in_keys. }
  intros _. apply tracks_TimeIt, tracks_epochs.
Qed.

Lemma unc_restore_signal_handlers : frame uncounted (modify _restore_signal_handlers).
Proof. apply unc_modify. intros s. now apply uncounted_silent. Qed.

Lemma unc_on_exception (e : exn) : frame uncounted (on_exception e).
Proof.
  unfold on_exception.
  apply unc_bind; [ apply unc_restore_signal_handlers | intros _ ].
  apply unc_bind; [ apply unc_modify; intros s; apply uncounted_set_row | intros _ ].
  apply unc_bind; [ apply unc_logger | intros _ ].
  apply unc_bind; [ | auto with unc ].
  apply unc_try_except; [ now apply unc_run_extensions | ].
  intros e' k. destruct (is_Exception e'); [ | discriminate ].
  intros E. inversion E. auto with unc.
Qed.

Lemma unc_run_handlers (e : exn) (k : Comp unit) :
  run_handlers e = Some k -> frame uncounted k.
Proof.
  unfold run_handlers. destruct (is_TrainingFinish e).
  - intros E. inversion E. apply unc_modify. intros s. apply uncounted_set_row.
  - destruct (is_Exception e); [ | discriminate ].
    intros E. inversion E. apply unc_on_exception.
Qed.

Lemma unc_run_finally : frame uncounted run_finally.
Proof.
  unfold run_finally. apply unc_bind; auto with unc. intros finished.
  apply unc_bind.
  { destruct finished; auto with unc. now apply unc_run_extensions. }
  intros _. apply unc_bind.
  - destruct profile; auto with unc.
    apply unc_still. intros s r s' E. unfold timer_report in E.
    destruct (Timer.report (timer s)). now inversion E.
  - intros _. apply unc_restore_signal_handlers.
Qed.

Lemma tracks_run (fuel : nat) : frame tracks (run fuel).
Proof.
  unfold run.
  apply tracks_bind.
  { apply tracks_of_uncounted. unfold sanity_check.
    apply unc_bind; auto with unc. intros w.
    destruct (model_and_minimizer w); auto with unc.
    apply unc_bind.
    - destruct (same_objective w); auto with unc.
    - intros _. destruct (same_params w); auto with unc. }
  intros _. apply tracks_bind.
  { apply tracks_of_uncounted, unc_still. intros s r s' E. now inversion E. }
  intros _. apply frame_try_finally; [ apply tracks_trans | | ].
  - apply frame_try_except; [ apply tracks_trans | apply tracks_run_try | ].
    intros e k Hk. apply tracks_of_uncounted. now apply (unc_run_handlers e).
  - apply tracks_of_uncounted, unc_run_finally.
Qed.

End Counting.

(** ** The paths of the timer *)

Lemma get_insert (m : gmap Timer.key Q) (c k : Timer.key) (v : Q) :
  Timer.get (<[c := v]> m) k = if decide (c = k) then v else Timer.get m k.
Proof.
  unfold Timer.get. destruct (decide (c = k)) as [-> | Hne].
  - now rewrite lookup_insert_eq.
  - now rewrite lookup_insert_ne.
Qed.

Lemma is_child_snoc (c : Timer.key) (x : string) : is_child c (c ++ [x]) = true.
Proof.
  unfold is_child. rewrite length_app, Nat.add_1_r, Nat.eqb_refl. cbn.
  apply bool_decide_eq_true. apply take_app_length.
Qed.

Lemma is_child_irrefl (p : Timer.key) : is_child p p = false.
Proof.
  unfold is_child. destruct (Nat.eqb_spec (length p) (S (length p))); [ lia | reflexivity ].
Qed.

(** *** enter *)

Lemma ordered_add_in (k : Timer.key) (ord : list Timer.key) :
  k ∈ Timer.ordered_add k ord.
Proof.
  unfold Timer.ordered_add. destruct (decide (k ∈ ord)); [ assumption | ].
  apply elem_of_app. right. now apply list_elem_of_singleton.
Qed.

Lemma ordered_add_grows (k k' : Timer.key) (ord : list Timer.key) :
  k' ∈ ord -> k' ∈ Timer.ordered_add k ord.
Proof.
  intros Hk. unfold Timer.ordered_add. destruct (decide (k ∈ ord)); [ assumption | ].
  apply elem_of_app. now left.
Qed.

Lemma ordered_add_inv (k k' : Timer.key) (ord : list Timer.key) :
  k' ∈ Timer.ordered_add k ord -> k' = k \/ k' ∈ ord.
Proof.
  unfold Timer.ordered_add. destruct (decide (k ∈ ord)); [ now right | ].
  intros Hk. apply elem_of_app in Hk as [Hk | Hk]; [ now right | ].
  apply list_elem_of_singleton in Hk. now left.
Qed.

Lemma enter_tidy (name : string) (tm : Timer.t) :
  tidy tm -> tidy (Timer.enter name tm).
Proof.
  intros Ht. constructor; cbn.
  - unfold Timer.ordered_add. case_decide as Hout.
    + apply (tidy_nodup tm Ht).
    + apply NoDup_app. split; [ apply (tidy_nodup tm Ht) | ].
      split; [ | apply NoDup_singleton ].
      intros k Hk Hk'. apply list_elem_of_singleton in Hk'. now subst.
  - intros Hin. apply ordered_add_inv in Hin as [Hin | Hin].
    + now destruct (Timer.current tm).
    + now apply (tidy_nonempty tm Ht).
  - intros k Hk. apply (tidy_seen tm Ht). intros Hin. apply Hk.
    now apply ordered_add_grows.
  - intros k x Hin Hne. apply ordered_add_inv in Hin as [Hin | Hin].
    + apply app_inj_tail in Hin as [-> _].
      apply ordered_add_grows, (tidy_current tm Ht), Hne.
    + apply ordered_add_grows. now apply (tidy_prefix tm Ht k x).
  - intros _. apply ordered_add_in.
  - apply (tidy_nonneg tm Ht).
Qed.

(** *** exit *)

Section Exit.

Variable tm : Timer.t.
Variable c : list string.
Variable x : string.
Variable elapsed : Q.
Hypothesis tm_tidy : tidy tm.
Hypothesis tm_current : Timer.current tm = c ++ [x].
Hypothesis elapsed_nonneg : (0 <= elapsed)%Q.

Let tm' : Timer.t := snd (Timer.exit elapsed tm).

Lemma exit_fields :
  Timer.total tm' =
    <[c ++ [x] := (Timer.get (Timer.total tm) (c ++ [x]) + elapsed)%Q]> (Timer.total tm) /\
  Timer.current tm' = c /\
  Timer.order tm' = Timer.order tm.
Proof.
  unfold tm'. rewrite (timer_exit_snoc _ _ _ _ tm_current). cbn. auto.
Qed.

Lemma exit_top_seen : c ++ [x] ∈ Timer.order tm.
Proof.
  rewrite <- tm_current. apply (tidy_current tm tm_tidy).
  rewrite tm_current. now destruct c.
Qed.

Lemma exit_tidy : tidy tm'.
Proof.
  destruct exit_fields as (Etot & Ecur & Eord).
  constructor; rewrite ?Etot, ?Ecur, ?Eord.
  - apply (tidy_nodup tm tm_tidy).
  - apply (tidy_nonempty tm tm_tidy).
  - intros k Hk. rewrite lookup_insert_ne.
    + now apply (tidy_seen tm tm_tidy).
    + intros <-. apply Hk, exit_top_seen.
  - apply (tidy_prefix tm tm_tidy).
  - intros Hne. apply (tidy_prefix tm tm_tidy c x exit_top_seen Hne).
  - intros k. rewrite get_insert. pose proof (tidy_nonneg tm tm_tidy) as Hn.
    case_decide; [ | apply Hn ].
    specialize (Hn (c ++ [x])). lra.
Qed.

End Exit.

(** *** init *)

Lemma tidy_init : tidy Timer.init.
Proof.
  split; cbn.
  - constructor.
  - apply not_elem_of_nil.
  - intros k _. apply lookup_empty.
  - intros k x Hk. now apply elem_of_nil in Hk.
  - intros Hc. now contradiction Hc.
  - intros k. unfold Timer.get. rewrite lookup_empty. cbn. lra.
Qed.

(** ** The report comes to an end *)

(** The children selected for a key that gets a line are fewer than the
    keys they are selected from: that key is not among them. *)
Lemma children_of_length (level : nat) (ky : Timer.key) (keys cs : list Timer.key) :
  Timer.children_of level ky keys = Some cs ->
  (length cs <= length keys)%nat /\
  ((exists k, k ∈ keys /\ (level + 1 <? length k)%nat = false) ->
   (length cs < length keys)%nat).
Proof.
  revert cs. induction keys as [ | k keys IH ]; intros cs E;
    cbn [Timer.children_of] in E.
  - inversion E; subst. split; [ reflexivity | ].
    intros (k & Hk & _). now apply elem_of_nil in Hk.
  - destruct (Timer.same_at level k ky) as [b | ]; [ | discriminate E ].
    destruct (Timer.children_of level ky keys) as [cs0 | ]; [ | discriminate E ].
    destruct (IH cs0 eq_refl) as [Hle Hlt]. inversion E; subst cs. clear E.
    destruct (level + 1 <? length k)%nat eqn:El.
    + rewrite andb_true_r. split.
      * destruct b; cbn; lia.
      * intros (k' & Hk' & El'). apply elem_of_cons in Hk' as [-> | Hk'].
        -- rewrite El in El'. discriminate El'.
        -- assert (length cs0 < length keys)%nat by (apply Hlt; eauto).
           destruct b; cbn; lia.
    + rewrite andb_false_r. cbn. split; [ lia | intros _; lia ].
Qed.

Lemma report_loop_ends (m : gmap Timer.key Q) (grand : Q)
    (rec : list Timer.key -> nat -> res Q * list Timer.printed)
    (keys : list Timer.key) (level : nat) :
  (forall cs, (length cs < length keys)%nat ->
              report_outcome (fst (rec cs (S level)))) ->
  forall (ks : list Timer.key) (subtotal : Q),
    (forall k, k ∈ ks -> k ∈ keys) ->
    report_outcome (fst (Timer.report_loop m grand rec keys level ks subtotal)).
Proof.
  intros Hrec ks. induction ks as [ | ky ks IH ]; intros subtotal Hin;
    cbn [Timer.report_loop].
  - exact I.
  - assert (Hky : ky ∈ keys) by (apply Hin, elem_of_cons; now left).
    assert (Hks : forall k, k ∈ ks -> k ∈ keys)
      by (intros k Hk; apply Hin, elem_of_cons; now right).
    unfold Timer.report_key.
    destruct (level + 1 <? length ky)%nat eqn:El.
    { specialize (IH subtotal Hks).
      destruct (Timer.report_loop m grand rec keys level ks subtotal). exact IH. }
    destruct (last ky) as [name | ]; [ | cbn; now left ].
    destruct (Timer.capitalize _) as [section | ]; [ | cbn; now left ].
    destruct (Timer.divide _ grand) as [share | ]; [ | cbn; now right ].
    destruct (Timer.children_of level ky keys) as [cs | ] eqn:Ec;
      [ | cbn; now left ].
    assert (Hlt : (length cs < length keys)%nat).
    { apply (children_of_length _ _ _ _ Ec). eauto. }
    specialize (Hrec cs Hlt).
    destruct (rec cs (S level)) as [[child_total | e | ] out];
      [ | exact Hrec | now contradiction Hrec ].
    destruct cs as [ | c cs ].
    + specialize (IH (subtotal + Timer.get m ky)%Q Hks).
      destruct (Timer.report_loop m grand rec keys level ks _). exact IH.
    + destruct (Timer.divide _ grand) as [oshare | ]; [ | cbn; now right ].
      specialize (IH (subtotal + Timer.get m ky)%Q Hks).
      destruct (Timer.report_loop m grand rec keys level ks _). exact IH.
Qed.

Lemma print_report_fuel (m : gmap Timer.key Q) (grand : Q) (fuel : nat) :
  forall (keys : list Timer.key) (level : nat),
    (length keys < fuel)%nat ->
    report_outcome (fst (Timer.print_report m grand fuel keys level)).
Proof.
  induction fuel as [ | fuel IH ]; intros keys level Hlen; [ lia | ].
  cbn [Timer.print_report]. apply report_loop_ends; [ | auto ].
  intros cs Hcs. apply IH. lia.
Qed.

Lemma report_outcome_holds (tm : Timer.t) :
  report_outcome (fst (Timer.report tm)).
Proof.
  unfold Timer.report.
  pose proof (print_report_fuel (Timer.total tm)
                (Timer.top_level_total (Timer.total tm))
                (S (length (Timer.order tm))) (Timer.order tm) 0 ltac:(lia)) as Hp.
  destruct (Timer.print_report _ _ _ _ _) as [[q | e | ] out]; exact Hp.
Qed.

(** X2.  [Timer.report] always comes to an end, whatever the timer
    holds: every nested call of [print_report] receives fewer keys than
    its caller, because the key whose line is being printed is not among
    its own children.  It returns, or it raises [IndexError] or
    [ZeroDivisionError], and nothing else. *)
Theorem report_ends (tm : Timer.t) :
  fst (Timer.report tm) <> Timeout /\
  forall e, fst (Timer.report tm) = Raise e ->
            e = IndexError \/ e = ZeroDivisionError.
Proof.
  unfold Timer.report.
  pose proof (print_report_fuel (Timer.total tm)
                (Timer.top_level_total (Timer.total tm))
                (S (length (Timer.order tm))) (Timer.order tm) 0 ltac:(lia)) as Hp.
  destruct (Timer.print_report _ _ _ _ _) as [[q | e | ] out]; cbn in *.
  - split; [ discriminate | intros e E; discriminate E ].
  - split; [ discriminate | intros e' E; now inversion E; subst ].
  - now contradiction Hp.
Qed.

(** ** What the report prints *)

Lemma below_snoc (pre : Timer.key) (x : string) (k : Timer.key) :
  below (pre ++ [x]) k =
    below pre k && bool_decide (k !! length pre = Some x)
    && (length pre + 1 <? length k)%nat.
Proof.
  apply Bool.eq_iff_eq_true. unfold below.
  rewrite !andb_true_iff, !bool_decide_eq_true, !Nat.ltb_lt, length_app.
  cbn [length]. split.
  - intros [Hl Ht].
    assert (Hx : k !! length pre = Some x).
    { pose proof (lookup_take_lt k (length pre + 1) (length pre) ltac:(lia)) as E.
      rewrite Ht in E. etransitivity; [ symmetry; exact E | ].
      now apply list_lookup_middle. }
    split; [ split; [ split; [ lia | ] | exact Hx ] | exact Hl ].
    transitivity (take (length pre) (take (length pre + 1) k)).
    + rewrite take_take. f_equal. lia.
    + rewrite Ht. apply take_app_length.
  - intros [[[Hl Ht] Hx] Hl2]. split; [ exact Hl2 | ].
    rewrite Nat.add_1_r, (take_S_r _ _ _ Hx). now rewrite Ht.
Qed.

Lemma elem_of_under (pre : Timer.key) (ord : list Timer.key) (k : Timer.key) :
  k ∈ under pre ord <-> k ∈ ord /\ below pre k = true.
Proof. unfold under. rewrite !list_elem_of_In. apply filter_In. Qed.

Lemma under_nil (ord : list Timer.key) : [] ∉ ord -> under [] ord = ord.
Proof.
  induction ord as [ | k ord IH ]; intros Hn; [ reflexivity | ].
  apply not_elem_of_cons in Hn as [Hk Hn]. unfold under in *. cbn [List.filter].
  rewrite (IH Hn). destruct k as [ | a k ]; [ now contradiction Hk | reflexivity ].
Qed.

Lemma below_snoc_self (pre : Timer.key) (x : string) :
  below pre (pre ++ [x]) = true /\ below (pre ++ [x]) (pre ++ [x]) = false.
Proof.
  unfold below. split.
  - apply andb_true_iff. split.
    + apply Nat.ltb_lt. rewrite length_app. cbn. lia.
    + apply bool_decide_eq_true. apply take_app_length.
  - apply andb_false_iff. left. apply Nat.ltb_irrefl.
Qed.

(** A path just below [pre] is [pre] with one more name. *)
Lemma below_direct (pre k : Timer.key) :
  below pre k = true -> (length pre + 1 <? length k)%nat = false ->
  exists x, k = pre ++ [x].
Proof.
  unfold below. intros Hb Hl.
  apply andb_true_iff in Hb as [Hlt Ht].
  apply Nat.ltb_lt in Hlt. apply Nat.ltb_ge in Hl.
  apply bool_decide_eq_true in Ht.
  destruct (drop (length pre) k) as [ | x [ | y rest ] ] eqn:Ed.
  - apply (f_equal length) in Ed. rewrite length_drop in Ed. cbn in Ed. lia.
  - exists x. rewrite <- (take_drop (length pre) k) at 1. now rewrite Ht, Ed.
  - apply (f_equal length) in Ed. rewrite length_drop in Ed. cbn in Ed. lia.
Qed.

Lemma is_child_below (pre k : Timer.key) :
  is_child pre k = true -> below pre k = true.
Proof.
  unfold is_child, below. intros Hc.
  apply andb_true_iff in Hc as [Hl Ht]. apply Nat.eqb_eq in Hl.
  apply andb_true_iff. split; [ apply Nat.ltb_lt; lia | exact Ht ].
Qed.

Lemma is_child_deeper (pre k : Timer.key) :
  (length pre + 1 <? length k)%nat = true -> is_child pre k = false.
Proof.
  intros Hl. apply Nat.ltb_lt in Hl. unfold is_child.
  apply andb_false_iff. left. apply Nat.eqb_neq. lia.
Qed.

Lemma children_sum_under (m : gmap Timer.key Q) (pre : Timer.key)
    (ord : list Timer.key) (sub : Q) :
  children_sum m (under pre ord) pre sub = children_sum m ord pre sub.
Proof.
  revert sub. induction ord as [ | k ord IH ]; intros sub; [ reflexivity | ].
  unfold under in *. cbn [List.filter children_sum].
  destruct (below pre k) eqn:Eb.
  - cbn [children_sum]. apply IH.
  - destruct (is_child pre k) eqn:Ec.
    + apply is_child_below in Ec. congruence.
    + apply IH.
Qed.

(** The children that [print_report] selects under a key it prints. *)
Lemma children_of_under (pre : Timer.key) (x : string) (ord : list Timer.key) :
  Timer.children_of (length pre) (pre ++ [x]) (under pre ord)
    = Some (under (pre ++ [x]) ord).
Proof.
  induction ord as [ | k ord IH ]; [ reflexivity | ].
  unfold under in *. cbn [List.filter]. rewrite below_snoc.
  destruct (below pre k) eqn:Eb; [ | exact IH ].
  cbn [Timer.children_of andb]. rewrite IH. unfold Timer.same_at, Timer.key.
  rewrite (list_lookup_middle pre [] x (length pre) eq_refl).
  assert (Hlt : (length pre < length k)%nat).
  { unfold below in Eb. apply andb_true_iff in Eb as [Hl _].
    now apply Nat.ltb_lt in Hl. }
  destruct (lookup_lt_is_Some_2 k (length pre) Hlt) as [a Ea]. rewrite Ea.
  f_equal.
  replace (bool_decide (Some a = Some x)) with (bool_decide (a = x))
    by (apply bool_decide_ext; split; congruence).
  reflexivity.
Qed.

Lemma filter_length_mono {A} (f g : A -> bool) (l : list A) :
  (forall a, f a = true -> g a = true) ->
  (length (List.filter f l) <= length (List.filter g l))%nat.
Proof.
  intros Hfg. induction l as [ | a l IH ]; [ reflexivity | ].
  cbn. destruct (f a) eqn:Ef.
  - rewrite (Hfg a Ef). cbn. lia.
  - destruct (g a); cbn; lia.
Qed.

Lemma filter_length_lt {A} (f g : A -> bool) (l : list A) (a : A) :
  (forall a, f a = true -> g a = true) ->
  In a l -> g a = true -> f a = false ->
  (length (List.filter f l) < length (List.filter g l))%nat.
Proof.
  intros Hfg Hin Hg Hf. induction l as [ | b l IH ]; [ contradiction | ].
  pose proof (filter_length_mono f g l Hfg) as Hle.
  cbn. destruct Hin as [-> | Hin].
  - rewrite Hf, Hg. cbn. lia.
  - specialize (IH Hin). destruct (f b) eqn:Ef.
    + rewrite (Hfg b Ef). cbn. lia.
    + destruct (g b); cbn; lia.
Qed.

Lemma under_snoc_shorter (pre : Timer.key) (x : string) (ord : list Timer.key) :
  pre ++ [x] ∈ ord ->
  (length (under (pre ++ [x]) ord) < length (under pre ord))%nat.
Proof.
  intros Hin. destruct (below_snoc_self pre x) as [Hg Hf].
  apply (filter_length_lt _ _ _ (pre ++ [x])); try assumption.
  - intros k Hk. rewrite below_snoc in Hk.
    apply andb_true_iff in Hk as [Hk _]. now apply andb_true_iff in Hk as [Hk _].
  - now apply list_elem_of_In.
Qed.

Section ReportLines.

Variable m : gmap Timer.key Q.
Variable grand : Q.
Variable ord : list Timer.key.

Hypothesis grand_nonzero : Qeq_bool grand 0 = false.
Hypothesis ord_named : forall k, k ∈ ord -> named k = true.
Hypothesis ord_closed :
  forall k x, k ++ [x] ∈ ord -> k <> [] -> k ∈ ord.

(** What a call of [print_report] on the paths below [pre] gives: the
    sum of the direct children's times and, among the lines printed, the
    line of every path below [pre] and the line "Other" of every such
    path that has a child. *)
Let covered (out : list Timer.printed) (k : Timer.key) : Prop :=
  (exists line, line_of m grand k = Some line /\ line ∈ out) /\
  ((exists y, k ++ [y] ∈ ord) -> other_of m grand ord k ∈ out).

Let complete (pre : Timer.key) (r : res Q * list Timer.printed) : Prop :=
  exists sub out,
    r = (Val sub, out) /\
    sub = children_sum m ord pre 0 /\
    forall k, k ∈ under pre ord -> covered out k.

Lemma covered_mono (out out' : list Timer.printed) (k : Timer.key) :
  (forall line, line ∈ out -> line ∈ out') ->
  covered out k -> covered out' k.
Proof.
  intros Hsub [(line & El & Hin) Ho]. split.
  - exists line. auto.
  - intros Hy. auto.
Qed.

Lemma named_snoc (pre : Timer.key) (x : string) :
  named (pre ++ [x]) = true -> exists c n, x = String c n.
Proof.
  unfold named. rewrite last_snoc. destruct x as [ | c n ]; [ discriminate | eauto ].
Qed.

Lemma line_of_snoc (pre : Timer.key) (c : ascii) (n : string) :
  line_of m grand (pre ++ [String c n]) =
    Some (Timer.Row
            (Timer.indent (length pre) +:+
               String (Timer.upper (if Ascii.eqb c "_" then " "%char else c))
                      (Timer.underscores_to_spaces n))
            (Timer.get m (pre ++ [String c n]))
            (Timer.get m (pre ++ [String c n]) / grand)%Q).
Proof.
  unfold line_of. rewrite last_snoc. cbn [Timer.underscores_to_spaces Timer.capitalize].
  rewrite length_app. cbn [length]. now rewrite Nat.add_1_r, Nat.sub_succ, Nat.sub_0_r.
Qed.

(** Every path below [pre] lies at or below a seen path just below
    [pre]. *)
Lemma below_via_child (pre k : Timer.key) :
  k ∈ ord -> below pre k = true ->
  exists x, pre ++ [x] ∈ ord /\ (k = pre ++ [x] \/ below (pre ++ [x]) k = true).
Proof.
  induction k as [ | y k IH ] using rev_ind; intros Hk Hb.
  - unfold below in Hb. apply andb_true_iff in Hb as [Hl _].
    apply Nat.ltb_lt in Hl. cbn in Hl. lia.
  - destruct (length pre + 1 <? length (k ++ [y]))%nat eqn:El.
    + assert (Hbk : below pre k = true).
      { unfold below in *. apply andb_true_iff in Hb as [_ Ht].
        apply bool_decide_eq_true in Ht. apply Nat.ltb_lt in El.
        rewrite length_app in El. cbn in El.
        apply andb_true_iff. split; [ apply Nat.ltb_lt; lia | ].
        apply bool_decide_eq_true. rewrite take_app_le in Ht by lia. exact Ht. }
      assert (Hkn : k <> []).
      { intros ->. unfold below in Hbk. apply andb_true_iff in Hbk as [Hl _].
        apply Nat.ltb_lt in Hl. cbn in Hl. lia. }
      destruct (IH (ord_closed _ _ Hk Hkn) Hbk) as (x & Hx & Hcase).
      exists x. split; [ exact Hx | ]. right.
      rewrite below_snoc, Hb, El. cbn [andb]. rewrite andb_true_r.
      apply bool_decide_eq_true.
      destruct Hcase as [-> | Hbx].
      * unfold Timer.key. rewrite <- app_assoc. cbn [app].
        now apply list_lookup_middle.
      * rewrite below_snoc in Hbx.
        apply andb_true_iff in Hbx as [Hbx _].
        apply andb_true_iff in Hbx as [_ Hbx].
        apply bool_decide_eq_true in Hbx. unfold Timer.key in *.
        apply lookup_app_l_Some. exact Hbx.
    + destruct (below_direct _ _ Hb El) as [x Ex]. exists x.
      rewrite <- Ex. split; [ exact Hk | now left ].
Qed.

Lemma report_loop_lines
    (rec : list Timer.key -> nat -> res Q * list Timer.printed)
    (pre : Timer.key) :
  (forall x, pre ++ [x] ∈ ord ->
             complete (pre ++ [x]) (rec (under (pre ++ [x]) ord) (S (length pre)))) ->
  forall (ks : list Timer.key) (sub0 : Q),
    (forall k, k ∈ ks -> k ∈ under pre ord) ->
    exists sub out,
      Timer.report_loop m grand rec (under pre ord) (length pre) ks sub0
        = (Val sub, out) /\
      sub = children_sum m ks pre sub0 /\
      forall k x, pre ++ [x] ∈ ks ->
                  k ∈ ord ->
                  k = pre ++ [x] \/ below (pre ++ [x]) k = true ->
                  covered out k.
Proof.
  intros Hrec ks. induction ks as [ | ky ks IH ]; intros sub0 Hin.
  - exists sub0, []. cbn [Timer.report_loop children_sum].
    split; [ reflexivity | ]. split; [ reflexivity | ].
    intros k x Hx. now apply elem_of_nil in Hx.
  - assert (Hky : ky ∈ under pre ord) by (apply Hin, elem_of_cons; now left).
    assert (Hks : forall k, k ∈ ks -> k ∈ under pre ord)
      by (intros k Hk; apply Hin, elem_of_cons; now right).
    apply elem_of_under in Hky as [Hko Hkb].
    cbn [Timer.report_loop children_sum]. unfold Timer.report_key.
    destruct (length pre + 1 <? length ky)%nat eqn:El.
    + (* a deeper path: skipped at this level *)
      destruct (IH sub0 Hks) as (sub & out & E & Hs & Hl).
      rewrite E. exists sub, out. rewrite (is_child_deeper _ _ El).
      split; [ reflexivity | ]. split; [ exact Hs | ].
      intros k x Hx Hk Hcase. apply elem_of_cons in Hx as [Ex | Hx].
      * exfalso. rewrite <- Ex, length_app in El. cbn in El.
        apply Nat.ltb_lt in El. lia.
      * now apply (Hl k x).
    + (* a path of this level: its line, its children, its "Other" *)
      destruct (below_direct _ _ Hkb El) as [x ->].
      destruct (named_snoc _ _ (ord_named _ Hko)) as (c & n & ->).
      rewrite last_snoc. cbn [Timer.underscores_to_spaces Timer.capitalize].
      unfold Timer.divide. rewrite grand_nonzero.
      rewrite children_of_under.
      destruct (Hrec _ Hko) as (ct & out1 & Er & Hct & Hl1). rewrite Er.
      rewrite is_child_snoc.
      destruct (IH (sub0 + Timer.get m (pre ++ [String c n]))%Q Hks)
        as (sub & out & E & Hs & Hl).
      pose proof (line_of_snoc pre c n) as Eline.
      set (line := Timer.Row _ (Timer.get m (pre ++ [String c n])) _) in *.
      assert (Hcover : forall out2,
                 ((exists y, (pre ++ [String c n]) ++ [y] ∈ ord) ->
                  other_of m grand ord (pre ++ [String c n]) ∈ out2) ->
                 forall k x,
                   pre ++ [x] ∈ (pre ++ [String c n]) :: ks ->
                   k ∈ ord ->
                   k = pre ++ [x] \/ below (pre ++ [x]) k = true ->
                   covered ((line :: out1 ++ out2) ++ out) k).
      { intros out2 Hother k x Hx Hk Hcase. apply elem_of_cons in Hx as [Ex | Hx].
        - apply app_inv_head in Ex. inversion Ex; subst x.
          destruct Hcase as [-> | Hb].
          + split.
            * exists line. split; [ exact Eline | ].
              apply elem_of_app. left. apply elem_of_cons. now left.
            * intros Hy. apply elem_of_app. left. apply elem_of_cons. right.
              apply elem_of_app. right. now apply Hother.
          + apply covered_mono with (out := out1).
            * intros l Hl1in. apply elem_of_app. left. apply elem_of_cons. right.
              apply elem_of_app. now left.
            * apply Hl1. apply elem_of_under. now split.
        - apply covered_mono with (out := out).
          + intros l Hlin. apply elem_of_app. now right.
          + exact (Hl k x Hx Hk Hcase). }
      destruct (under (pre ++ [String c n]) ord) as [ | c0 cs ] eqn:Eu.
      * rewrite E. exists sub, ((line :: out1) ++ out).
        split; [ reflexivity | ]. split; [ exact Hs | ].
        intros k x Hx Hk Hcase.
        assert (Hnone : (exists y, (pre ++ [String c n]) ++ [y] ∈ ord) ->
                        other_of m grand ord (pre ++ [String c n]) ∈ []).
        { intros [y Hy]. exfalso.
          assert (Hu : (pre ++ [String c n]) ++ [y]
                         ∈ under (pre ++ [String c n]) ord).
          { apply elem_of_under. split; [ exact Hy | apply below_snoc_self ]. }
          rewrite Eu in Hu. now apply elem_of_nil in Hu. }
        pose proof (Hcover [] Hnone k x Hx Hk Hcase) as Hc.
        now rewrite app_nil_r in Hc.
      * rewrite E.
        eexists sub, ((line :: out1 ++ [_]) ++ out).
        split; [ reflexivity | ]. split; [ exact Hs | ].
        intros k x Hx Hk Hcase. refine (Hcover _ _ k x Hx Hk Hcase).
        intros _. apply list_elem_of_singleton.
        unfold other_of. rewrite length_app, Nat.add_1_r. cbn [length].
        now rewrite Hct.
Qed.

Lemma print_report_lines (fuel : nat) :
  forall pre : Timer.key,
    (length (under pre ord) < fuel)%nat ->
    complete pre (Timer.print_report m grand fuel (under pre ord) (length pre)).
Proof.
  induction fuel as [ | fuel IH ]; intros pre Hlen; [ lia | ].
  cbn [Timer.print_report].
  destruct (report_loop_lines (Timer.print_report m grand fuel) pre) with
    (ks := under pre ord) (sub0 := 0%Q) as (sub & out & E & Hs & Hl).
  - intros x Hx.
    replace (S (length pre)) with (length (pre ++ [x]))
      by (rewrite length_app; cbn; lia).
    apply IH. pose proof (under_snoc_shorter pre x ord Hx). lia.
  - auto.
  - exists sub, out. split; [ exact E | ].
    split; [ now rewrite Hs, children_sum_under | ].
    intros k Hk. pose proof Hk as Hk'. apply elem_of_under in Hk' as [Hko Hkb].
    destruct (below_via_child pre k Hko Hkb) as (x & Hx & Hcase).
    apply (Hl k x); try assumption.
    apply elem_of_under. split; [ exact Hx | apply below_snoc_self ].
Qed.

End ReportLines.

(** *** The three outcomes of the report *)

(** A tidy timer that has seen a path has seen a top-level one. *)
Lemma tidy_top (tm : Timer.t) (k : Timer.key) :
  tidy tm -> k ∈ Timer.order tm ->
  exists x, [x] ∈ Timer.order tm.
Proof.
  intros Ht. induction k as [ | x k IH ] using rev_ind; intros Hk.
  - now apply (tidy_nonempty _ Ht) in Hk.
  - destruct k as [ | y k ]; [ now exists x | ].
    apply IH. apply (tidy_prefix _ Ht _ x Hk). discriminate.
Qed.

Lemma report_loop_zero (m : gmap Timer.key Q) (grand : Q)
    (rec : list Timer.key -> nat -> res Q * list Timer.printed)
    (keys : list Timer.key) :
  Qeq_bool grand 0 = true ->
  forall (ks : list Timer.key) (sub0 : Q),
    (forall k, k ∈ ks -> named k = true) ->
    (exists x, [x] ∈ ks) ->
    Timer.report_loop m grand rec keys 0 ks sub0 = (Raise ZeroDivisionError, []).
Proof.
  intros Hz ks. induction ks as [ | ky ks IH ]; intros sub0 Hn (x & Hx).
  - now apply elem_of_nil in Hx.
  - cbn [Timer.report_loop]. unfold Timer.report_key.
    destruct (0 + 1 <? length ky)%nat eqn:El.
    + rewrite IH; [ reflexivity | | ].
      * intros k Hk. apply Hn, elem_of_cons. now right.
      * exists x. apply elem_of_cons in Hx as [<- | Hx]; [ | exact Hx ].
        cbn in El. discriminate El.
    + assert (Hky : named ky = true) by (apply Hn, elem_of_cons; now left).
      unfold named in Hky. destruct (last ky) as [ [ | c n ] | ];
        try discriminate Hky.
      cbn [Timer.underscores_to_spaces Timer.capitalize].
      unfold Timer.divide. rewrite Hz. reflexivity.
Qed.

Lemma report_lines (tm : Timer.t) :
  tidy tm ->
  (forall k, k ∈ Timer.order tm -> named k = true) ->
  Qeq_bool (Timer.top_level_total (Timer.total tm)) 0 = false ->
  exists lines,
    Timer.report tm = (Val tt, Timer.Header :: Timer.Rule :: lines) /\
    (forall k, k ∈ Timer.order tm ->
       exists line,
         line_of (Timer.total tm) (Timer.top_level_total (Timer.total tm)) k
           = Some line /\
         line ∈ lines) /\
    (forall k, k ∈ Timer.order tm ->
       (exists y, k ++ [y] ∈ Timer.order tm) ->
       other_of (Timer.total tm) (Timer.top_level_total (Timer.total tm))
                (Timer.order tm) k ∈ lines).
Proof.
  intros Ht Hn Hz.
  destruct (print_report_lines (Timer.total tm) _ (Timer.order tm) Hz Hn
              (tidy_prefix _ Ht) (S (length (Timer.order tm))) [])
    as (sub & out & E & _ & Hl).
  { rewrite (under_nil _ (tidy_nonempty _ Ht)). lia. }
  rewrite (under_nil _ (tidy_nonempty _ Ht)) in E, Hl. cbn [length] in E.
  exists out. unfold Timer.report. rewrite E.
  split; [ reflexivity | ]. split.
  - intros k Hk. exact (proj1 (Hl k Hk)).
  - intros k Hk Hy. exact (proj2 (Hl k Hk) Hy).
Qed.

(** X3.  The outcomes of [Timer.report] on a timer as nested [TimeIt]
    sections leave it, all sections having a name.  With no section
    seen, the report is the two header lines.  With a section seen but a
    grand total of zero, it raises [ZeroDivisionError] once the header is
    printed.  With a grand total that is not zero it returns, and after
    the header every seen section has its line: indented by its depth,
    named with spaces for underscores and a capital first letter, with
    its accumulated time and that time's share of the grand total. *)
Theorem report_outcomes (tm : Timer.t) :
  tidy tm ->
  (forall k, k ∈ Timer.order tm -> named k = true) ->
  (Timer.order tm = [] ->
     Timer.report tm = (Val tt, [Timer.Header; Timer.Rule])) /\
  (Timer.order tm <> [] ->
   (Timer.top_level_total (Timer.total tm) == 0)%Q ->
     Timer.report tm = (Raise ZeroDivisionError, [Timer.Header; Timer.Rule])) /\
  (~ (Timer.top_level_total (Timer.total tm) == 0)%Q ->
     exists lines,
       Timer.report tm = (Val tt, Timer.Header :: Timer.Rule :: lines) /\
       forall k, k ∈ Timer.order tm ->
         exists line,
           line_of (Timer.total tm) (Timer.top_level_total (Timer.total tm)) k
             = Some line /\
           line ∈ lines).
Proof.
  intros Ht Hn. split; [ | split ].
  - intros E. unfold Timer.report. rewrite E. reflexivity.
  - intros Hne Hz. apply Qeq_bool_iff in Hz.
    destruct (Timer.order tm) as [ | k0 ord ] eqn:Eo; [ now contradiction Hne | ].
    destruct (tidy_top tm k0 Ht) as [x Hx].
    { rewrite Eo. apply elem_of_cons. now left. }
    rewrite <- Eo in Hn. unfold Timer.report. cbn [Timer.print_report].
    rewrite report_loop_zero; [ reflexivity | exact Hz | exact Hn | eauto ].
  - intros Hnz.
    destruct (Qeq_bool (Timer.top_level_total (Timer.total tm)) 0) eqn:Hz.
    { apply Qeq_bool_iff in Hz. now contradiction Hnz. }
    destruct (report_lines tm Ht Hn Hz) as (lines & E & Hl & _).
    exists lines. split; [ exact E | exact Hl ].
Qed.


(** ** Relations kept by every step *)

Section Steps.

Variable R : State -> State -> Prop.
Variable allowed : @event Batch Ext -> Prop.
Hypothesis HR : stepwise R allowed.
Hypothesis Hnoise : noise_allowed allowed.

Lemma steps_still {A} (m : Comp A) :
  (forall s r s', m s = (r, s') -> s' = s) -> frame R m.
Proof. intros Hm s r s' E. rewrite (Hm _ _ _ E). apply (sw_refl _ _ HR). Qed.

Lemma steps_ret {A} (a : A) : frame R (ret a : Comp A).
Proof. apply steps_still. intros s r s' E. now inversion E. Qed.

Lemma steps_raise {A} (e : exn) : frame R (raise e : Comp A).
Proof. apply steps_still. intros s r s' E. now inversion E. Qed.

Lemma steps_out_of_fuel {A} : frame R (out_of_fuel : Comp A).
Proof. apply steps_still. intros s r s' E. now inversion E. Qed.

Lemma steps_gets {A} (f : State -> A) : frame R (gets f : Comp A).
Proof. apply steps_still. intros s r s' E. now inversion E. Qed.

Lemma steps_status_item (k : string) : frame R (status_item k).
Proof.
  apply steps_still. intros s r s' E. unfold status_item in E.
  destruct (status (log s) !! k); now inversion E.
Qed.

Lemma steps_modify (f : State -> State) :
  (forall s, R s (f s)) -> frame R (modify f).
Proof. intros Hf s r s' E. inversion E; subst. apply Hf. Qed.

Lemma steps_set_status (k : string) (v : value) : frame R (modify (set_status k v)).
Proof. apply steps_modify. intros s. apply (sw_log _ _ HR). Qed.

Lemma steps_set_row (k : string) (v : value) : frame R (modify (set_row k v)).
Proof. apply steps_modify. intros s. apply (sw_log _ _ HR). Qed.

Lemma steps_restored (s : State) : R s (_restore_signal_handlers s).
Proof.
  unfold _restore_signal_handlers.
  eapply (sw_trans _ _ HR); apply (sw_install _ _ HR).
Qed.

Lemma steps_logger (level msg : string) : frame R (logger level msg).
Proof.
  apply steps_modify. intros s. apply (sw_event _ _ HR). apply Hnoise.
Qed.

Lemma steps_bind {A B} (m : Comp A) (f : A -> Comp B) :
  frame R m -> (forall a, frame R (f a)) -> frame R (bind m f).
Proof. apply frame_bind, (sw_trans _ _ HR). Qed.

Lemma steps_try_except {A} (m : Comp A) (h : exn -> option (Comp A)) :
  frame R m -> (forall e k, h e = Some k -> frame R k) ->
  frame R (try_except m h).
Proof. apply frame_try_except, (sw_trans _ _ HR). Qed.

Lemma steps_try_finally {A} (m : Comp A) (fin : Comp unit) :
  frame R m -> frame R fin -> frame R (try_finally m fin).
Proof. apply frame_try_finally, (sw_trans _ _ HR). Qed.

Lemma steps_TimeIt {A} (name : string) (body : Comp A) :
  frame R body -> frame R (TimeIt name body).
Proof.
  intros Hb. unfold TimeIt.
  apply steps_bind.
  { apply steps_modify. intros s.
    eapply (sw_trans _ _ HR); [ apply (sw_timer _ _ HR) | apply (sw_timer_call _ _ HR) ]. }
  intros _. apply steps_bind.
  { intros s r s' E. inversion E; subst. apply (sw_ticks _ _ HR). }
  intros start. apply steps_try_finally; [ exact Hb | ].
  apply steps_bind.
  { intros s r s' E. inversion E; subst. apply (sw_ticks _ _ HR). }
  intros now. intros s r s' E. unfold timer_exit in E.
  destruct (Timer.exit _ (timer s)) as [r0 tm]. inversion E; subst.
  eapply (sw_trans _ _ HR); [ apply (sw_timer _ _ HR) | apply (sw_timer_call _ _ HR) ].
Qed.

Lemma steps_deliver (sig : signum) (s : State) : R s (deliver sig s).
Proof.
  destruct Hnoise as (Hlog & Hdel & _). unfold deliver.
  assert (Hd : R s (record_event (Delivered sig (installed sig s)) s))
    by (apply (sw_event _ _ HR), Hdel).
  destruct (installed sig s).
  - eapply (sw_trans _ _ HR); [ exact Hd | ].
    unfold _handle_epoch_interrupt, set_status, set_row.
    eapply (sw_trans _ _ HR); [ | apply (sw_log _ _ HR) ].
    eapply (sw_trans _ _ HR); [ | apply (sw_log _ _ HR) ].
    eapply (sw_trans _ _ HR); [ | apply (sw_install _ _ HR) ].
    apply (sw_event _ _ HR), Hlog.
  - eapply (sw_trans _ _ HR); [ exact Hd | ].
    unfold _handle_batch_interrupt, set_status, set_row.
    eapply (sw_trans _ _ HR); [ | apply (sw_log _ _ HR) ].
    eapply (sw_trans _ _ HR); [ | apply (sw_log _ _ HR) ].
    eapply (sw_trans _ _ HR); [ | apply (sw_event _ _ HR), Hlog ].
    apply steps_restored.
  - exact Hd.
Qed.

Lemma steps_deliver_all (sigs : list signum) (s : State) :
  R s (deliver_all sigs s).
Proof.
  revert s. induction sigs as [ | sig sigs IH ]; intros s; cbn.
  - apply (sw_refl _ _ HR).
  - eapply (sw_trans _ _ HR); [ apply (steps_deliver sig) | apply IH ].
Qed.

Lemma steps_invoke {A} (c : call) (f : collaborator World A) :
  call_allowed allowed c -> frame R (invoke c f).
Proof.
  intros Hc s r s' E. unfold invoke in E.
  assert (Hs : R s (deliver_all (signals (f (world s) (log s)))
                      (with_log (log_after (f (world s) (log s)))
                         (with_world (world_after (f (world s) (log s))) s)))).
  { eapply (sw_trans _ _ HR); [ | apply steps_deliver_all ].
    eapply (sw_trans _ _ HR); [ apply (sw_world _ _ HR) | apply (sw_log _ _ HR) ]. }
  destruct (outcome (f (world s) (log s))); inversion E; subst.
  - eapply (sw_trans _ _ HR); [ exact Hs | apply (sw_event _ _ HR), Hc ].
  - eapply (sw_trans _ _ HR); [ exact Hs | apply (sw_event _ _ HR), Hc ].
  - exact Hs.
Qed.

Create HintDb steps discriminated.
#[local] Hint Resolve steps_ret steps_raise steps_out_of_fuel steps_gets
  steps_status_item steps_logger steps_bind steps_try_except
  steps_try_finally steps_TimeIt steps_set_status steps_set_row : steps.

Lemma steps_dispatch_calls (exts : list Ext) (name : string) (payload : option Batch) :
  (forall e raised, allowed (Called (Dispatch e name payload) raised)) ->
  frame R (dispatch_all exts name payload).
Proof.
  intros Hp.
  induction exts as [ | e rest IH ]; cbn [dispatch_all]; auto with steps.
  apply steps_bind; [ | intros _; exact IH ].
  apply steps_TimeIt, steps_invoke. intros raised. apply Hp.
Qed.

Lemma steps_dispatch_all (exts : list Ext) (name : string) (payload : option Batch) :
  phase_allowed allowed name -> frame R (dispatch_all exts name payload).
Proof.
  intros [_ Hp].
  induction exts as [ | e rest IH ]; cbn [dispatch_all]; auto with steps.
  apply steps_bind; [ | intros _; exact IH ].
  apply steps_TimeIt, steps_invoke. intros raised. apply Hp.
Qed.

Lemma steps_run_extensions (name : string) (payload : option Batch) :
  phase_allowed allowed name -> frame R (_run_extensions name payload).
Proof.
  intros Hp. unfold _run_extensions. apply steps_bind.
  - apply steps_modify. intros s. apply (sw_event _ _ HR), Hp.
  - intros _. apply steps_TimeIt, steps_bind; auto with steps.
    intros exts. now apply steps_dispatch_all.
Qed.

Lemma steps_check_finish_training (level : string) :
  frame R (_check_finish_training level).
Proof.
  destruct Hnoise as (_ & _ & Hfin).
  intros s r s' E. unfold _check_finish_training in E.
  destruct (_ || _);
    [ inversion E; subst; apply (sw_event _ _ HR), Hfin | ].
  destruct (_ && _); inversion E; subst;
    [ apply (sw_event _ _ HR), Hfin | apply (sw_refl _ _ HR) ].
Qed.

Lemma steps_increment_status (k : string) : frame R (increment_status k).
Proof.
  unfold increment_status. apply steps_bind; auto with steps.
  intros v. destruct (plus_one v); auto with steps.
Qed.

Lemma steps_append_status (k k2 : string) : frame R (append_status k k2).
Proof.
  unfold append_status. apply steps_bind; auto with steps.
  intros v. destruct v; auto with steps.
Qed.

#[local] Hint Resolve steps_check_finish_training steps_increment_status
  steps_append_status : steps.

Hypothesis Htraining : training_allowed allowed.

Lemma steps_read_data : frame R read_data.
Proof.
  destruct Htraining as (_ & _ & _ & _ & _ & Hnext & _).
  unfold read_data. apply steps_try_except.
  - apply steps_bind; auto with steps. now apply steps_TimeIt, steps_invoke.
  - intros e k. destruct (is_StopIteration e); [ | discriminate ].
    intros E. inversion E; subst. apply steps_bind; auto with steps.
    intros v. destruct (negb (truthy v)); auto with steps.
Qed.

Lemma steps_run_iteration : frame R _run_iteration.
Proof.
  destruct Htraining as (_ & _ & Hbb & Hab & _ & _ & Hproc).
  unfold _run_iteration. apply steps_bind; [ apply steps_read_data | ].
  intros [b | ]; auto with steps.
  apply steps_bind; [ auto with steps | intros _ ].
  apply steps_bind; [ now apply steps_run_extensions | intros _ ].
  apply steps_bind; [ apply steps_TimeIt, steps_invoke, Hproc | intros _ ].
  apply steps_bind; [ auto with steps | intros _ ].
  apply steps_bind; [ now apply steps_run_extensions | intros _ ].
  auto with steps.
Qed.

Lemma steps_iterations (fuel : nat) : frame R (iterations fuel).
Proof.
  induction fuel as [ | fuel IH ]; cbn [iterations]; auto with steps.
  apply steps_bind; [ apply steps_run_iteration | ].
  intros [ | ]; auto with steps.
Qed.

Lemma steps_start_epoch : frame R start_epoch.
Proof.
  destruct Htraining as (Hbe & _ & _ & _ & Hget & _ & _).
  unfold start_epoch. apply steps_bind; auto with steps.
  intros [ | ]; auto with steps.
  apply steps_bind.
  - apply steps_try_except.
    + apply steps_bind; [ auto with steps | intros _ ].
      apply steps_bind; [ now apply steps_invoke | auto with steps ].
    + intros e k. destruct (is_StopIteration e); [ | discriminate ].
      intros E. inversion E. auto with steps.
  - intros [ | ]; auto with steps.
    apply steps_bind; [ auto with steps | intros _ ].
    apply steps_bind; [ now apply steps_run_extensions | auto with steps ].
Qed.

Lemma steps_run_epoch (fuel : nat) : frame R (_run_epoch fuel).
Proof.
  destruct Htraining as (_ & Hae & _).
  unfold _run_epoch. apply steps_bind; [ apply steps_start_epoch | ].
  intros [ | ]; auto with steps.
  apply steps_bind; [ apply steps_TimeIt, steps_iterations | intros _ ].
  apply steps_bind; [ auto with steps | intros _ ].
  apply steps_bind; [ auto with steps | intros _ ].
  apply steps_bind; [ auto with steps | intros _ ].
  apply steps_bind; [ now apply steps_run_extensions | intros _ ].
  auto with steps.
Qed.

Lemma steps_epochs (inner fuel : nat) : frame R (epochs inner fuel).
Proof.
  induction fuel as [ | fuel IH ]; cbn [epochs]; auto with steps.
  apply steps_bind; [ apply steps_run_epoch | ].
  intros [ | ]; auto with steps.
Qed.

(** The [try] block from the test of [iterations_done] on. *)
Lemma steps_resume_and_train (fuel : nat) :
  phase_allowed allowed "on_resumption" ->
  frame R (bind (status_item "iterations_done") (fun done =>
           bind (if positive done then
                   bind (_run_extensions "on_resumption" None) (fun _ =>
                   bind (modify (set_status "epoch_interrupt_received" (VBool false)))
                        (fun _ =>
                   modify (set_status "batch_interrupt_received" (VBool false))))
                 else ret tt) (fun _ =>
           TimeIt "training" (epochs fuel fuel)))).
Proof.
  intros Hres. apply steps_bind; auto with steps. intros done.
  apply steps_bind.
  { destruct (positive done); auto with steps.
    apply steps_bind; [ now apply steps_run_extensions | auto with steps ]. }
  intros _. apply steps_TimeIt, steps_epochs.
Qed.

Lemma steps_run_try (fuel : nat) :
  phase_allowed allowed "before_training" ->
  call_allowed allowed Initialize ->
  phase_allowed allowed "on_resumption" ->
  frame R (run_try fuel).
Proof.
  intros Hbt Hinit Hres. unfold run_try.
  apply steps_bind; auto with steps. intros _.
  apply steps_bind; auto with steps. intros started.
  apply steps_bind; [ | intros _; now apply steps_resume_and_train ].
  destruct (negb (truthy started)); auto with steps.
  apply steps_bind; [ now apply steps_run_extensions | intros _ ].
  apply steps_bind; [ now apply steps_TimeIt, steps_invoke | auto with steps ].
Qed.

Lemma steps_on_exception (e : exn) :
  phase_allowed allowed "on_error" -> frame R (on_exception e).
Proof.
  intros Herr. unfold on_exception.
  apply steps_bind; [ apply steps_modify, steps_restored | intros _ ].
  apply steps_bind; [ auto with steps | intros _ ].
  apply steps_bind; [ auto with steps | intros _ ].
  apply steps_bind; auto with steps.
  apply steps_try_except; [ now apply steps_run_extensions | ].
  intros e' k. destruct (is_Exception e'); [ | discriminate ].
  intros E. inversion E. auto with steps.
Qed.

Lemma steps_run_handlers (e : exn) (k : Comp unit) :
  phase_allowed allowed "on_error" ->
  run_handlers e = Some k -> frame R k.
Proof.
  intros Herr. unfold run_handlers. destruct (is_TrainingFinish e).
  - intros E. inversion E. auto with steps.
  - destruct (is_Exception e); [ | discriminate ].
    intros E. inversion E. now apply steps_on_exception.
Qed.

Lemma steps_run_finally :
  phase_allowed allowed "after_training" ->
  (profile = true -> forall s out, R s (with_stdout out s)) ->
  frame R run_finally.
Proof.
  intros Hat Hout. unfold run_finally.
  apply steps_bind; auto with steps. intros finished.
  apply steps_bind.
  { destruct finished; auto with steps. now apply steps_run_extensions. }
  intros _. apply steps_bind; [ | intros _; apply steps_modify, steps_restored ].
  destruct profile; auto with steps.
  intros s r s' E. unfold timer_report in E.
  destruct (Timer.report (timer s)) as [r0 out]. inversion E; subst.
  now apply Hout.
Qed.

End Steps.

(** ** The signal dispositions after a run *)

Abbreviation same_originals := (@same_originals World Batch Ext).

Lemma same_originals_stepwise :
  stepwise same_originals (fun _ : @event Batch Ext => True).
Proof.
  split; unfold same_originals; try (intros; split; reflexivity).
  - intros s1 s2 s3 [H1 H2] [H3 H4]. split; congruence.
  - intros s sig h. destruct sig; split; reflexivity.
Qed.

Lemma anything_is_noise : noise_allowed (fun _ : @event Batch Ext => True).
Proof. repeat split. Qed.

Lemma anything_is_training : training_allowed (fun _ : @event Batch Ext => True).
Proof. repeat split. Qed.

Lemma same_originals_try (fuel : nat) :
  frame same_originals (try_except (run_try fuel) run_handlers).
Proof.
  pose proof same_originals_stepwise as HR.
  pose proof anything_is_noise as Hn. pose proof anything_is_training as Ht.
  apply (steps_try_except _ _ HR).
  - apply (steps_run_try _ _ HR Hn Ht); repeat split.
  - intros e k. apply (steps_run_handlers _ _ HR Hn). repeat split.
Qed.

(** A [finally] block that runs to its end has restored the saved
    dispositions. *)
Lemma run_finally_restores (s1 s' : State) :
  run_finally s1 = (Val tt, s') ->
  sigint s' = original_sigint_handler s1 /\
  sigterm s' = original_sigterm_handler s1.
Proof.
  pose proof same_originals_stepwise as HR.
  pose proof anything_is_noise as Hn.
  intros E. unfold run_finally in E.
  destruct (bind_inv _ _ _ _ _ E) as [(fin & sa & Ea & E1) | [(e & _ & Ee) | [_ Ee]]];
    try discriminate Ee.
  unfold gets in Ea. injection Ea as Efin Esa. subst sa fin.
  destruct (bind_inv _ _ _ _ _ E1) as [(u & sb & Eb & E2) | [(e & _ & Ee) | [_ Ee]]];
    try discriminate Ee.
  destruct (bind_inv _ _ _ _ _ E2) as [(u2 & sc & Ec & E3) | [(e & _ & Ee) | [_ Ee]]];
    try discriminate Ee.
  inversion E3; subst s'. clear E3.
  assert (Hb : same_originals s1 sb).
  { destruct (flag (current_row (log s1)) "training_finished").
    - apply (steps_run_extensions _ _ HR Hn "after_training" None
               ltac:(repeat split) _ _ _ Eb).
    - inversion Eb; subst. split; reflexivity. }
  assert (Hc : same_originals sb sc).
  { destruct profile; [ | inversion Ec; subst; split; reflexivity ].
    unfold timer_report in Ec. destruct (Timer.report (timer sb)).
    inversion Ec; subst. split; reflexivity. }
  destruct Hb as [Hb1 Hb2], Hc as [Hc1 Hc2]. cbn. split; congruence.
Qed.

(** X5.  [run] restores the signal dispositions it found.  A run that
    comes to an end has put back, for both signals, what was installed
    when it was called, unless its [finally] block itself failed (an
    [after_training] extension or the report raised): then that error
    is the outcome, and the last restoration was not reached.  In
    particular a run that returns normally has restored both. *)
Theorem run_restores_signal_handlers
    (fuel : nat) (s s' : State) (r : res unit) :
  run fuel s = (r, s') ->
  r <> Timeout ->
  (r = Val tt -> sigint s' = sigint s /\ sigterm s' = sigterm s) /\
  ((sigint s' = sigint s /\ sigterm s' = sigterm s) \/
   exists e,
     r = Raise e /\
     run_finally (snd (try_except (run_try fuel) run_handlers (at_try s)))
       = (Raise e, s')).
Proof.
  intros E Hr. rewrite at_try_run in E.
  assert (Hmain :
    (sigint s' = sigint s /\ sigterm s' = sigterm s) \/
    exists e,
      r = Raise e /\
      run_finally (snd (try_except (run_try fuel) run_handlers (at_try s)))
        = (Raise e, s')).
  { destruct (try_finally_inv _ _ _ _ _ E)
      as [[_ ->] | (r1 & s1 & E1 & Hr1 & [[E2 ->] | [(e & E2 & ->) | [_ ->]]])];
      try (now contradiction Hr).
    - left. destruct (run_finally_restores _ _ E2) as [Hi Ht].
      destruct (same_originals_try fuel _ _ _ E1) as [Ho1 Ho2].
      destruct (at_try_facts s) as (_ & _ & _ & _ & _ & Hai & Hat & _).
      split; congruence.
    - right. exists e. rewrite E1. auto. }
  split; [ | exact Hmain ].
  intros ->. destruct Hmain as [Hres | (e & Ee & _)]; [ exact Hres | discriminate Ee ].
Qed.

(** ** What a run adds to the trace *)

Lemma appends_one (P : @event Batch Ext -> Prop) (e : @event Batch Ext) (s : State) :
  P e -> appends P s (record_event e s).
Proof.
  intros He. exists [e]. split; [ reflexivity | ].
  constructor; [ exact He | constructor ].
Qed.

Lemma appends_stepwise (P : @event Batch Ext -> Prop) :
  stepwise (@appends World Batch Ext P) P.
Proof.
  split; try (intros; now apply appends_same).
  - apply appends_trans.
  - intros s sig h. apply appends_same. now destruct sig.
  - intros s e. apply appends_one.
Qed.

(** The sanity check and the installation of the handlers only log. *)
Lemma at_try_appends (P : @event Batch Ext -> Prop) (s : State) :
  noise_allowed P -> appends P s (at_try s).
Proof.
  intros (Hlog & _ & _). unfold at_try, sanity_check, bind, gets.
  destruct (model_and_minimizer (world s)); cbn;
    repeat match goal with
           | |- context [if ?b then _ else _] => destruct b; cbn
           end;
    eexists;
    (split; [ cbn; rewrite <- ?app_assoc;
              first [ reflexivity | symmetry; apply app_nil_r ]
            | cbn [app]; repeat (constructor; [ apply Hlog | ]); constructor ]).
Qed.

(** The [except Exception] clause always ends by raising. *)
Lemma on_exception_raises (e : exn) (s s' : State) (a : unit) :
  on_exception e s = (Val a, s') -> False.
Proof.
  rewrite on_exception_unfold. intros E.
  destruct (bind_inv _ _ _ _ _ E) as [(u & s1 & _ & E2) | [(e' & _ & Ee) | [_ Ee]]];
    discriminate.
Qed.

Lemma quiet_of_error_handling :
  noise_allowed (fun ev : @event Batch Ext => is_error_handling ev = false) /\
  training_allowed (fun ev : @event Batch Ext => is_error_handling ev = false).
Proof. repeat split. Qed.

(** X6.  A run that returns normally has not run the [on_error]
    extensions: the trace has only grown, and by no event of that
    phase. *)
Theorem normal_return_never_ran_on_error (fuel : nat) (s s' : State) :
  run fuel s = (Val tt, s') ->
  exists tl,
    trace s' = trace s ++ tl /\
    Forall (fun ev => is_error_handling ev = false) tl.
Proof.
  intros E. rewrite at_try_run in E.
  destruct quiet_of_error_handling as [Hn Ht].
  pose proof (appends_stepwise
                (fun ev : @event Batch Ext => is_error_handling ev = false)) as HR.
  destruct (try_finally_inv _ _ _ _ _ E)
    as [[_ Ee] | (r1 & s1 & E1 & Hr1 & [[E2 <-] | [(e & _ & Ee) | [_ Ee]]])];
    try discriminate Ee.
  assert (Htry : frame (appends (fun ev => is_error_handling ev = false))
                   (run_try fuel))
    by (apply (steps_run_try _ _ HR Hn Ht fuel); repeat split).
  apply (appends_trans _ _ _ _ (at_try_appends _ s Hn)).
  apply appends_trans with s1.
  - destruct (try_except_inv _ _ _ _ _ E1) as [(e & s0 & k & Er & Ek & E3) | [Er _]].
    + apply appends_trans with s0; [ exact (Htry _ _ _ Er) | ].
      unfold run_handlers in Ek. destruct (is_TrainingFinish e).
      * inversion Ek; subst k. inversion E3; subst. now apply appends_same.
      * destruct (is_Exception e); [ | discriminate Ek ].
        inversion Ek; subst k. now apply on_exception_raises in E3.
    + exact (Htry _ _ _ Er).
  - assert (Hfin : frame (appends (fun ev => is_error_handling ev = false))
                     run_finally).
    { apply (steps_run_finally _ _ HR Hn); [ repeat split | ].
      intros _ s0 out. now apply appends_same. }
    exact (Hfin _ _ _ E2).
Qed.

Lemma quiet_of_startup :
  noise_allowed (fun ev : @event Batch Ext => is_startup ev = false) /\
  training_allowed (fun ev : @event Batch Ext => is_startup ev = false).
Proof. repeat split. Qed.

(** The [try] block on a loop whose training has started. *)
Lemma run_try_started (fuel : nat) (s : State) (v : value) :
  status (log s) !! "training_started" = Some v ->
  truthy v = true ->
  run_try fuel s =
    bind (status_item "iterations_done") (fun done =>
    bind (if positive done then
            bind (_run_extensions "on_resumption" None) (fun _ =>
            bind (modify (set_status "epoch_interrupt_received" (VBool false)))
                 (fun _ =>
            modify (set_status "batch_interrupt_received" (VBool false))))
          else ret tt) (fun _ =>
    TimeIt "training" (epochs fuel fuel)))
      (record_event (Logged "info" "Entered the main loop") s).
Proof.
  intros Hv Ht. unfold run_try.
  unfold bind at 1, logger, modify.
  unfold bind at 1, status_item at 1. cbn [log record_event with_log].
  rewrite Hv, Ht. reflexivity.
Qed.

(** X7.  On a loop whose status shows [training_started] (or lacks
    the entry, in which case reading it fails), a run never runs the
    [before_training] phase and never initializes the algorithm: the
    trace only grows, and by no event of the start-up. *)
Theorem started_loop_is_not_initialized_again
    (fuel : nat) (s s' : State) (r : res unit) :
  (forall v, status (log s) !! "training_started" = Some v -> truthy v = true) ->
  run fuel s = (r, s') ->
  exists tl,
    trace s' = trace s ++ tl /\
    Forall (fun ev => is_startup ev = false) tl.
Proof.
  intros Hstarted E. rewrite at_try_run in E.
  destruct quiet_of_startup as [Hn Ht].
  pose proof (appends_stepwise
                (fun ev : @event Batch Ext => is_startup ev = false)) as HR.
  apply (appends_trans _ _ _ _ (at_try_appends _ s Hn)).
  assert (Hrun : forall r0 s0, run_try fuel (at_try s) = (r0, s0) ->
                               appends (fun ev => is_startup ev = false)
                                       (at_try s) s0).
  { intros r0 s0 E0.
    destruct (at_try_facts s) as (Hlog & _).
    destruct (status (log s) !! "training_started") as [v | ] eqn:Ev.
    - rewrite (run_try_started fuel (at_try s) v) in E0
        by (rewrite ?Hlog; auto).
      apply appends_trans
        with (record_event (Logged "info" "Entered the main loop") (at_try s));
        [ now apply appends_one | ].
      pose proof (steps_resume_and_train _ _ HR Hn Ht fuel ltac:(repeat split))
        as Hrest.
      exact (Hrest _ _ _ E0).
    - unfold run_try in E0. unfold bind at 1, logger, modify in E0.
      unfold bind at 1, status_item at 1 in E0.
      cbn [log record_event with_log] in E0. rewrite Hlog, Ev in E0.
      inversion E0; subst. apply appends_one. reflexivity. }
  assert (Hhandlers : forall e k, run_handlers e = Some k ->
                        frame (appends (fun ev => is_startup ev = false)) k).
  { intros e k. apply (steps_run_handlers _ _ HR Hn). repeat split. }
  assert (Hfin : frame (appends (fun ev => is_startup ev = false)) run_finally).
  { apply (steps_run_finally _ _ HR Hn); [ repeat split | ].
    intros _ s0 out. now apply appends_same. }
  assert (Htry : forall rT sT,
             try_except (run_try fuel) run_handlers (at_try s) = (rT, sT) ->
             appends (fun ev => is_startup ev = false) (at_try s) sT).
  { intros rT sT ET.
    destruct (try_except_inv _ _ _ _ _ ET) as [(e & s0 & k & Er & Ek & E3) | [Er _]].
    - apply appends_trans with s0; [ exact (Hrun _ _ Er) | ].
      exact (Hhandlers _ _ Ek _ _ _ E3).
    - exact (Hrun _ _ Er). }
  destruct (try_finally_inv _ _ _ _ _ E)
    as [[E1 _] | (r1 & s1 & E1 & _ & [[E2 _] | [(e & E2 & _) | [E2 _]]])].
  - exact (Htry _ _ E1).
  - apply appends_trans with s1; [ exact (Htry _ _ E1) | exact (Hfin _ _ _ E2) ].
  - apply appends_trans with s1; [ exact (Htry _ _ E1) | exact (Hfin _ _ _ E2) ].
  - apply appends_trans with s1; [ exact (Htry _ _ E1) | exact (Hfin _ _ _ E2) ].
Qed.

(** ** The order of the extensions *)

Lemma calls_of_app (a b : list (@event Batch Ext)) :
  calls_of (a ++ b) = calls_of a ++ calls_of b.
Proof. unfold calls_of. apply flat_map_app. Qed.

Lemma calls_of_quiet (tl : list (@event Batch Ext)) :
  Forall (fun ev => is_call ev = false) tl -> calls_of tl = [].
Proof.
  induction 1 as [ | ev tl Hev _ IH ]; [ reflexivity | ].
  unfold calls_of in *. cbn [flat_map]. rewrite IH. now destruct ev.
Qed.

(** What a call of a collaborator adds to the trace: the signals that
    arrived meanwhile, then the call with its outcome. *)
Lemma invoke_calls {A} (c : call) (f : collaborator World A)
    (s s' : State) (r : res A) :
  invoke c f s = (r, s') ->
  exists tl,
    trace s' = trace s ++ tl /\
    calls_of tl = match r with
                  | Val _ => [(c, None)]
                  | Raise e => [(c, Some e)]
                  | Timeout => []
                  end.
Proof.
  intros E. unfold invoke in E.
  pose proof (appends_stepwise
                (fun ev : @event Batch Ext => is_call ev = false)) as HR.
  assert (Hn : noise_allowed (fun ev : @event Batch Ext => is_call ev = false))
    by (repeat split).
  destruct (steps_deliver_all _ _ HR Hn (signals (f (world s) (log s)))
              (with_log (log_after (f (world s) (log s)))
                 (with_world (world_after (f (world s) (log s))) s)))
    as (tl & Etl & Hq).
  cbn [trace with_log with_world] in Etl.
  pose proof (calls_of_quiet _ Hq) as Hc.
  destruct (outcome (f (world s) (log s))); inversion E; subst; cbn [trace record_event].
  - exists (tl ++ [Called c None]). rewrite Etl, app_assoc.
    split; [ reflexivity | ]. now rewrite calls_of_app, Hc.
  - exists (tl ++ [Called c (Some e)]). rewrite Etl, app_assoc.
    split; [ reflexivity | ]. now rewrite calls_of_app, Hc.
  - exists tl. auto.
Qed.

Lemma balanced_dispatch_all (exts : list Ext) (name : string) (payload : option Batch) :
  balanced (dispatch_all exts name payload).
Proof.
  apply (structural_dispatch_all (fun A m => balanced m)).
  - intros A m. apply balanced_still.
  - intros A B m f. apply balanced_bind.
  - intros A n body. apply balanced_TimeIt.
Qed.

(** A timed block adds to the trace what its body adds. *)
Lemma TimeIt_trace {A} (name : string) (body : Comp A) (s s' : State) (r : res A) :
  balanced body ->
  TimeIt name body s = (r, s') ->
  exists s1, body (entered name s) = (r, s1) /\ trace s' = trace s1.
Proof.
  intros Hb E.
  destruct (TimeIt_inv _ _ _ _ _ Hb E) as (s1 & E1 & [[_ ->] | (_ & -> & _)]);
    exists s1; auto.
Qed.

Lemma dispatch_all_calls (name : string) (payload : option Batch) (exts : list Ext) :
  forall (s s' : State) (r : res unit),
    dispatch_all exts name payload s = (r, s') ->
    exists tl,
      trace s' = trace s ++ tl /\
      match r with
      | Val _ =>
          calls_of tl = map (fun e => (Dispatch e name payload, None)) exts
      | Raise ex =>
          exists done e rest,
            exts = done ++ e :: rest /\
            calls_of tl =
              map (fun e => (Dispatch e name payload, None)) done
                ++ [(Dispatch e name payload, Some ex)]
      | Timeout =>
          exists done rest,
            exts = done ++ rest /\
            calls_of tl = map (fun e => (Dispatch e name payload, None)) done
      end.
Proof.
  induction exts as [ | e rest IH ]; intros s s' r E; cbn [dispatch_all] in E.
  - inversion E; subst. exists []. rewrite app_nil_r. auto.
  - destruct (bind_inv _ _ _ _ _ E) as [(a & s1 & E1 & E2) | [(ex & E1 & ->) | [E1 ->]]].
    + destruct (TimeIt_trace _ _ _ _ _ (balanced_invoke _ _) E1) as (s0 & E0 & Et).
      destruct (invoke_calls _ _ _ _ _ E0) as (tl1 & Etl1 & Hc1).
      destruct (IH _ _ _ E2) as (tl2 & Etl2 & Hc2).
      exists (tl1 ++ tl2). split.
      { rewrite Etl2, Et, Etl1. cbn. now rewrite app_assoc. }
      rewrite calls_of_app, Hc1. destruct r as [u | ex | ].
      * now rewrite Hc2.
      * destruct Hc2 as (done & e' & rest' & -> & ->).
        exists (e :: done), e', rest'. auto.
      * destruct Hc2 as (done & rest' & -> & ->).
        exists (e :: done), rest'. auto.
    + destruct (TimeIt_trace _ _ _ _ _ (balanced_invoke _ _) E1) as (s0 & E0 & Et).
      destruct (invoke_calls _ _ _ _ _ E0) as (tl1 & Etl1 & Hc1).
      exists tl1. split; [ now rewrite Et, Etl1 | ].
      exists [], e, rest. auto.
    + destruct (TimeIt_trace _ _ _ _ _ (balanced_invoke _ _) E1) as (s0 & E0 & Et).
      destruct (invoke_calls _ _ _ _ _ E0) as (tl1 & Etl1 & Hc1).
      exists tl1. split; [ now rewrite Et, Etl1 | ].
      exists [], (e :: rest). auto.
Qed.

Lemma run_extensions_calls
    (name : string) (payload : option Batch) (s s' : State) (r : res unit) :
  _run_extensions name payload s = (r, s') ->
  exists tl,
    trace s' = trace s ++ Phase name :: tl /\
    match r with
    | Val _ =>
        calls_of tl =
          map (fun e => (Dispatch e name payload, None)) (extensions s)
    | Raise ex =>
        exists done e rest,
          extensions s = done ++ e :: rest /\
          calls_of tl =
            map (fun e => (Dispatch e name payload, None)) done
              ++ [(Dispatch e name payload, Some ex)]
    | Timeout =>
        exists done rest,
          extensions s = done ++ rest /\
          calls_of tl = map (fun e => (Dispatch e name payload, None)) done
    end.
Proof.
  intros E.
  unfold _run_extensions in E. unfold bind at 1, modify in E.
  assert (Hb : balanced (bind (gets extensions)
                           (fun exts => dispatch_all exts name payload))).
  { apply balanced_bind.
    - apply balanced_still. intros s0 r0 s1 E0. now inversion E0.
    - intros exts. apply balanced_dispatch_all. }
  destruct (TimeIt_trace _ _ _ _ _ Hb E) as (s1 & E1 & Et).
  unfold bind at 1, gets in E1.
  destruct (dispatch_all_calls _ _ _ _ _ _ E1) as (tl & Etl & Hc).
  exists tl. split.
  - rewrite Et, Etl. cbn. now rewrite <- app_assoc.
  - exact Hc.
Qed.

(** ** The finish signal and the [after_training] phase *)

(** After the [after_training] phase the [finally] block adds nothing
    to the trace. *)
Lemma report_and_restore_trace (s1 s2 : State) (r2 : res unit) :
  bind (if profile then timer_report else ret tt)
       (fun _ => modify _restore_signal_handlers) s1 = (r2, s2) ->
  trace s2 = trace s1.
Proof.
  intros E2. unfold bind in E2. destruct profile.
  - unfold timer_report in E2.
    destruct (Timer.report (timer s1)) as [[[] | e | ] out]; now inversion E2.
  - now inversion E2.
Qed.

(** The [finally] block on a row that shows [training_finished]: the
    [after_training] phase is run, every extension is dispatched to. *)
Lemma run_finally_dispatches (t t' : State) (r : res unit) :
  run_finally t = (r, t') ->
  flag (current_row (log t)) "training_finished" = true ->
  exists tl,
    trace t' = trace t ++ Phase "after_training" :: tl /\
    dispatched_to "after_training" None (extensions t)
      (fst (_run_extensions "after_training" None t)) tl.
Proof.
  intros E Hf. unfold run_finally in E. unfold bind at 1, gets in E.
  rewrite Hf in E.
  destruct (bind_inv _ _ _ _ _ E) as [(u & s1 & E1 & E2) | [(e & E1 & _) | [E1 _]]];
    destruct (run_extensions_calls _ _ _ _ _ E1) as (tl & Etl & Hc);
    exists tl; rewrite E1; cbn [fst]; (split; [ | exact Hc ]).
  - now rewrite (report_and_restore_trace _ _ _ E2).
  - exact Etl.
  - exact Etl.
Qed.

(** C7.  When the [try] block of [run] ends by the finish signal, the
    handler marks the current row [training_finished], so the [finally]
    block runs the [after_training] phase: it records the start of the
    phase and dispatches to every extension of the loop, in order (up to
    the first one that raises).  A finish request seen by the check at
    batch granularity (a [batch_interrupt_received] included) raises the
    signal only after the batch's [after_batch] phase.  The [finally]
    block skips [after_training] exactly when the current row does not
    show [training_finished]. *)
Theorem finish_signal_runs_after_training (fuel : nat) (s s1 : State) :
  run_try fuel (at_try s) = (Raise TrainingFinish, s1) ->
  try_except (run_try fuel) run_handlers (at_try s) =
    (Val tt, set_row "training_finished" (VBool true) s1) /\
  flag (current_row (log (set_row "training_finished" (VBool true) s1)))
       "training_finished" = true /\
  (exists r s' tl,
      run fuel s = (r, s') /\
      trace s' = trace s1 ++ Phase "after_training" :: tl /\
      dispatched_to "after_training" None (extensions s1)
        (fst (_run_extensions "after_training" None
                (set_row "training_finished" (VBool true) s1))) tl) /\
  (forall (t t0 t1 : State) (batch : Batch),
      read_data t = (Val (Some batch), t0) ->
      bind (_run_extensions "before_batch" (Some batch)) (fun _ =>
      bind (TimeIt "batch"
              (invoke (ProcessBatch batch) (algorithm_process_batch batch))) (fun _ =>
      bind (increment_status "iterations_done") (fun _ =>
            _run_extensions "after_batch" (Some batch))))
        (set_status "received_first_batch" (VBool true) t0) = (Val tt, t1) ->
      flag (current_row (log t1)) "training_finish_requested" = true \/
      flag (status (log t1)) "batch_interrupt_received" = true ->
      _run_iteration t =
        (Raise TrainingFinish, record_event (FinishRaised "batch") t1)) /\
  (forall (t t' : State) (r : res unit),
      run_finally t = (r, t') ->
      (flag (current_row (log t)) "training_finished" = true ->
         exists tl,
           trace t' = trace t ++ Phase "after_training" :: tl /\
           dispatched_to "after_training" None (extensions t)
             (fst (_run_extensions "after_training" None t)) tl) /\
      (flag (current_row (log t)) "training_finished" = false ->
         trace t' = trace t)).
Proof.
  intros E.
  assert (Eh : try_except (run_try fuel) run_handlers (at_try s) =
               (Val tt, set_row "training_finished" (VBool true) s1)).
  { unfold try_except. rewrite E. reflexivity. }
  assert (Hf : flag (current_row (log (set_row "training_finished" (VBool true) s1)))
                    "training_finished" = true).
  { unfold flag. cbn. now rewrite lookup_insert_eq. }
  split; [ exact Eh | ]. split; [ exact Hf | ].
  split; [ | split; [ apply run_iteration_finish_after_batch | ] ].
  - rewrite at_try_run. unfold try_finally. rewrite Eh.
    destruct (run_finally (set_row "training_finished" (VBool true) s1))
      as [rf sf] eqn:Ef.
    destruct (run_finally_dispatches _ _ _ Ef Hf) as (tl & Etl & Hd).
    destruct rf as [[] | e | ]; eauto 6.
  - intros t t' r Ef. split.
    + now apply (run_finally_dispatches t t' r).
    + intros Hflag. now apply (traces_run_finally_unfinished t t' r).
Qed.

(** ** Runs over a stream that is read to its end *)

Section Stream.

Variable remaining : World -> list (list Batch).
Variable iterator : World -> list Batch.
Variable good : Batch -> Prop.
Variable exts : list Ext.
Hypothesis Hstream : streaming remaining iterator good exts.

Let leads {A} := @leads World Batch Ext exts A.
Let standing := standing remaining.
Let between := between remaining.
Let in_epoch := in_epoch remaining iterator.
Let steady := steady remaining iterator.

Lemma leads_weaken {A} (P P' : World -> Log -> Prop) (m : Comp A)
    (Q Q' : res A -> World -> Log -> Prop) :
  leads P m Q ->
  (forall w l, P' w l -> P w l) ->
  (forall r w l, Q r w l -> Q' r w l) ->
  leads P' m Q'.
Proof.
  intros Hm HP HQ s Hx Hs.
  destruct (Hm s Hx (HP _ _ Hs)) as (r & s' & E & Hx' & Hq).
  exists r, s'. auto.
Qed.

Lemma leads_ret {A} (P : World -> Log -> Prop) (a : A) :
  leads P (ret a) (returning (fun a' w l => a' = a /\ P w l)).
Proof.
  intros s Hx Hs. exists (Val a), s. repeat split; auto.
  exists a. auto.
Qed.

Lemma leads_bind {A B} (P : World -> Log -> Prop) (m : Comp A) (f : A -> Comp B)
    (Q : A -> World -> Log -> Prop) (R : res B -> World -> Log -> Prop) :
  leads P m (returning Q) ->
  (forall a, leads (Q a) (f a) R) ->
  leads P (bind m f) R.
Proof.
  intros Hm Hf s Hx Hs.
  destruct (Hm s Hx Hs) as (r & s1 & E & Hx1 & a & -> & Hq).
  destruct (Hf a s1 Hx1 Hq) as (r2 & s2 & E2 & Hx2 & Hr).
  exists r2, s2. split; [ | auto ].
  now rewrite (bind_val _ _ _ _ _ E).
Qed.

Lemma leads_bind_raise {A B} (P : World -> Log -> Prop) (m : Comp A)
    (f : A -> Comp B) (e : exn) (Q : World -> Log -> Prop) :
  leads P m (raising e Q) ->
  leads P (bind m f) (raising e Q).
Proof.
  intros Hm s Hx Hs.
  destruct (Hm s Hx Hs) as (r & s1 & E & Hx1 & -> & Hq).
  exists (Raise e), s1. split; [ | split; [ exact Hx1 | now split ] ].
  now rewrite (bind_raise _ _ _ _ _ E).
Qed.

Lemma leads_TimeIt {A} (P : World -> Log -> Prop) (name : string)
    (body : Comp A) (Q : res A -> World -> Log -> Prop) :
  balanced body ->
  (forall w l, ~ Q Timeout w l) ->
  leads P body Q ->
  leads P (TimeIt name body) Q.
Proof.
  intros Hb Hq Hm s Hx Hs.
  destruct (Hm (entered name s) Hx Hs) as (r & s1 & E & Hx1 & HQ).
  assert (Hr : r <> Timeout) by (intros ->; exact (Hq _ _ HQ)).
  destruct (Hb _ _ _ E Hr) as [Hc _]. rewrite entered_current in Hc.
  exists r, (exited (clock (ticks s)) s1).
  split; [ now apply TimeIt_ends | ]. split; [ exact Hx1 | exact HQ ].
Qed.

Lemma returning_ends {A} (Q : A -> World -> Log -> Prop) (w : World) (l : Log) :
  ~ returning Q Timeout w l.
Proof. intros (a & E & _). discriminate E. Qed.

Lemma raising_ends {A} (e : exn) (Q : World -> Log -> Prop) (w : World) (l : Log) :
  ~ raising (A := A) e Q Timeout w l.
Proof. intros (E & _). discriminate E. Qed.

Lemma leads_try_except_val {A} (P : World -> Log -> Prop) (m : Comp A)
    (h : exn -> option (Comp A)) (Q : A -> World -> Log -> Prop) :
  leads P m (returning Q) ->
  leads P (try_except m h) (returning Q).
Proof.
  intros Hm s Hx Hs.
  destruct (Hm s Hx Hs) as (r & s1 & E & Hx1 & a & -> & Hq).
  exists (Val a), s1. split; [ | split; [ exact Hx1 | now exists a ] ].
  unfold try_except. now rewrite E.
Qed.

Lemma leads_try_except_raise {A} (P Q : World -> Log -> Prop) (m : Comp A)
    (h : exn -> option (Comp A)) (e : exn) (k : Comp A)
    (R : res A -> World -> Log -> Prop) :
  leads P m (raising e Q) ->
  h e = Some k ->
  leads Q k R ->
  leads P (try_except m h) R.
Proof.
  intros Hm Hh Hk s Hx Hs.
  destruct (Hm s Hx Hs) as (r & s1 & E & Hx1 & -> & Hq).
  destruct (Hk s1 Hx1 Hq) as (r2 & s2 & E2 & Hx2 & Hr).
  exists r2, s2. split; [ | auto ].
  unfold try_except. now rewrite E, Hh.
Qed.

Lemma leads_invoke {A} (P : World -> Log -> Prop) (c : call)
    (f : collaborator World A) (Q : res A -> World -> Log -> Prop) :
  (forall w l, P w l ->
     signals (f w l) = [] /\ outcome (f w l) <> Timeout /\
     Q (outcome (f w l)) (world_after (f w l)) (log_after (f w l))) ->
  leads P (invoke c f) Q.
Proof.
  intros Hf s Hx Hs. destruct (Hf _ _ Hs) as (Hsig & Ho & HQ).
  unfold invoke. rewrite Hsig. cbn [deliver_all fold_left].
  destruct (outcome (f (world s) (log s))) as [a | e | ] eqn:Eo.
  - eexists _, _. split; [ reflexivity | ]. split; [ exact Hx | exact HQ ].
  - eexists _, _. split; [ reflexivity | ]. split; [ exact Hx | exact HQ ].
  - now contradiction Ho.
Qed.

Lemma leads_set_status (P : World -> Log -> Prop) (k : string) (v : value)
    (Q : unit -> World -> Log -> Prop) :
  (forall w l, P w l ->
     Q tt w (mkLog (<[k := v]> (status l)) (current_row l))) ->
  leads P (modify (set_status k v)) (returning Q).
Proof.
  intros HQ s Hx Hs. exists (Val tt), (set_status k v s).
  split; [ reflexivity | ]. split; [ exact Hx | ].
  exists tt. split; [ reflexivity | ]. exact (HQ _ _ Hs).
Qed.

Lemma leads_record_event (P : World -> Log -> Prop) (ev : @event Batch Ext) :
  leads P (modify (record_event ev)) (returning (fun _ => P)).
Proof.
  intros s Hx Hs. exists (Val tt), (record_event ev s).
  split; [ reflexivity | ]. split; [ exact Hx | ].
  exists tt. split; [ reflexivity | exact Hs ].
Qed.

Lemma leads_status_item (P : World -> Log -> Prop) (k : string) (v : value) :
  (forall w l, P w l -> status l !! k = Some v) ->
  leads P (status_item k) (returning (fun v' w l => v' = v /\ P w l)).
Proof.
  intros Hk s Hx Hs. exists (Val v), s.
  split; [ unfold status_item; now rewrite (Hk _ _ Hs) | ].
  split; [ exact Hx | ]. exists v. auto.
Qed.

Lemma leads_increment_status (P : World -> Log -> Prop) (k : string) (i : Z)
    (Q : unit -> World -> Log -> Prop) :
  (forall w l, P w l ->
     status l !! k = Some (VInt i) /\
     Q tt w (mkLog (<[k := VInt (i + 1)]> (status l)) (current_row l))) ->
  leads P (increment_status k) (returning Q).
Proof.
  intros HQ s Hx Hs. destruct (HQ _ _ Hs) as [Hk Hq].
  exists (Val tt), (set_status k (VInt (i + 1)) s).
  split; [ | split; [ exact Hx | exists tt; split; [ reflexivity | exact Hq ] ] ].
  unfold increment_status, bind, status_item. now rewrite Hk.
Qed.

Lemma leads_check_finish_training (P : World -> Log -> Prop) (level : string) :
  (forall w l, P w l ->
     flag (current_row l) "training_finish_requested" = false /\
     flag (status l) "batch_interrupt_received" = false /\
     flag (status l) "epoch_interrupt_received" = false) ->
  leads P (_check_finish_training level) (returning (fun _ => P)).
Proof.
  intros HP s Hx Hs. destruct (HP _ _ Hs) as (Hf & Hb & He).
  exists (Val tt), s.
  split; [ | split; [ exact Hx | exists tt; split; [ reflexivity | exact Hs ] ] ].
  unfold _check_finish_training. rewrite Hf, Hb, He. cbn.
  now rewrite andb_false_r.
Qed.


(** *** Conditions that the quiet collaborators keep *)

Ltac in_keys :=
  unfold loop_keys; rewrite !elem_of_cons;
  repeat first [ left; reflexivity | right ].

Lemma flag_same (d d' : gmap string value) (k : string) :
  d' !! k = d !! k -> flag d' k = flag d k.
Proof. intros E. unfold flag. now rewrite E. Qed.

Lemma standing_calm (i e : Z) (eps : list (list Batch)) (w w' : World) (l l' : Log) :
  standing i e eps w l ->
  remaining w' = remaining w -> calm l l' ->
  standing i e eps w' l'.
Proof.
  intros [Hr Hi He [ends Hn] Hb Hp Hf] Ew [Hs Hq].
  assert (Hk : forall k, k ∈ loop_keys -> status l' !! k = status l !! k)
    by exact Hs.
  split.
  - now rewrite Ew.
  - rewrite Hk; [ exact Hi | in_keys ].
  - rewrite Hk; [ exact He | in_keys ].
  - exists ends. rewrite Hk; [ exact Hn | in_keys ].
  - rewrite (flag_same (status l)); [ exact Hb | ].
    apply Hk. in_keys.
  - rewrite (flag_same (status l)); [ exact Hp | ].
    apply Hk. in_keys.
  - now apply Hq.
Qed.

Lemma steady_standing (i e : Z) (eps : list (list Batch)) :
  steady (standing i e eps).
Proof. intros w l w' l' Hs Ew _ Hc. now apply (standing_calm i e eps w w' l l'). Qed.

Lemma steady_between (i e : Z) (eps : list (list Batch)) :
  steady (between i e eps).
Proof.
  intros w l w' l' [Hs Hf] Ew _ Hc. split.
  - now apply (standing_calm i e eps w w' l l').
  - rewrite (flag_same (status l)); [ exact Hf | ].
    apply (proj1 Hc). in_keys.
Qed.

Lemma steady_in_epoch (i e : Z) (bs : list Batch) (eps : list (list Batch))
    (received : bool) :
  steady (in_epoch i e bs eps received).
Proof.
  intros w l w' l' (Hs & Hi & Hr) Ew Ei Hc. split; [ | split ].
  - now apply (standing_calm i e eps w w' l l').
  - now rewrite Ei.
  - rewrite (proj1 Hc); [ exact Hr | in_keys ].
Qed.

Lemma standing_set_status (i e : Z) (eps : list (list Batch)) (w : World)
    (l : Log) (k : string) (v : value) :
  k ∉ ["iterations_done"; "epochs_done"; "_epoch_ends";
       "epoch_interrupt_received"; "batch_interrupt_received"] ->
  standing i e eps w l ->
  standing i e eps w (mkLog (<[k := v]> (status l)) (current_row l)).
Proof.
  intros Hk [Hr Hi He [ends Hn] Hb Hp Hf].
  split; cbn; try assumption.
  - rewrite lookup_insert_ne; [ exact Hi | ]. intros ->. apply Hk. in_keys.
  - rewrite lookup_insert_ne; [ exact He | ]. intros ->. apply Hk. in_keys.
  - exists ends. rewrite lookup_insert_ne; [ exact Hn | ].
    intros ->. apply Hk. in_keys.
  - rewrite (flag_same (status l)); [ exact Hb | ].
    rewrite lookup_insert_ne; [ reflexivity | ]. intros ->. apply Hk. in_keys.
  - rewrite (flag_same (status l)); [ exact Hp | ].
    rewrite lookup_insert_ne; [ reflexivity | ]. intros ->. apply Hk. in_keys.
Qed.

(** *** The phases *)

Lemma leads_dispatch_all (P : World -> Log -> Prop) (name : string)
    (payload : option Batch) (es : list Ext) :
  steady P ->
  (forall b, payload = Some b -> good b) ->
  (forall e, e ∈ es -> e ∈ exts) ->
  leads P (dispatch_all es name payload) (returning (fun _ => P)).
Proof.
  intros HP Hgood. induction es as [ | e es IH ]; intros Hin.
  - eapply leads_weaken; [ apply (leads_ret P tt) | auto | ].
    intros r w l (a & -> & _ & Hp). exists a. auto.
  - cbn [dispatch_all].
    apply leads_bind with (Q := fun _ => P).
    + apply leads_TimeIt;
        [ apply balanced_invoke | apply returning_ends | ].
      apply leads_invoke. intros w l Hp.
      destruct (str_dispatch _ _ _ _ Hstream e name payload w l)
        as (Ho & [Hsig Hc] & [Er Ei]);
        [ apply Hin; apply elem_of_cons; now left | exact Hgood | ].
      split; [ exact Hsig | ]. rewrite Ho. split; [ discriminate | ].
      exists tt. split; [ reflexivity | ].
      exact (HP _ _ _ _ Hp Er Ei Hc).
    + intros _. apply IH. intros e' He'. apply Hin. apply elem_of_cons. now right.
Qed.

Lemma balanced_extensions_body (name : string) (payload : option Batch) :
  balanced (bind (gets extensions)
              (fun es => dispatch_all es name payload) : Comp unit).
Proof.
  apply balanced_bind.
  - apply balanced_still. intros s r s' E. inversion E; subst. auto.
  - intros es. apply (structural_dispatch_all (fun A m => balanced m)).
    + intros A m. apply balanced_still.
    + intros A B m f. apply balanced_bind.
    + intros A n body. apply balanced_TimeIt.
Qed.

Lemma leads_run_extensions (P : World -> Log -> Prop) (name : string)
    (payload : option Batch) :
  steady P ->
  (forall b, payload = Some b -> good b) ->
  leads P (_run_extensions name payload) (returning (fun _ => P)).
Proof.
  intros HP Hgood. unfold _run_extensions.
  apply leads_bind with (Q := fun _ => P); [ apply leads_record_event | ].
  intros _. apply leads_TimeIt;
    [ apply balanced_extensions_body | apply returning_ends | ].
  intros s Hx Hs.
  destruct (leads_dispatch_all P name payload exts HP Hgood (fun e He => He)
              s Hx Hs) as (r & s' & E & Hx' & Hq).
  exists r, s'. split; [ | auto ].
  unfold bind, gets. now rewrite Hx.
Qed.

Lemma leads_assume {A} (cond : Prop) (P : World -> Log -> Prop) (m : Comp A)
    (Q : res A -> World -> Log -> Prop) :
  (cond -> leads P m Q) ->
  leads (fun w l => cond /\ P w l) m Q.
Proof. intros Hm s Hx [Hc Hs]. exact (Hm Hc s Hx Hs). Qed.

Lemma leads_done {A} (P : World -> Log -> Prop) (a : A)
    (Q : A -> World -> Log -> Prop) :
  (forall w l, P w l -> Q a w l) ->
  leads P (ret a) (returning Q).
Proof.
  intros HQ s Hx Hs. exists (Val a), s. repeat split; auto.
  exists a. auto.
Qed.

Lemma leads_gets {A} (P : World -> Log -> Prop) (f : State -> A)
    (g : World -> Log -> A) :
  (forall s, f s = g (world s) (log s)) ->
  leads P (gets f) (returning (fun a w l => a = g w l /\ P w l)).
Proof.
  intros Hf s Hx Hs. exists (Val (f s)), s. repeat split; auto.
  exists (f s). auto.
Qed.

Lemma leads_append_status (P : World -> Log -> Prop) (k k2 : string)
    (Q : unit -> World -> Log -> Prop) :
  (forall w l, P w l ->
     exists ends x,
       status l !! k = Some (VList ends) /\ status l !! k2 = Some x /\
       Q tt w (mkLog (<[k := VList (ends ++ [x])]> (status l)) (current_row l))) ->
  leads P (append_status k k2) (returning Q).
Proof.
  intros HQ s Hx Hs. destruct (HQ _ _ Hs) as (ends & x & Hk & Hk2 & Hq).
  exists (Val tt), (set_status k (VList (ends ++ [x])) s).
  split; [ | split; [ exact Hx | exists tt; split; [ reflexivity | exact Hq ] ] ].
  unfold append_status, bind, status_item. now rewrite Hk, Hk2.
Qed.

(** *** A batch *)

Lemma leads_read_data_batch (i e : Z) (b : Batch) (bs : list Batch)
    (eps : list (list Batch)) (received : bool) :
  leads (in_epoch i e (b :: bs) eps received) read_data
    (returning (fun fetched w l =>
                  fetched = Some b /\ in_epoch i e bs eps received w l)).
Proof.
  unfold read_data. apply leads_try_except_val.
  apply leads_bind
    with (Q := fun b' w l => b' = b /\ in_epoch i e bs eps received w l).
  - apply leads_TimeIt;
      [ apply balanced_invoke | apply returning_ends | ].
    apply leads_invoke. intros w l (Hs & Hi & Hr).
    destruct (str_next_batch _ _ _ _ Hstream w l) as ([Hsig Hc] & Er & Hm).
    rewrite Hi in Hm. destruct Hm as [Ho Ei].
    split; [ exact Hsig | ]. rewrite Ho. split; [ discriminate | ].
    exists b. split; [ reflexivity | ]. split; [ reflexivity | ].
    split; [ now apply (standing_calm i e eps w _ l) | ].
    split; [ exact Ei | ].
    rewrite (proj1 Hc); [ exact Hr | in_keys ].
  - intros b'. apply leads_assume. intros ->. apply leads_done. auto.
Qed.

Lemma leads_read_data_end (i e : Z) (eps : list (list Batch)) :
  leads (in_epoch i e [] eps true) read_data
    (returning (fun fetched w l => fetched = None /\ standing i e eps w l)).
Proof.
  unfold read_data.
  eapply leads_try_except_raise
    with (e := StopIteration)
         (Q := fun w l => standing i e eps w l /\
                          status l !! "received_first_batch" = Some (VBool true)).
  - apply leads_bind_raise.
    apply leads_TimeIt;
      [ apply balanced_invoke | apply raising_ends | ].
    apply leads_invoke. intros w l (Hs & Hi & Hr).
    destruct (str_next_batch _ _ _ _ Hstream w l) as ([Hsig Hc] & Er & Hm).
    rewrite Hi in Hm.
    split; [ exact Hsig | ]. rewrite Hm. split; [ discriminate | ].
    split; [ reflexivity | ].
    split; [ now apply (standing_calm i e eps w _ l) | ].
    rewrite (proj1 Hc); [ exact Hr | in_keys ].
  - reflexivity.
  - apply leads_bind
      with (Q := fun v w l => v = VBool true /\ standing i e eps w l).
    + eapply leads_weaken;
        [ apply (leads_status_item
                   (fun w l => standing i e eps w l /\
                               status l !! "received_first_batch" = Some (VBool true))
                   "received_first_batch" (VBool true));
          intros w l [_ Hr]; exact Hr
        | intros w l Hp; exact Hp | ].
      intros r w l (v & -> & -> & Hs & _). exists (VBool true). auto.
    + intros v. apply leads_assume. intros ->. cbn.
      apply leads_done. auto.
Qed.

Lemma standing_counted (i e : Z) (eps : list (list Batch)) (w : World) (l : Log) :
  standing i e eps w l ->
  standing (i + 1) e eps w
    (mkLog (<["iterations_done" := VInt (i + 1)]> (status l)) (current_row l)).
Proof.
  intros [Hr Hi He [ends Hn] Hb Hp Hf]. split; cbn; try assumption.
  - now rewrite lookup_insert_eq.
  - now rewrite lookup_insert_ne.
  - exists ends. now rewrite lookup_insert_ne.
  - rewrite (flag_same (status l)); [ exact Hb | now rewrite lookup_insert_ne ].
  - rewrite (flag_same (status l)); [ exact Hp | now rewrite lookup_insert_ne ].
Qed.

Lemma standing_completed (i e : Z) (eps : list (list Batch)) (w : World) (l : Log) :
  standing i e eps w l ->
  standing i (e + 1) eps w
    (mkLog (<["epochs_done" := VInt (e + 1)]> (status l)) (current_row l)).
Proof.
  intros [Hr Hi He [ends Hn] Hb Hp Hf]. split; cbn; try assumption.
  - now rewrite lookup_insert_ne.
  - now rewrite lookup_insert_eq.
  - exists ends. now rewrite lookup_insert_ne.
  - rewrite (flag_same (status l)); [ exact Hb | now rewrite lookup_insert_ne ].
  - rewrite (flag_same (status l)); [ exact Hp | now rewrite lookup_insert_ne ].
Qed.

Lemma standing_boundary (i e : Z) (eps : list (list Batch)) (w : World) (l : Log)
    (ends : list value) :
  standing i e eps w l ->
  standing i e eps w
    (mkLog (<["_epoch_ends" := VList ends]> (status l)) (current_row l)).
Proof.
  intros [Hr Hi He _ Hb Hp Hf]. split; cbn; try assumption.
  - now rewrite lookup_insert_ne.
  - now rewrite lookup_insert_ne.
  - exists ends. now rewrite lookup_insert_eq.
  - rewrite (flag_same (status l)); [ exact Hb | now rewrite lookup_insert_ne ].
  - rewrite (flag_same (status l)); [ exact Hp | now rewrite lookup_insert_ne ].
Qed.

Lemma standing_cleared (i e : Z) (eps : list (list Batch)) (w : World) (l : Log)
    (k : string) :
  k = "epoch_interrupt_received" \/ k = "batch_interrupt_received" ->
  standing i e eps w l ->
  standing i e eps w
    (mkLog (<[k := VBool false]> (status l)) (current_row l)).
Proof.
  intros Hk [Hr Hi He [ends Hn] Hb Hp Hf].
  split; cbn; try assumption.
  - destruct Hk as [-> | ->]; now rewrite lookup_insert_ne.
  - destruct Hk as [-> | ->]; now rewrite lookup_insert_ne.
  - exists ends. destruct Hk as [-> | ->]; now rewrite lookup_insert_ne.
  - destruct Hk as [-> | ->].
    + rewrite (flag_same (status l)); [ exact Hb | now rewrite lookup_insert_ne ].
    + unfold flag. now rewrite lookup_insert_eq.
  - destruct Hk as [-> | ->].
    + unfold flag. now rewrite lookup_insert_eq.
    + rewrite (flag_same (status l)); [ exact Hp | now rewrite lookup_insert_ne ].
Qed.

Lemma leads_run_iteration_batch (i e : Z) (b : Batch) (bs : list Batch)
    (eps : list (list Batch)) (received : bool) :
  good b ->
  leads (in_epoch i e (b :: bs) eps received) _run_iteration
    (returning (fun again w l =>
                  again = true /\ in_epoch (i + 1) e bs eps true w l)).
Proof.
  intros Hb. unfold _run_iteration.
  eapply leads_bind; [ apply leads_read_data_batch | ].
  intros fetched. apply leads_assume. intros ->. cbn iota.
  apply leads_bind with (Q := fun _ => in_epoch i e bs eps true).
  { apply leads_set_status. intros w l (Hs & Hi & Hr). split; [ | split ].
    - apply standing_set_status; [ not_in_keys | exact Hs ].
    - exact Hi.
    - cbn. now rewrite lookup_insert_eq. }
  intros _. apply leads_bind with (Q := fun _ => in_epoch i e bs eps true).
  { apply leads_run_extensions; [ apply steady_in_epoch | ].
    intros b' E. now inversion E; subst. }
  intros _. apply leads_bind with (Q := fun _ => in_epoch i e bs eps true).
  { apply leads_TimeIt;
      [ apply balanced_invoke | apply returning_ends | ].
    apply leads_invoke. intros w l Hp.
    destruct (str_process_batch _ _ _ _ Hstream b w l Hb)
      as (Ho & [Hsig Hc] & [Er Ei]).
    split; [ exact Hsig | ]. rewrite Ho. split; [ discriminate | ].
    exists tt. split; [ reflexivity | ].
    exact (steady_in_epoch i e bs eps true _ _ _ _ Hp Er Ei Hc). }
  intros _. apply leads_bind with (Q := fun _ => in_epoch (i + 1) e bs eps true).
  { apply leads_increment_status with (i := i). intros w l (Hs & Hi & Hr).
    split; [ exact (st_iterations _ _ _ _ _ _ Hs) | ].
    split; [ now apply standing_counted | ]. split; [ exact Hi | ].
    cbn. now rewrite lookup_insert_ne. }
  intros _. apply leads_bind with (Q := fun _ => in_epoch (i + 1) e bs eps true).
  { apply leads_run_extensions; [ apply steady_in_epoch | ].
    intros b' E. now inversion E; subst. }
  intros _. apply leads_bind with (Q := fun _ => in_epoch (i + 1) e bs eps true).
  { apply leads_check_finish_training. intros w l ([_ _ _ _ Hbi Hei Hf] & _).
    auto. }
  intros _. apply leads_done. auto.
Qed.

Lemma leads_run_iteration_end (i e : Z) (eps : list (list Batch)) :
  leads (in_epoch i e [] eps true) _run_iteration
    (returning (fun again w l => again = false /\ standing i e eps w l)).
Proof.
  unfold _run_iteration.
  eapply leads_bind; [ apply leads_read_data_end | ].
  intros fetched. apply leads_assume. intros ->. cbn iota.
  apply leads_done. auto.
Qed.

Lemma balanced_iterations (fuel : nat) : balanced (iterations fuel).
Proof.
  apply (structural_iterations (fun A m => balanced m)).
  - intros A m. apply balanced_still.
  - intros A B m f. apply balanced_bind.
  - intros A m h. apply balanced_try_except.
  - intros A name body. apply balanced_TimeIt.
Qed.

Lemma balanced_epochs (inner fuel : nat) : balanced (epochs inner fuel).
Proof.
  apply (structural_epochs (fun A m => balanced m)).
  - intros A m. apply balanced_still.
  - intros A B m f. apply balanced_bind.
  - intros A m h. apply balanced_try_except.
  - intros A name body. apply balanced_TimeIt.
Qed.

(** The [while] loop of an epoch reads the iterator to its end: every
    batch is processed and counted. *)
Lemma leads_iterations (e : Z) (eps : list (list Batch)) (bs : list Batch) :
  forall (fuel : nat) (i : Z) (received : bool),
    Forall good bs -> (length bs < fuel)%nat ->
    received = true \/ bs <> [] ->
    leads (in_epoch i e bs eps received) (iterations fuel)
      (returning (fun _ => standing (i + Z.of_nat (length bs)) e eps)).
Proof.
  induction bs as [ | b bs IH ]; intros fuel i received Hg Hl Hr;
    (destruct fuel as [ | fuel ]; [ cbn in Hl; lia | ]); cbn [iterations].
  - destruct Hr as [-> | Hr]; [ | now contradiction Hr ].
    eapply leads_bind; [ apply leads_run_iteration_end | ].
    intros again. apply leads_assume. intros ->. cbn iota.
    apply leads_done. intros w l Hs. cbn. now rewrite Z.add_0_r.
  - inversion Hg as [ | ? ? Hb Hg' ]; subst.
    eapply leads_bind; [ now apply leads_run_iteration_batch | ].
    intros again. apply leads_assume. intros ->. cbn iota.
    eapply leads_weaken;
      [ apply (IH fuel (i + 1)%Z true Hg');
        [ cbn in Hl; lia | now left ] | auto | ].
    intros r w l (a & -> & Hs). exists a. split; [ reflexivity | ].
    replace (i + Z.of_nat (length (b :: bs)))%Z
      with (i + 1 + Z.of_nat (length bs))%Z by (cbn [length]; lia).
    exact Hs.
Qed.

(** *** An epoch *)

Lemma leads_start_epoch_some (i e : Z) (ep : list Batch)
    (rest : list (list Batch)) :
  leads (between i e (ep :: rest)) start_epoch
    (returning (fun go w l => go = true /\ in_epoch i e ep rest false w l)).
Proof.
  unfold start_epoch.
  apply leads_bind
    with (Q := fun started w l => started = false /\ between i e (ep :: rest) w l).
  { eapply leads_weaken;
      [ apply (leads_gets _ _ (fun w l => flag (status l) "epoch_started"));
        reflexivity | intros w l Hp; exact Hp | ].
    intros r w l (a & -> & -> & Hs & Hf). exists false.
    rewrite Hf. split; [ reflexivity | ]. split; [ reflexivity | now split ]. }
  intros started. apply leads_assume. intros ->. cbn iota.
  apply leads_bind
    with (Q := fun got w l => got = true /\ in_epoch i e ep rest false w l).
  { apply leads_try_except_val.
    apply leads_bind
      with (Q := fun _ w l =>
                   standing i e (ep :: rest) w l /\
                   status l !! "received_first_batch" = Some (VBool false)).
    { apply leads_set_status. intros w l [Hs _]. split.
      - apply standing_set_status; [ not_in_keys | exact Hs ].
      - cbn. now rewrite lookup_insert_eq. }
    intros _.
    apply leads_bind with (Q := fun _ => in_epoch i e ep rest false).
    { apply leads_invoke. intros w l [Hs Hr].
      destruct (str_get_epoch_iterator _ _ _ _ Hstream w l) as ([Hsig Hc] & Hm).
      rewrite (st_remaining _ _ _ _ _ _ Hs) in Hm. destruct Hm as (Ho & Er & Ei).
      split; [ exact Hsig | ]. rewrite Ho. split; [ discriminate | ].
      exists tt. split; [ reflexivity | ]. split; [ | split ].
      - destruct (standing_calm i e (ep :: rest) w w l _ Hs eq_refl Hc)
          as [_ Hi He Hn Hb Hp Hf].
        now split.
      - exact Ei.
      - rewrite (proj1 Hc); [ exact Hr | in_keys ]. }
    intros _. apply leads_done. auto. }
  intros got. apply leads_assume. intros ->. cbn iota.
  apply leads_bind with (Q := fun _ => in_epoch i e ep rest false).
  { apply leads_set_status. intros w l (Hs & Hi & Hr). split; [ | split ].
    - apply standing_set_status; [ not_in_keys | exact Hs ].
    - exact Hi.
    - cbn. now rewrite lookup_insert_ne. }
  intros _. apply leads_bind with (Q := fun _ => in_epoch i e ep rest false).
  { apply leads_run_extensions; [ apply steady_in_epoch | discriminate ]. }
  intros _. apply leads_done. auto.
Qed.

Lemma leads_start_epoch_none (i e : Z) :
  leads (between i e []) start_epoch
    (returning (fun go w l => go = false /\ standing i e [] w l)).
Proof.
  unfold start_epoch.
  apply leads_bind
    with (Q := fun started w l => started = false /\ between i e [] w l).
  { eapply leads_weaken;
      [ apply (leads_gets _ _ (fun w l => flag (status l) "epoch_started"));
        reflexivity | intros w l Hp; exact Hp | ].
    intros r w l (a & -> & -> & Hs & Hf). exists false.
    rewrite Hf. split; [ reflexivity | ]. split; [ reflexivity | now split ]. }
  intros started. apply leads_assume. intros ->. cbn iota.
  apply leads_bind
    with (Q := fun got w l => got = false /\ standing i e [] w l).
  { eapply leads_try_except_raise
      with (e := StopIteration) (Q := standing i e []) (k := ret false).
    - apply leads_bind with (Q := fun _ => standing i e []).
      { apply leads_set_status. intros w l [Hs _].
        apply standing_set_status; [ not_in_keys | exact Hs ]. }
      intros _. apply leads_bind_raise.
      apply leads_invoke. intros w l Hs.
      destruct (str_get_epoch_iterator _ _ _ _ Hstream w l) as ([Hsig Hc] & Hm).
      rewrite (st_remaining _ _ _ _ _ _ Hs) in Hm. destruct Hm as (Ho & Er).
      split; [ exact Hsig | ]. rewrite Ho. split; [ discriminate | ].
      split; [ reflexivity | ].
      destruct (standing_calm i e [] w w l _ Hs eq_refl Hc)
        as [_ Hi He Hn Hb Hp Hf].
      now split.
    - reflexivity.
    - apply leads_done. auto. }
  intros got. apply leads_assume. intros ->. cbn iota.
  apply leads_done. auto.
Qed.

(** An epoch that the stream still has is read to its end, counted and
    recorded. *)
Lemma leads_run_epoch_some (fuel : nat) (i e : Z) (ep : list Batch)
    (rest : list (list Batch)) :
  ep <> [] -> Forall good ep -> (length ep < fuel)%nat ->
  leads (between i e (ep :: rest)) (_run_epoch fuel)
    (returning (fun again w l =>
                  again = true /\
                  between (i + Z.of_nat (length ep)) (e + 1) rest w l)).
Proof.
  intros Hne Hg Hl. unfold _run_epoch.
  eapply leads_bind; [ apply leads_start_epoch_some | ].
  intros go. apply leads_assume. intros ->. cbn iota.
  set (j := (i + Z.of_nat (length ep))%Z).
  apply leads_bind with (Q := fun _ => standing j e rest).
  { apply leads_TimeIt;
      [ apply balanced_iterations | apply returning_ends | ].
    apply leads_iterations; auto. }
  intros _. apply leads_bind with (Q := fun _ => between j e rest).
  { apply leads_set_status. intros w l Hs. split.
    - apply standing_set_status; [ not_in_keys | exact Hs ].
    - unfold flag. cbn. now rewrite lookup_insert_eq. }
  intros _. apply leads_bind with (Q := fun _ => between j (e + 1) rest).
  { apply leads_increment_status with (i := e). intros w l [Hs Hf].
    split; [ exact (st_epochs _ _ _ _ _ _ Hs) | ].
    split; [ now apply standing_completed | ].
    rewrite (flag_same (status l)); [ exact Hf | ].
    cbn. now rewrite lookup_insert_ne. }
  intros _. apply leads_bind with (Q := fun _ => between j (e + 1) rest).
  { apply leads_append_status. intros w l [Hs Hf].
    destruct (st_ends _ _ _ _ _ _ Hs) as [ends Hn].
    exists ends, (VInt j). split; [ exact Hn | ].
    split; [ exact (st_iterations _ _ _ _ _ _ Hs) | ].
    split; [ now apply standing_boundary | ].
    rewrite (flag_same (status l)); [ exact Hf | ].
    cbn. now rewrite lookup_insert_ne. }
  intros _. apply leads_bind with (Q := fun _ => between j (e + 1) rest).
  { apply leads_run_extensions; [ apply steady_between | discriminate ]. }
  intros _. apply leads_bind with (Q := fun _ => between j (e + 1) rest).
  { apply leads_check_finish_training. intros w l ([_ _ _ _ Hbi Hei Hf] & _).
    auto. }
  intros _. apply leads_done. auto.
Qed.

Lemma leads_run_epoch_none (fuel : nat) (i e : Z) :
  leads (between i e []) (_run_epoch fuel)
    (returning (fun again w l => again = false /\ standing i e [] w l)).
Proof.
  unfold _run_epoch.
  eapply leads_bind; [ apply leads_start_epoch_none | ].
  intros go. apply leads_assume. intros ->. cbn iota.
  apply leads_done. auto.
Qed.

(** The [while] loop of [run] reads the stream to its end: every epoch
    is completed and counted. *)
Lemma leads_epochs (inner : nat) (eps : list (list Batch)) :
  forall (fuel : nat) (i e : Z),
    Forall (fun ep => ep <> [] /\ Forall good ep /\ (length ep < inner)%nat) eps ->
    (length eps < fuel)%nat ->
    leads (between i e eps) (epochs inner fuel)
      (returning (fun _ =>
                    standing (i + Z.of_nat (length (concat eps)))
                             (e + Z.of_nat (length eps)) [])).
Proof.
  induction eps as [ | ep eps IH ]; intros fuel i e Hf Hl;
    (destruct fuel as [ | fuel ]; [ cbn in Hl; lia | ]); cbn [epochs].
  - eapply leads_bind; [ apply leads_run_epoch_none | ].
    intros again. apply leads_assume. intros ->. cbn iota.
    apply leads_done. intros w l Hs. cbn. now rewrite !Z.add_0_r.
  - inversion Hf as [ | ? ? (Hne & Hg & Hle) Hf' ]; subst.
    eapply leads_bind; [ now apply leads_run_epoch_some | ].
    intros again. apply leads_assume. intros ->. cbn iota.
    eapply leads_weaken;
      [ apply (IH fuel (i + Z.of_nat (length ep))%Z (e + 1)%Z Hf');
        cbn in Hl; lia | auto | ].
    intros r w l (a & -> & Hs). exists a. split; [ reflexivity | ].
    replace (i + Z.of_nat (length (concat (ep :: eps))))%Z
      with (i + Z.of_nat (length ep) + Z.of_nat (length (concat eps)))%Z
      by (cbn [concat]; rewrite length_app; lia).
    replace (e + Z.of_nat (length (ep :: eps)))%Z
      with (e + 1 + Z.of_nat (length eps))%Z by (cbn [length]; lia).
    exact Hs.
Qed.

(** *** The run *)

Lemma between_set_status (i e : Z) (eps : list (list Batch)) (w : World)
    (l : Log) (k : string) (v : value) :
  k ∉ ["iterations_done"; "epochs_done"; "_epoch_ends";
       "epoch_interrupt_received"; "batch_interrupt_received";
       "epoch_started"] ->
  between i e eps w l ->
  between i e eps w (mkLog (<[k := v]> (status l)) (current_row l)).
Proof.
  intros Hk [Hs Hf]. split.
  - apply standing_set_status; [ | exact Hs ].
    intros Hin. apply Hk. revert Hin. rewrite !elem_of_cons. tauto.
  - rewrite (flag_same (status l)); [ exact Hf | ].
    cbn. rewrite lookup_insert_ne; [ reflexivity | ].
    intros ->. apply Hk. rewrite !elem_of_cons. tauto.
Qed.

Lemma between_cleared (i e : Z) (eps : list (list Batch)) (w : World) (l : Log)
    (k : string) :
  k = "epoch_interrupt_received" \/ k = "batch_interrupt_received" ->
  between i e eps w l ->
  between i e eps w (mkLog (<[k := VBool false]> (status l)) (current_row l)).
Proof.
  intros Hk [Hs Hf]. split; [ now apply standing_cleared | ].
  rewrite (flag_same (status l)); [ exact Hf | ].
  cbn. destruct Hk as [-> | ->]; now rewrite lookup_insert_ne.
Qed.

(** The [try] block of [run] over a stream of good epochs: the loop
    is started or resumed, and every epoch is read to its end. *)
Lemma leads_run_try (fuel : nat) (i e : Z) (eps : list (list Batch))
    (started : value) :
  fits good fuel eps ->
  leads (fun w l => between i e eps w l /\
                    status l !! "training_started" = Some started)
    (run_try fuel)
    (returning (fun _ =>
                  standing (i + Z.of_nat (length (concat eps)))
                           (e + Z.of_nat (length eps)) [])).
Proof.
  intros [Hf Hl]. unfold run_try.
  apply leads_bind
    with (Q := fun _ w l => between i e eps w l /\
                            status l !! "training_started" = Some started);
    [ apply leads_record_event | ].
  intros _.
  apply leads_bind
    with (Q := fun v w l => v = started /\ between i e eps w l).
  { eapply leads_weaken;
      [ apply (leads_status_item
                 (fun w l => between i e eps w l /\
                             status l !! "training_started" = Some started)
                 "training_started" started);
        intros w l [_ Hr]; exact Hr
      | intros w l Hp; exact Hp | ].
    intros r w l (v & -> & -> & Hs & _). exists started. auto. }
  intros v. apply leads_assume. intros Ev. subst v.
  apply leads_bind with (Q := fun _ => between i e eps).
  { destruct (truthy started); cbn [negb].
    - apply leads_done. auto.
    - apply leads_bind with (Q := fun _ => between i e eps).
      { apply leads_run_extensions; [ apply steady_between | discriminate ]. }
      intros _. apply leads_bind with (Q := fun _ => between i e eps).
      { apply leads_TimeIt;
          [ apply balanced_invoke | apply returning_ends | ].
        apply leads_invoke. intros w l Hp.
        destruct (str_initialize _ _ _ _ Hstream w l)
          as (Ho & [Hsig Hc] & [Er Ei]).
        split; [ exact Hsig | ]. rewrite Ho. split; [ discriminate | ].
        exists tt. split; [ reflexivity | ].
        exact (steady_between i e eps _ _ _ _ Hp Er Ei Hc). }
      intros _. apply leads_set_status. intros w l Hp.
      apply between_set_status; [ not_in_keys | exact Hp ]. }
  intros _.
  apply leads_bind
    with (Q := fun v w l => v = VInt i /\ between i e eps w l).
  { eapply leads_weaken;
      [ apply (leads_status_item (between i e eps) "iterations_done" (VInt i));
        intros w l [Hs _]; exact (st_iterations _ _ _ _ _ _ Hs)
      | intros w l Hp; exact Hp | ].
    intros r w l (v & -> & -> & Hp). exists (VInt i). auto. }
  intros v. apply leads_assume. intros ->.
  apply leads_bind with (Q := fun _ => between i e eps).
  { destruct (positive (VInt i)).
    - apply leads_bind with (Q := fun _ => between i e eps).
      { apply leads_run_extensions; [ apply steady_between | discriminate ]. }
      intros _. apply leads_bind with (Q := fun _ => between i e eps).
      { apply leads_set_status. intros w l Hp.
        apply between_cleared; [ now left | exact Hp ]. }
      intros _. apply leads_set_status. intros w l Hp.
      apply between_cleared; [ now right | exact Hp ].
    - apply leads_done. auto. }
  intros _. apply leads_TimeIt;
    [ apply balanced_epochs | apply returning_ends | ].
  now apply leads_epochs.
Qed.

Lemma at_try_extensions (s : State) : extensions (at_try s) = extensions s.
Proof.
  unfold at_try, sanity_check, bind, gets.
  destruct (model_and_minimizer (world s)); cbn;
    repeat match goal with
           | |- context [if ?b then _ else _] => destruct b; cbn
           end; reflexivity.
Qed.

(** The [finally] block when nothing is left to read. *)
Lemma leads_run_finally (P : World -> Log -> Prop) :
  steady P ->
  leads P run_finally
    (fun r w l => r <> Timeout /\ (profile = false -> r = Val tt) /\ P w l).
Proof.
  intros HP. unfold run_finally.
  apply leads_bind with (Q := fun _ => P).
  { intros s Hx Hs. exists (Val (flag (current_row (log s)) "training_finished")), s.
    split; [ reflexivity | ]. split; [ exact Hx | ]. eexists. eauto. }
  intros finished. apply leads_bind with (Q := fun _ => P).
  { destruct finished.
    - apply leads_run_extensions; [ exact HP | discriminate ].
    - apply leads_done. auto. }
  intros _ s Hx Hs. unfold bind.
  destruct profile.
  - unfold timer_report.
    pose proof (report_outcome_holds (timer s)) as Hr.
    destruct (Timer.report (timer s)) as [[[] | ex | ] out]; cbn in Hr.
    + eexists _, _. split; [ reflexivity | ].
      split; [ exact Hx | ]. split; [ discriminate | ].
      split; [ discriminate | exact Hs ].
    + eexists _, _. split; [ reflexivity | ].
      split; [ exact Hx | ]. split; [ discriminate | ].
      split; [ discriminate | exact Hs ].
    + contradiction.
  - eexists _, _. split; [ reflexivity | ].
    split; [ exact Hx | ]. split; [ discriminate | ].
    split; [ reflexivity | exact Hs ].
Qed.

(** A run with no failure and no interruption over the epochs [eps],
    from [i] batches and [e] epochs counted: it comes to an end, and
    then the stream is read to the end, [i] plus the number of batches
    of [eps] are counted, and [e] plus the number of epochs of [eps]. *)
Lemma run_reads_stream (fuel : nat) (s : State) (i e : Z)
    (eps : list (list Batch)) (started : value) :
  extensions s = exts ->
  between i e eps (world s) (log s) ->
  status (log s) !! "training_started" = Some started ->
  fits good fuel eps ->
  exists (r : res unit) (s' : State),
    run fuel s = (r, s') /\
    r <> Timeout /\ (profile = false -> r = Val tt) /\
    standing (i + Z.of_nat (length (concat eps)))
             (e + Z.of_nat (length eps)) [] (world s') (log s').
Proof.
  intros Hx Hb Hst Hfit. rewrite at_try_run.
  destruct (at_try_facts s) as (El & Ew & _).
  destruct (leads_run_try fuel i e eps started Hfit (at_try s))
    as (r1 & s1 & E1 & Hx1 & [] & -> & Hs1).
  { now rewrite at_try_extensions. }
  { rewrite El, Ew. now split. }
  destruct (leads_run_finally _ (steady_standing _ _ _) s1 Hx1 Hs1)
    as (r2 & s2 & E2 & Hx2 & Hr2 & Hp2 & Hs2).
  unfold try_finally, try_except. rewrite E1, E2.
  destruct r2 as [[] | ex | ].
  - exists (Val tt), s2. split; [ reflexivity | ].
    split; [ discriminate | ]. split; [ reflexivity | exact Hs2 ].
  - exists (Raise ex), s2. split; [ reflexivity | ].
    split; [ discriminate | ]. split; [ exact Hp2 | exact Hs2 ].
  - now contradiction Hr2.
Qed.

End Stream.

(** C4.  With collaborators that leave the status keys
    [iterations_done], [epochs_done] and [_epoch_ends] to the loop, at
    the end of any run, of any epoch step and of any batch step, however
    it ended: [iterations_done] has grown by exactly the number of calls
    of [process_batch] that returned, [epochs_done] by exactly the
    number of epochs completed (those whose [after_epoch] phase was
    started), and as many entries were appended to the history of epoch
    boundaries.  Neither counter decreases.  Counted from zero, the final
    values are the number of batches processed and of epochs completed.
    The increment of [iterations_done] sits between the return of
    [process_batch] and the [after_batch] phase; the increment of
    [epochs_done] between the exhaustion of the epoch iterator and the
    [after_epoch] phase.  And a run with no failure and no interruption
    over a data stream that has [E] epochs to give, none empty, of [N]
    batches in all, started between two epochs with enough fuel, comes
    to an end with the stream read to its end, [iterations_done] grown
    by [N] and [epochs_done] by [E]. *)
Theorem counters_count_batches_and_epochs :
  all_respect (same_status_on counter_keys) ->
  (forall (fuel : nat) (s s' : State) (r : res unit) (i e : Z) (l : list value),
      run fuel s = (r, s') ->
      status (log s) !! "iterations_done" = Some (VInt i) ->
      status (log s) !! "epochs_done" = Some (VInt e) ->
      status (log s) !! "_epoch_ends" = Some (VList l) ->
      exists (tl : list (@event Batch Ext)) (l' : list value),
        trace s' = trace s ++ tl /\
        status (log s') !! "iterations_done" = Some (VInt (i + processed tl)) /\
        status (log s') !! "epochs_done" = Some (VInt (e + completed tl)) /\
        status (log s') !! "_epoch_ends" = Some (VList (l ++ l')) /\
        Z.of_nat (length l') = completed tl /\
        (i <= i + processed tl)%Z /\ (e <= e + completed tl)%Z /\
        (i = 0%Z -> e = 0%Z ->
         status (log s') !! "iterations_done" = Some (VInt (processed tl)) /\
         status (log s') !! "epochs_done" = Some (VInt (completed tl)))) /\
  (forall fuel, frame tracks (_run_epoch fuel)) /\
  frame tracks _run_iteration /\
  (forall (s s0 s1 : State) (batch : Batch) (i : Z),
      read_data s = (Val (Some batch), s0) ->
      bind (_run_extensions "before_batch" (Some batch)) (fun _ =>
            TimeIt "batch"
              (invoke (ProcessBatch batch) (algorithm_process_batch batch)))
        (set_status "received_first_batch" (VBool true) s0) = (Val tt, s1) ->
      status (log s1) !! "iterations_done" = Some (VInt i) ->
      _run_iteration s =
        bind (_run_extensions "after_batch" (Some batch)) (fun _ =>
        bind (_check_finish_training "batch") (fun _ => ret true))
          (set_status "iterations_done" (VInt (i + 1)) s1)) /\
  (forall (fuel : nat) (s s1 s2 : State) (e : Z),
      start_epoch s = (Val true, s1) ->
      TimeIt "epoch" (iterations fuel) s1 = (Val tt, s2) ->
      status (log s2) !! "epochs_done" = Some (VInt e) ->
      _run_epoch fuel s =
        bind (append_status "_epoch_ends" "iterations_done") (fun _ =>
        bind (_run_extensions "after_epoch" None) (fun _ =>
        bind (_check_finish_training "epoch") (fun _ => ret true)))
          (set_status "epochs_done" (VInt (e + 1))
             (set_status "epoch_started" (VBool false) s2))) /\
  (forall (remaining : World -> list (list Batch))
          (iterator : World -> list Batch) (good : Batch -> Prop)
          (fuel : nat) (s : State) (i e : Z) (eps : list (list Batch))
          (started : value),
      streaming remaining iterator good (extensions s) ->
      between remaining i e eps (world s) (log s) ->
      status (log s) !! "training_started" = Some started ->
      fits good fuel eps ->
      exists (r : res unit) (s' : State),
        run fuel s = (r, s') /\
        r <> Timeout /\ (profile = false -> r = Val tt) /\
        remaining (world s') = [] /\
        status (log s') !! "iterations_done" =
          Some (VInt (i + Z.of_nat (length (concat eps)))) /\
        status (log s') !! "epochs_done" =
          Some (VInt (e + Z.of_nat (length eps)))).
Proof.
  intros Hresp. split; [ | split; [ | split; [ | split; [ | split ] ] ] ].
  - intros fuel s s' r i e l E Hi He Hl.
    destruct (tracks_run Hresp fuel s r s' E i e l Hi He Hl)
      as (tl & l' & Et & Hi' & He' & Hl' & Hn).
    exists tl, l'.
    do 5 (split; [ assumption | ]).
    split; [ unfold processed; lia | ].
    split; [ unfold completed; lia | ].
    intros -> ->. now rewrite Z.add_0_l in Hi', He'.
  - intros fuel. now apply tracks_run_epoch.
  - now apply tracks_run_iteration.
  - intros s s0 s1 batch i Er Ew Hi. unfold _run_iteration.
    erewrite bind_val by exact Er. cbn iota. unfold bind at 1, modify.
    destruct (bind_inv _ _ _ _ _ Ew) as [([] & t1 & E1 & E2) | [(e & _ & Ee) | [_ Ee]]];
      try discriminate Ee.
    erewrite bind_val by exact E1. erewrite bind_val by exact E2.
    unfold increment_status. unfold bind at 1 2, status_item. rewrite Hi. reflexivity.
  - intros fuel s s1 s2 e Es Ei He. unfold _run_epoch.
    erewrite bind_val by exact Es. cbn iota.
    erewrite bind_val by exact Ei. unfold bind at 1, modify.
    unfold increment_status. unfold bind at 1 2, status_item. cbn.
    rewrite lookup_insert_ne by discriminate. rewrite He. reflexivity.
- intros remaining iterator good fuel s i e eps started Hstr Hb Hst Hfit.
    destruct (run_reads_stream remaining iterator good (extensions s) Hstr
                fuel s i e eps started eq_refl Hb Hst Hfit)
      as (r & s' & E & Hr & Hp & [Hrem Hi He _ _ _ _]).
    exists r, s'. auto 7.
Qed.

(** X8.  [_run_extensions] calls the extensions in the order of the
    list, each with the phase's name and arguments, and stops at the
    first one that raises: the calls recorded after the start of the
    phase are those of the whole list if the phase returns, and those of
    the extensions up to and including the failing one if it raises. *)
Theorem extensions_run_in_order
    (name : string) (payload : option Batch) (s : State) :
  exists tl,
    trace (snd (_run_extensions name payload s)) = trace s ++ Phase name :: tl /\
    match fst (_run_extensions name payload s) with
    | Val _ =>
        calls_of tl =
          map (fun e => (Dispatch e name payload, None)) (extensions s)
    | Raise ex =>
        exists done e rest,
          extensions s = done ++ e :: rest /\
          calls_of tl =
            map (fun e => (Dispatch e name payload, None)) done
              ++ [(Dispatch e name payload, Some ex)]
    | Timeout =>
        exists done rest,
          extensions s = done ++ rest /\
          calls_of tl = map (fun e => (Dispatch e name payload, None)) done
    end.
Proof.
  destruct (_run_extensions name payload s) as [r s'] eqn:E.
  destruct (run_extensions_calls _ _ _ _ _ E) as (tl & Etl & Hc).
  exists tl. cbn [fst snd]. split; [ exact Etl | exact Hc ].
Qed.

(** ** An ordinary error *)

Lemma run_extensions_trace (name : string) (payload : option Batch)
    (s s' : State) (r : res unit) :
  _run_extensions name payload s = (r, s') ->
  exists tl, trace s' = trace s ++ Phase name :: tl.
Proof.
  intros E. unfold _run_extensions in E. unfold bind at 1, modify in E.
  pose proof (appends_stepwise (fun _ : @event Batch Ext => True)) as HR.
  pose proof anything_is_noise as Hn.
  assert (Hfr : frame (appends (fun _ => True))
                  (TimeIt name (bind (gets extensions)
                                  (fun exts => dispatch_all exts name payload)))).
  { apply (steps_TimeIt _ _ HR), (steps_bind _ _ HR); [ apply (steps_gets _ _ HR) | ].
    intros exts. apply (steps_dispatch_all _ _ HR Hn). repeat split. }
  destruct (Hfr _ _ _ E) as (tl & Etl & _).
  exists tl. rewrite Etl. cbn. now rewrite <- app_assoc.
Qed.

Section ErrorRow.

Hypothesis row_respected : all_respect (keeps_row "got_exception").

Let R := keeps_row "got_exception".

Lemma keeps_row_refl (l : Log) : R l l.
Proof. reflexivity. Qed.

Lemma keeps_row_trans (l1 l2 l3 : Log) : R l1 l2 -> R l2 l3 -> R l1 l3.
Proof. unfold R, keeps_row. congruence. Qed.

Lemma keeps_row_interrupts : allows_interrupts R.
Proof.
  unfold R, keeps_row. repeat split; intros l v; cbn; try reflexivity;
    now rewrite lookup_insert_ne.
Qed.

Lemma keeps_row_run_extensions (name : string) (payload : option Batch) :
  log_frame R (_run_extensions name payload).
Proof.
  apply (log_frame_run_extensions R keeps_row_refl keeps_row_trans
           keeps_row_interrupts row_respected).
Qed.

Lemma keeps_row_error_handling (e : exn) :
  log_frame R
    (bind (try_except
             (_run_extensions "on_error" None)
             (fun inner_e =>
                if is_Exception inner_e then
                  Some (bind (logger "error" (format_exc inner_e)) (fun _ =>
                        logger "error"
                          ("Error occured when running extensions."
                           +:+ error_in_error_handling_message)))
                else None))
          (fun _ => raise e : Comp unit)).
Proof.
  apply (log_frame_bind R keeps_row_trans).
  - apply (log_frame_try_except R keeps_row_trans).
    + apply keeps_row_run_extensions.
    + intros e' k. destruct (is_Exception e'); [ | discriminate ].
      intros E. inversion E.
      apply (log_frame_bind R keeps_row_trans);
        [ | intros _ ]; apply (log_frame_logger R keeps_row_refl).
  - intros _. apply (log_frame_raise R keeps_row_refl).
Qed.

Lemma keeps_row_run_finally : log_frame R run_finally.
Proof.
  unfold run_finally.
  apply (log_frame_bind R keeps_row_trans); [ apply (log_frame_gets R keeps_row_refl) | ].
  intros finished. apply (log_frame_bind R keeps_row_trans).
  { destruct finished;
      [ apply keeps_row_run_extensions | apply (log_frame_ret R keeps_row_refl) ]. }
  intros _. apply (log_frame_bind R keeps_row_trans).
  { destruct profile; [ | apply (log_frame_ret R keeps_row_refl) ].
    apply (log_frame_still R keeps_row_refl). intros s r s' E.
    unfold timer_report in E. destruct (Timer.report (timer s)).
    now inversion E. }
  intros _. apply (log_frame_modify R). reflexivity.
Qed.

End ErrorRow.

(** X9.  The [except Exception] clause, as Python 2 runs it (there
    [traceback.format_exc(e)] returns the formatted traceback).  When an
    ordinary error (an [Exception] other than the finish signal) leaves
    the [try] block, a run that comes to an end never returns normally:
    it raises.  Meanwhile it has logged the error and started the
    [on_error] phase.  If moreover no collaborator touches the entry
    [got_exception] of the current row, that entry holds the formatted
    error when the run ends. *)
Theorem ordinary_error_is_recorded_and_raised
    (fuel : nat) (s s1 s' : State) (e : exn) (r : res unit) :
  run_try fuel (at_try s) = (Raise e, s1) ->
  is_TrainingFinish e = false ->
  is_Exception e = true ->
  run fuel s = (r, s') ->
  r <> Timeout ->
  (exists e', r = Raise e') /\
  (exists tl,
     trace s' =
       trace s1
         ++ Logged "error" ("Error occured during training." +:+ error_message)
         :: Phase "on_error" :: tl) /\
  (all_respect (keeps_row "got_exception") ->
   current_row (log s') !! "got_exception" = Some (VStr (format_exc e))).
Proof.
  intros E Hnf Hex Erun Hr. rewrite at_try_run in Erun.
  set (s2 := record_event
               (Logged "error" ("Error occured during training." +:+ error_message))
               (set_row "got_exception" (VStr (format_exc e))
                  (_restore_signal_handlers s1))).
  assert (ET : try_except (run_try fuel) run_handlers (at_try s)
               = on_exception e s1).
  { unfold try_except. rewrite E. unfold run_handlers. now rewrite Hnf, Hex. }
  destruct (on_exception e s1) as [rT sT] eqn:Eon.
  assert (HrT : forall a, rT <> Val a).
  { intros a ->. now apply on_exception_raises in Eon. }
  rewrite on_exception_unfold in Eon. fold s2 in Eon.
  assert (HtrT : exists tl, trace sT = trace s2 ++ Phase "on_error" :: tl).
  { pose proof (appends_stepwise (fun _ : @event Batch Ext => True)) as HR.
    pose proof anything_is_noise as Hn.
    destruct (bind_inv _ _ _ _ _ Eon) as [(a & s3 & E3 & E4) | [(e' & E3 & _) | [E3 _]]].
    - inversion E4; subst sT.
      destruct (try_except_inv _ _ _ _ _ E3) as [(e' & s4 & k & E5 & Ek & E6) | [E5 _]].
      + destruct (run_extensions_trace _ _ _ _ _ E5) as (tl & Etl).
        destruct (is_Exception e'); [ | discriminate Ek ].
        inversion Ek; subst k.
        assert (Hk : frame (appends (fun _ => True))
                       (bind (logger "error" (format_exc e')) (fun _ =>
                        logger "error"
                          ("Error occured when running extensions."
                           +:+ error_in_error_handling_message)))).
        { apply (steps_bind _ _ HR); [ | intros _ ];
            apply (steps_logger _ _ HR Hn). }
        destruct (Hk _ _ _ E6) as (tl2 & Etl2 & _).
        exists (tl ++ tl2). rewrite Etl2, Etl. now rewrite <- app_assoc.
      + apply (run_extensions_trace _ _ _ _ _ E5).
    - destruct (try_except_inv _ _ _ _ _ E3) as [(e'' & s4 & k & E5 & Ek & E6) | [E5 _]].
      + destruct (run_extensions_trace _ _ _ _ _ E5) as (tl & Etl).
        destruct (is_Exception e''); [ | discriminate Ek ].
        inversion Ek; subst k.
        destruct (bind_inv _ _ _ _ _ E6)
          as [(a & s5 & E7 & E8) | [(e3 & E7 & _) | [E7 _]]];
          inversion E7; subst; try (inversion E8; subst).
        all: eexists; cbn [trace record_event]; rewrite Etl;
          rewrite <- ?app_assoc; cbn [app]; reflexivity.
      + apply (run_extensions_trace _ _ _ _ _ E5).
    - destruct (try_except_inv _ _ _ _ _ E3) as [(e'' & s4 & k & E5 & Ek & E6) | [E5 _]].
      + destruct (run_extensions_trace _ _ _ _ _ E5) as (tl & Etl).
        destruct (is_Exception e''); [ | discriminate Ek ].
        inversion Ek; subst k.
        destruct (bind_inv _ _ _ _ _ E6)
          as [(a & s5 & E7 & E8) | [(e3 & E7 & _) | [E7 _]]];
          inversion E7; subst; try (inversion E8; subst).
      + apply (run_extensions_trace _ _ _ _ _ E5). }
  destruct HtrT as (tlT & EtlT).
  assert (Hrow2 : current_row (log s2) !! "got_exception"
                  = Some (VStr (format_exc e)))
    by (cbn; apply lookup_insert_eq).
  assert (Hend : forall rF, run_finally sT = (rF, s') ->
            (exists tl,
               trace s' =
                 trace s1
                   ++ Logged "error"
                        ("Error occured during training." +:+ error_message)
                   :: Phase "on_error" :: tl) /\
            (all_respect (keeps_row "got_exception") ->
             current_row (log s') !! "got_exception"
               = Some (VStr (format_exc e)))).
  { intros rF EF. split.
    2: { intros Hresp.
         rewrite (keeps_row_run_finally Hresp _ _ _ EF).
         rewrite (keeps_row_error_handling Hresp e _ _ _ Eon). exact Hrow2. }
    - pose proof (appends_stepwise (fun _ : @event Batch Ext => True)) as HR.
      pose proof anything_is_noise as Hn.
      assert (Hfin : frame (appends (fun _ => True)) run_finally).
      { apply (steps_run_finally _ _ HR Hn); [ repeat split | ].
        intros _ s0 out. now apply appends_same. }
      destruct (Hfin _ _ _ EF) as (tlF & EtlF & _).
      exists (tlT ++ tlF). rewrite EtlF, EtlT. cbn.
      rewrite <- !app_assoc. reflexivity. }
  unfold try_finally in Erun. rewrite ET in Erun. clear ET.
  destruct rT as [a | eT | ].
  - now contradiction (HrT a).
  - destruct (run_finally sT) as [[[] | eF | ] sF] eqn:EF;
      inversion Erun; subst; try (now contradiction Hr);
      (split; [ eauto | exact (Hend _ eq_refl) ]).
  - inversion Erun; subst. now contradiction Hr.
Qed.


(** ** The order of the sections *)

Lemma order_grows_refl (s s' : State) : timer s' = timer s -> order_grows s s'.
Proof. intros E. exists []. rewrite E, app_nil_r. auto. Qed.

Lemma order_grows_trans (s1 s2 s3 : State) :
  order_grows s1 s2 -> order_grows s2 s3 -> order_grows s1 s3.
Proof.
  intros (m1 & E1 & N1) (m2 & E2 & N2). exists (m1 ++ m2).
  split; [ now rewrite E2, E1, app_assoc | auto ].
Qed.

Lemma order_grows_enter (name : string) (s : State) :
  order_grows s (with_timer (Timer.enter name (timer s)) s).
Proof.
  unfold order_grows. cbn. unfold Timer.ordered_add.
  case_decide as Hin.
  - exists []. rewrite app_nil_r. auto.
  - exists [Timer.current (timer s) ++ [name]]. split; [ reflexivity | ].
    intros Hnd. apply NoDup_app. split; [ exact Hnd | ]. split.
    + intros k Hk Hk'. apply list_elem_of_singleton in Hk'. now subst.
    + apply NoDup_singleton.
Qed.

Lemma order_grows_exit (elapsed : Q) (s : State) :
  order_grows s (with_timer (snd (Timer.exit elapsed (timer s))) s).
Proof.
  exists []. rewrite app_nil_r. cbn. unfold Timer.exit.
  destruct (Timer.pop (Timer.current (timer s))); cbn; auto.
Qed.

Lemma order_grows_TimeIt {A} (name : string) (body : Comp A) :
  frame order_grows body -> frame order_grows (TimeIt name body).
Proof.
  intros Hb. unfold TimeIt.
  apply frame_bind; [ exact order_grows_trans | | intros _ ].
  { intros s r s' E. inversion E; subst.
    eapply order_grows_trans; [ apply order_grows_enter | now apply order_grows_refl ]. }
  apply frame_bind; [ exact order_grows_trans | | intros start ].
  { intros s r s' E. inversion E; subst. now apply order_grows_refl. }
  apply frame_try_finally; [ exact order_grows_trans | exact Hb | ].
  apply frame_bind; [ exact order_grows_trans | | intros now ].
  { intros s r s' E. inversion E; subst. now apply order_grows_refl. }
  intros s r s' E. unfold timer_exit in E.
  pose proof (order_grows_exit (now - start) s) as Hx.
  destruct (Timer.exit (now - start) (timer s)) as [r0 tm]. inversion E; subst.
  eapply order_grows_trans; [ exact Hx | now apply order_grows_refl ].
Qed.

(** X13.  The timer records the sections in the order in which they
    were first entered: over a whole run, whatever its outcome, the
    sequence of seen paths only grows at its end, and no path comes to
    be listed twice. *)
Theorem run_keeps_first_entry_order (fuel : nat) (s : State) :
  exists more,
    Timer.order (timer (snd (run fuel s))) = Timer.order (timer s) ++ more /\
    (NoDup (Timer.order (timer s)) ->
     NoDup (Timer.order (timer (snd (run fuel s))))).
Proof.
  assert (Hrun : frame order_grows (run fuel)).
  { apply (structural_run (fun A m => frame order_grows m)).
    - intros A m Hm s0 r s' E. apply order_grows_refl. now destruct (Hm _ _ _ E).
    - intros A B m f. apply frame_bind, order_grows_trans.
    - intros A m h. apply frame_try_except, order_grows_trans.
    - intros A m fin. apply frame_try_finally, order_grows_trans.
    - intros A name body. apply order_grows_TimeIt. }
  destruct (run fuel s) as [r s'] eqn:E. exact (Hrun _ _ _ E).
Qed.

(** ** One section of the timer *)

(** X12.  [enter] followed by [exit] is a round trip on the stack of
    open sections: [exit] returns, the stack is as before, the elapsed
    time is added to the total of the entered path and to no other, and
    the path is appended to the seen paths unless it was there.  [exit]
    with no section open raises [IndexError], after it has added the
    time to the total of the empty path. *)
Theorem timer_enter_then_exit (tm : Timer.t) (name : string) (t : Q) :
  let k := Timer.current tm ++ [name] in
  let tm' := snd (Timer.exit t (Timer.enter name tm)) in
  fst (Timer.exit t (Timer.enter name tm)) = Val tt /\
  Timer.current tm' = Timer.current tm /\
  (forall k', Timer.get (Timer.total tm') k' =
              if decide (k = k') then (Timer.get (Timer.total tm) k + t)%Q
              else Timer.get (Timer.total tm) k') /\
  Timer.order tm' =
    (if decide (k ∈ Timer.order tm) then Timer.order tm
     else Timer.order tm ++ [k]) /\
  (Timer.current tm = [] ->
   fst (Timer.exit t tm) = Raise IndexError /\
   Timer.current (snd (Timer.exit t tm)) = [] /\
   Timer.get (Timer.total (snd (Timer.exit t tm))) []
     = (Timer.get (Timer.total tm) [] + t)%Q).
Proof.
  cbv zeta.
  rewrite (timer_exit_snoc t (Timer.enter name tm) (Timer.current tm) name eq_refl).
  cbn [fst snd Timer.current Timer.total Timer.order Timer.enter].
  split; [ reflexivity | ]. split; [ reflexivity | ].
  split; [ intros k'; apply get_insert | ].
  split; [ reflexivity | ].
  intros Hc. unfold Timer.exit. rewrite Hc. cbn.
  split; [ reflexivity | ]. split; [ reflexivity | ].
  rewrite get_insert. now destruct (decide _).
Qed.

(** ** The end of the data *)

(** The state in which the request for a new epoch iterator ends. *)
Lemma start_epoch_refused (s : State) (e : exn) :
  flag (status (log s)) "epoch_started" = false ->
  outcome (get_epoch_iterator
             (world s)
             (log (set_status "received_first_batch" (VBool false) s)))
    = Raise e ->
  exists s',
    last (trace s') = Some (Called GetEpochIterator (Some e)) /\
    start_epoch s = (if is_StopIteration e then Val false else Raise e, s').
Proof.
  intros Hf Ho.
  destruct (invoke_raises GetEpochIterator get_epoch_iterator
              (set_status "received_first_batch" (VBool false) s) e Ho)
    as (s' & Ei).
  exists s'. split.
  - unfold invoke in Ei.
    change (world (set_status "received_first_batch" (VBool false) s))
      with (world s) in Ei.
    rewrite Ho in Ei. inversion Ei; subst. cbn [trace record_event].
    apply last_snoc.
  - unfold start_epoch. unfold bind at 1, gets. rewrite Hf.
    unfold bind at 1, try_except. unfold bind at 1, modify.
    erewrite bind_raise by exact Ei.
    destruct (is_StopIteration e); reflexivity.
Qed.

(** X11.  The data stream ends the training by refusing a new epoch:
    when [get_epoch_iterator] raises [StopIteration] at the start of an
    epoch, [_run_epoch] returns [False] with that call as its last
    action, so the loop over the epochs ends and returns normally.  Any
    other error of that call leaves [_run_epoch], and the loop, as it
    is. *)
Theorem stream_exhaustion_ends_training
    (inner fuel : nat) (s : State) (e : exn) :
  flag (status (log s)) "epoch_started" = false ->
  outcome (get_epoch_iterator
             (world s)
             (log (set_status "received_first_batch" (VBool false) s)))
    = Raise e ->
  exists s',
    last (trace s') = Some (Called GetEpochIterator (Some e)) /\
    if is_StopIteration e then
      _run_epoch inner s = (Val false, s') /\
      epochs inner (S fuel) s = (Val tt, s')
    else
      _run_epoch inner s = (Raise e, s') /\
      epochs inner (S fuel) s = (Raise e, s').
Proof.
  intros Hf Ho.
  destruct (start_epoch_refused s e Hf Ho) as (s' & Hlast & Es).
  exists s'. split; [ exact Hlast | ].
  destruct (is_StopIteration e).
  - assert (Er : _run_epoch inner s = (Val false, s'))
      by (unfold _run_epoch; erewrite bind_val by exact Es; reflexivity).
    split; [ exact Er | ].
    cbn [epochs]. erewrite bind_val by exact Er. reflexivity.
  - assert (Er : _run_epoch inner s = (Raise e, s'))
      by (unfold _run_epoch; now apply bind_raise).
    split; [ exact Er | ].
    cbn [epochs]. now apply bind_raise.
Qed.

(** ** An error that is not an [Exception] *)

(** X10.  An error that is not an [Exception] ([KeyboardInterrupt],
    [SystemExit]) and leaves the [try] block is caught by neither
    [except] clause: nothing is recorded or logged, [on_error] is not
    run, only the [finally] block follows.  With a current row that does
    not show [training_finished] and without profiling, the run ends in
    the state in which the error arose, the signal dispositions
    restored, and raises that error. *)
Theorem error_outside_Exception_is_not_handled
    (fuel : nat) (s s1 : State) (e : exn) :
  run_try fuel (at_try s) = (Raise e, s1) ->
  is_Exception e = false ->
  try_except (run_try fuel) run_handlers (at_try s) = (Raise e, s1) /\
  run fuel s =
    (match fst (run_finally s1) with
     | Val _ => Raise e
     | other => other
     end, snd (run_finally s1)) /\
  (flag (current_row (log s1)) "training_finished" = false ->
   profile = false ->
   run fuel s = (Raise e, _restore_signal_handlers s1)).
Proof.
  intros E Hex.
  assert (Hh : run_handlers e = None).
  { unfold run_handlers. destruct e; try discriminate Hex; reflexivity. }
  assert (ET : try_except (run_try fuel) run_handlers (at_try s) = (Raise e, s1)).
  { unfold try_except. now rewrite E, Hh. }
  assert (Erun : run fuel s =
                   (match fst (run_finally s1) with
                    | Val _ => Raise e
                    | other => other
                    end, snd (run_finally s1))).
  { rewrite at_try_run. unfold try_finally. rewrite ET.
    destruct (run_finally s1) as [[[] | e' | ] s2]; reflexivity. }
  split; [ exact ET | ]. split; [ exact Erun | ].
  intros Hf Hp.
  assert (EF : run_finally s1 = (Val tt, _restore_signal_handlers s1)).
  { unfold run_finally, bind, gets. rewrite Hf, Hp. reflexivity. }
  rewrite Erun, EF. reflexivity.
Qed.

(** ** A new main loop *)

(** The sanity check and the installation of the handlers add only
    warnings to the trace. *)
Lemma at_try_warns (s : State) :
  appends (fun ev => exists msg, ev = Logged "warning" msg) s (at_try s).
Proof.
  unfold at_try, sanity_check, bind, gets.
  destruct (model_and_minimizer (world s)); cbn;
    repeat match goal with
           | |- context [if ?b then _ else _] => destruct b; cbn
           end;
    eexists;
    (split; [ cbn; rewrite <- ?app_assoc;
              first [ reflexivity | symmetry; apply app_nil_r ]
            | cbn [app]; repeat (constructor; [ eexists; reflexivity | ]);
              constructor ]).
Qed.

(** A computation whose every run starts by adding [evs] to the
    trace. *)
Lemma starts_with_bind {A B} (m : Comp A) (f : A -> Comp B)
    (evs : list (@event Batch Ext)) (s s' : State) (r : res B) :
  (forall r1 s1, m s = (r1, s1) -> exists tl, trace s1 = trace s ++ evs ++ tl) ->
  (forall a, frame (appends (fun _ => True)) (f a)) ->
  bind m f s = (r, s') ->
  exists tl, trace s' = trace s ++ evs ++ tl.
Proof.
  intros Hm Hf E.
  destruct (bind_inv _ _ _ _ _ E) as [(a & s1 & E1 & E2) | [(e & E1 & _) | [E1 _]]].
  - destruct (Hm _ _ E1) as (tl1 & Et1). destruct (Hf a _ _ _ E2) as (tl2 & Et2 & _).
    exists (tl1 ++ tl2). rewrite Et2, Et1. now rewrite <- !app_assoc.
  - apply (Hm _ _ E1).
  - apply (Hm _ _ E1).
Qed.

(** The [try] block on a loop whose training has not started. *)
Lemma run_try_not_started (fuel : nat) (s s' : State) (r : res unit) (v : value) :
  status (log s) !! "training_started" = Some v ->
  truthy v = false ->
  run_try fuel s = (r, s') ->
  exists tl,
    trace s' =
      trace s ++ [Logged "info" "Entered the main loop"; Phase "before_training"]
        ++ tl.
Proof.
  intros Hv Ht E.
  pose proof (appends_stepwise (fun _ : @event Batch Ext => True)) as HR.
  pose proof anything_is_noise as Hn. pose proof anything_is_training as Htr.
  unfold run_try in E. unfold bind at 1, logger, modify in E.
  unfold bind at 1, status_item at 1 in E.
  cbn [log record_event with_log] in E. rewrite Hv, Ht in E. cbn [negb] in E.
  set (s0 := record_event (Logged "info" "Entered the main loop") s) in E.
  assert (Hgoal : exists tl, trace s' = trace s0 ++ [Phase "before_training"] ++ tl).
  { refine (starts_with_bind _ _ _ _ _ _ _ _ E).
    - intros r1 s1 E1.
      refine (starts_with_bind _ _ _ _ _ _ _ _ E1).
      + intros r2 s2 E2.
        destruct (run_extensions_trace _ _ _ _ _ E2) as (tl & Etl).
        exists tl. exact Etl.
      + intros _. apply (steps_bind _ _ HR).
        * apply (steps_TimeIt _ _ HR), (steps_invoke _ _ HR Hn). repeat split.
        * intros _. apply (steps_set_status _ _ HR).
    - intros _. apply (steps_resume_and_train _ _ HR Hn Htr). repeat split. }
  destruct Hgoal as (tl & Etl). exists tl. rewrite Etl. subst s0. cbn.
  now rewrite <- app_assoc.
Qed.

(** X14.  A main loop that has just been constructed always starts its
    training: whatever log it was given, the constructor resets
    [training_started], so the first thing [run] does after the sanity
    warnings and the entry message is the [before_training] phase. *)
Theorem new_loop_runs_before_training
    (w : World) (lg : Log) (exts : list Ext) (hi ht : handler) (fuel : nat) :
  exists warnings tl,
    trace (snd (run fuel (__init__ w lg exts hi ht))) =
      warnings
        ++ [Logged "info" "Entered the main loop"; Phase "before_training"]
        ++ tl /\
    Forall (fun ev => exists msg, ev = Logged "warning" msg) warnings.
Proof.
  set (s := __init__ w lg exts hi ht).
  pose proof (appends_stepwise (fun _ : @event Batch Ext => True)) as HR.
  pose proof anything_is_noise as Hn.
  destruct (at_try_warns s) as (warnings & Ew & Hw).
  change (trace s) with (@nil (@event Batch Ext)) in Ew. cbn [app] in Ew.
  exists warnings.
  assert (Hv : status (log (at_try s)) !! "training_started" = Some (VBool false)).
  { destruct (at_try_facts s) as (-> & _). subst s. cbn.
    rewrite !lookup_insert_ne by discriminate. apply lookup_insert_eq. }
  assert (Hfin : frame (appends (fun _ => True)) run_finally).
  { apply (steps_run_finally _ _ HR Hn); [ repeat split | ].
    intros _ s0 out. now apply appends_same. }
  assert (Htail : forall sT, (exists tl, trace sT = trace (at_try s) ++
                     [Logged "info" "Entered the main loop";
                      Phase "before_training"] ++ tl) ->
                  forall rF sF, run_finally sT = (rF, sF) ->
                  exists tl, trace sF = warnings ++
                     [Logged "info" "Entered the main loop";
                      Phase "before_training"] ++ tl).
  { intros sT (tl & Etl) rF sF EF. destruct (Hfin _ _ _ EF) as (tl2 & Etl2 & _).
    exists (tl ++ tl2). rewrite Etl2, Etl, Ew. now rewrite <- !app_assoc. }
  assert (Htry : forall rT sT,
             try_except (run_try fuel) run_handlers (at_try s) = (rT, sT) ->
             exists tl, trace sT = trace (at_try s) ++
                     [Logged "info" "Entered the main loop";
                      Phase "before_training"] ++ tl).
  { intros rT sT ET.
    destruct (try_except_inv _ _ _ _ _ ET) as [(e & s0 & k & Er & Ek & E3) | [Er _]].
    - destruct (run_try_not_started fuel _ _ _ _ Hv eq_refl Er) as (tl & Etl).
      assert (Hk : frame (appends (fun _ => True)) k).
      { apply (steps_run_handlers _ _ HR Hn e); [ repeat split | exact Ek ]. }
      destruct (Hk _ _ _ E3) as (tl2 & Etl2 & _).
      exists (tl ++ tl2). rewrite Etl2, Etl. now rewrite <- !app_assoc.
    - apply (run_try_not_started fuel _ _ _ _ Hv eq_refl Er). }
  destruct (run fuel s) as [r s'] eqn:E. rewrite at_try_run in E. cbn [snd].
  assert (Hex : exists tl, trace s' = warnings ++
                  [Logged "info" "Entered the main loop";
                   Phase "before_training"] ++ tl).
  { destruct (try_finally_inv _ _ _ _ _ E)
      as [[E1 _] | (r1 & s1 & E1 & _ & [[E2 _] | [(e & E2 & _) | [E2 _]]])].
    - destruct (Htry _ _ E1) as (tl & Etl). exists tl. now rewrite Etl, Ew.
    - apply (Htail _ (Htry _ _ E1) _ _ E2).
    - apply (Htail _ (Htry _ _ E1) _ _ E2).
    - apply (Htail _ (Htry _ _ E1) _ _ E2). }
  destruct Hex as (tl & Etl). exists tl. split; [ exact Etl | exact Hw ].
Qed.

(** ** The calls of one batch *)

Lemma extensions_stepwise :
  stepwise (fun s s' : State => extensions s' = extensions s)
           (fun _ : @event Batch Ext => True).
Proof.
  split; try (intros; reflexivity).
  - intros s1 s2 s3 E1 E2. congruence.
  - intros s sig h. now destruct sig.
Qed.

(** A batch that was read: one call of the iterator. *)
Lemma read_data_calls (s s0 : State) (batch : Batch) :
  read_data s = (Val (Some batch), s0) ->
  extensions s0 = extensions s /\
  exists tl, trace s0 = trace s ++ tl /\ calls_of tl = [(Next, None)].
Proof.
  intros E. unfold read_data in E.
  destruct (try_except_inv _ _ _ _ _ E) as [(e & s1 & k & E1 & Ek & E2) | [E1 _]].
  - destruct (is_StopIteration e); [ | discriminate Ek ].
    inversion Ek; subst k.
    destruct (bind_inv _ _ _ _ _ E2) as [(v & s2 & _ & E3) | [(e' & _ & Ee) | [_ Ee]]];
      try discriminate Ee.
    destruct (negb (truthy v)); discriminate E3.
  - destruct (bind_inv _ _ _ _ _ E1) as [(b & s1 & Et & Er) | [(e' & _ & Ee) | [_ Ee]]];
      try discriminate Ee.
    inversion Er; subst.
    destruct (TimeIt_trace _ _ _ _ _ (balanced_invoke _ _) Et) as (s2 & E2 & Etr).
    destruct (invoke_calls _ _ _ _ _ E2) as (tl & Etl & Hc).
    split.
    + pose proof (steps_TimeIt _ _ extensions_stepwise "read_data" _
                    (steps_invoke _ _ extensions_stepwise anything_is_noise
                       Next next_batch (fun _ => I)) _ _ _ Et) as Hx.
      exact Hx.
    + exists tl. split; [ now rewrite Etr, Etl | exact Hc ].
Qed.

(** X15.  One batch, from the loop's point of view: a batch step that
    returns [True] has called, in this order, the iterator for the
    batch, every extension for [before_batch] with that batch, the
    algorithm to process it, and every extension for [after_batch] with
    that batch; and nothing else. *)
Theorem batch_step_call_order (s s' : State) :
  _run_iteration s = (Val true, s') ->
  exists batch tl,
    trace s' = trace s ++ tl /\
    calls_of tl =
      (Next, None)
      :: map (fun e => (Dispatch e "before_batch" (Some batch), None))
             (extensions s)
      ++ (ProcessBatch batch, None)
      :: map (fun e => (Dispatch e "after_batch" (Some batch), None))
             (extensions s).
Proof.
  intros E. unfold _run_iteration in E.
  pose proof extensions_stepwise as HX. pose proof anything_is_noise as Hn.
  destruct (bind_inv _ _ _ _ _ E) as [(fetched & s0 & Er & E0) | [(e & _ & Ee) | [_ Ee]]];
    try discriminate Ee.
  destruct fetched as [batch | ]; [ | discriminate E0 ].
  destruct (read_data_calls _ _ _ Er) as (Hx0 & tl0 & Et0 & Hc0).
  unfold bind at 1, modify in E0.
  set (s1 := set_status "received_first_batch" (VBool true) s0) in E0.
  destruct (bind_inv _ _ _ _ _ E0) as [(u2 & s2 & E2 & E0a) | [(e & _ & Ee) | [_ Ee]]];
    try discriminate Ee.
  destruct (run_extensions_calls _ _ _ _ _ E2) as (tl2 & Et2 & Hc2).
  pose proof (steps_run_extensions _ _ HX Hn "before_batch" (Some batch)
                ltac:(repeat split) _ _ _ E2) as Hx2.
  destruct (bind_inv _ _ _ _ _ E0a) as [(u3 & s3 & E3 & E0b) | [(e & _ & Ee) | [_ Ee]]];
    try discriminate Ee.
  destruct (TimeIt_trace _ _ _ _ _ (balanced_invoke _ _) E3) as (s3' & E3' & Et3).
  destruct (invoke_calls _ _ _ _ _ E3') as (tl3 & Etl3 & Hc3).
  pose proof (steps_TimeIt _ _ HX "batch" _
                (steps_invoke _ _ HX Hn (ProcessBatch batch)
                   (algorithm_process_batch batch) (fun _ => I)) _ _ _ E3) as Hx3.
  destruct (bind_inv _ _ _ _ _ E0b) as [(u4 & s4 & E4 & E0c) | [(e & _ & Ee) | [_ Ee]]];
    try discriminate Ee.
  pose proof (steps_increment_status _ _ HX "iterations_done" _ _ _ E4) as Hx4.
  assert (Et4 : trace s4 = trace s3).
  { pose proof (appends_stepwise (fun ev : @event Batch Ext => False)) as HF.
    destruct (steps_increment_status _ _ HF "iterations_done" _ _ _ E4)
      as (tl & Etl & Hf).
    destruct tl as [ | ev tl ]; [ now rewrite Etl, app_nil_r | ].
    inversion Hf; contradiction. }
  destruct (bind_inv _ _ _ _ _ E0c) as [(u5 & s5 & E5 & E0d) | [(e & _ & Ee) | [_ Ee]]];
    try discriminate Ee.
  destruct (run_extensions_calls _ _ _ _ _ E5) as (tl5 & Et5 & Hc5).
  destruct (bind_inv _ _ _ _ _ E0d) as [(u6 & s6 & E6 & E0e) | [(e & _ & Ee) | [_ Ee]]];
    try discriminate Ee.
  inversion E0e; subst s6. clear E0e.
  assert (Et6 : trace s' = trace s5).
  { unfold _check_finish_training in E6.
    destruct (_ || _); [ discriminate E6 | ].
    destruct (_ && _); [ discriminate E6 | ]. now inversion E6. }
  assert (Hx1 : extensions s1 = extensions s) by (subst s1; exact Hx0).
  assert (Hx5 : extensions s4 = extensions s) by congruence.
  rewrite Hx1 in Hc2. rewrite Hx5 in Hc5.
  exists batch, (tl0 ++ (Phase "before_batch" :: tl2) ++ tl3
                   ++ (Phase "after_batch" :: tl5)).
  split.
  - rewrite Et6, Et5, Et4, Et3, Etl3. cbn [trace entered with_ticks
      record_timer_call with_timer]. rewrite Et2. subst s1. cbn [trace set_status with_log].
    rewrite Et0. now rewrite <- !app_assoc.
  - rewrite !calls_of_app, Hc0, Hc3.
    change (calls_of (Phase "before_batch" :: tl2)) with (calls_of tl2).
    change (calls_of (Phase "after_batch" :: tl5)) with (calls_of tl5).
    rewrite Hc2, Hc5. reflexivity.
Qed.

(** ** The grand total *)

(** ** The finish signal stays inside *)

(** Neither [except] clause lets the finish signal through. *)
Lemma try_never_ends_by_finish (fuel : nat) (s s' : State) :
  try_except (run_try fuel) run_handlers s = (Raise TrainingFinish, s') -> False.
Proof.
  intros E.
  destruct (try_except_inv _ _ _ _ _ E) as [(e & s1 & k & E1 & Ek & E2) | [_ Hnone]].
  - unfold run_handlers in Ek. destruct (is_TrainingFinish e) eqn:Ef.
    + inversion Ek; subst k. discriminate E2.
    + destruct (is_Exception e); [ | discriminate Ek ].
      inversion Ek; subst k. rewrite on_exception_unfold in E2.
      destruct (bind_inv _ _ _ _ _ E2)
        as [(a & s2 & _ & E3) | [(e' & E3 & Ee) | [_ Ee]]];
        try discriminate Ee.
      * inversion E3; subst. discriminate Ef.
      * inversion Ee; subst e'.
        destruct (try_except_inv _ _ _ _ _ E3)
          as [(e'' & s3 & k & _ & Ek' & E4) | [_ Hnone]].
        -- destruct (is_Exception e''); [ | discriminate Ek' ].
           inversion Ek'; subst k.
           destruct (bind_inv _ _ _ _ _ E4)
             as [(a & s4 & _ & E5) | [(e3 & E5 & _) | [E5 _]]]; discriminate.
        -- specialize (Hnone _ eq_refl). discriminate Hnone.
  - specialize (Hnone _ eq_refl). discriminate Hnone.
Qed.

(** X17.  The finish signal does not leave [run] from the training: a
    [TrainingFinish] raised in the [try] block, by the loop or by an
    extension, is caught, and one raised by an [on_error] extension is
    logged and replaced by the original error.  If a run raises
    [TrainingFinish], the current row showed [training_finished] and an
    [after_training] extension raised it in the [finally] block. *)
Theorem finish_signal_leaves_only_from_after_training
    (fuel : nat) (s s' : State) :
  run fuel s = (Raise TrainingFinish, s') ->
  let sT := snd (try_except (run_try fuel) run_handlers (at_try s)) in
  flag (current_row (log sT)) "training_finished" = true /\
  _run_extensions "after_training" None sT = (Raise TrainingFinish, s').
Proof.
  intros E sT. rewrite at_try_run in E.
  assert (EF : run_finally sT = (Raise TrainingFinish, s')).
  { destruct (try_finally_inv _ _ _ _ _ E)
      as [[_ Ee] | (r1 & s1 & E1 & Hr1 & [[E2 Ee] | [(e & E2 & Ee) | [_ Ee]]])];
      try discriminate Ee.
    - subst r1. now apply try_never_ends_by_finish in E1.
    - inversion Ee; subst e. subst sT. now rewrite E1. }
  unfold run_finally in EF. unfold bind at 1, gets in EF.
  destruct (flag (current_row (log sT)) "training_finished").
  - split; [ reflexivity | ].
    destruct (bind_inv _ _ _ _ _ EF) as [(a & s1 & _ & E2) | [(e & E1 & Ee) | [_ Ee]]];
      try discriminate Ee.
    + exfalso.
      destruct (bind_inv _ _ _ _ _ E2) as [(a2 & s2 & _ & E3) | [(e & E3 & Ee) | [_ Ee]]];
        try discriminate Ee.
      * discriminate E3.
      * inversion Ee; subst e. destruct profile; [ | discriminate E3 ].
        unfold timer_report in E3.
        pose proof (report_outcome_holds (timer s1)) as Hrep.
        destruct (Timer.report (timer s1)) as [r0 out]. inversion E3; subst.
        destruct Hrep as [Hrep | Hrep]; discriminate Hrep.
    + inversion Ee; subst e. exact E1.
  - exfalso. unfold bind at 1, ret in EF.
    destruct (bind_inv _ _ _ _ _ EF) as [(a2 & s2 & E2 & E3) | [(e & E3 & Ee) | [_ Ee]]];
      try discriminate Ee.
    + discriminate E3.
    + inversion Ee; subst e. destruct profile; [ | discriminate E3 ].
      unfold timer_report in E3.
      pose proof (report_outcome_holds (timer sT)) as Hrep.
      destruct (Timer.report (timer sT)) as [r0 out]. inversion E3; subst.
      destruct Hrep as [Hrep | Hrep]; discriminate Hrep.
Qed.

(** ** The [after_training] phase *)

(** A phase records its start once, and then no start of a phase. *)
Lemma run_extensions_one_phase (name : string) (payload : option Batch)
    (s s' : State) (r : res unit) :
  _run_extensions name payload s = (r, s') ->
  exists tl,
    trace s' = trace s ++ Phase name :: tl /\
    Forall (fun ev => is_phase ev = false) tl.
Proof.
  intros E. unfold _run_extensions in E. unfold bind at 1, modify in E.
  pose proof (appends_stepwise
                (fun ev : @event Batch Ext => is_phase ev = false)) as HR.
  assert (Hn : noise_allowed (fun ev : @event Batch Ext => is_phase ev = false))
    by (repeat split).
  assert (Hfr : frame (appends (fun ev => is_phase ev = false))
                  (TimeIt name (bind (gets extensions)
                                  (fun exts => dispatch_all exts name payload)))).
  { apply (steps_TimeIt _ _ HR), (steps_bind _ _ HR); [ apply (steps_gets _ _ HR) | ].
    intros exts. apply (steps_dispatch_calls _ _ HR Hn). reflexivity. }
  destruct (Hfr _ _ _ E) as (tl & Etl & Hf).
  exists tl. split; [ | exact Hf ]. rewrite Etl. cbn. now rewrite <- app_assoc.
Qed.

Lemma quiet_of_after_training :
  noise_allowed (fun ev : @event Batch Ext => is_after_training ev = false) /\
  training_allowed (fun ev : @event Batch Ext => is_after_training ev = false).
Proof. repeat split. Qed.

Lemma count_quiet (tl : list (@event Batch Ext)) :
  Forall (fun ev => is_after_training ev = false) tl ->
  List.filter is_after_training tl = [].
Proof.
  induction 1 as [ | ev tl Hev _ IH ]; [ reflexivity | ].
  cbn. now rewrite Hev.
Qed.

Lemma phase_is_not_after_training (tl : list (@event Batch Ext)) :
  Forall (fun ev => is_phase ev = false) tl ->
  List.filter is_after_training tl = [].
Proof.
  intros Hf. apply count_quiet. eapply Forall_impl; [ exact Hf | ].
  intros [ | | | | ]; cbn; try reflexivity; discriminate.
Qed.

(** The state in which [try] ... [finally] ends. *)
Lemma try_finally_state {A} (m : Comp A) (fin : Comp unit) (s : State) :
  snd (try_finally m fin s) =
    match fst (m s) with
    | Timeout => snd (m s)
    | _ => snd (fin (snd (m s)))
    end.
Proof.
  unfold try_finally. destruct (m s) as [[a | e | ] s1]; cbn [fst snd];
    try reflexivity; now destruct (fin s1) as [[[] | e' | ] s2].
Qed.

(** What the [finally] block adds to the trace. *)
Lemma run_finally_phase_count (sT sF : State) (rF : res unit) :
  run_finally sT = (rF, sF) ->
  exists tl,
    trace sF = trace sT ++ tl /\
    length (List.filter is_after_training tl) =
      if flag (current_row (log sT)) "training_finished" then 1%nat else 0%nat.
Proof.
  intros EF.
  destruct (flag (current_row (log sT)) "training_finished") eqn:Hflag.
  - unfold run_finally in EF. unfold bind at 1, gets in EF. rewrite Hflag in EF.
    assert (Hrest : forall (s1 : State) (r2 : res unit) (s2 : State),
               bind (if profile then timer_report else ret tt)
                    (fun _ => modify _restore_signal_handlers) s1 = (r2, s2) ->
               trace s2 = trace s1).
    { intros s1 r2 s2 E2. unfold bind in E2.
      destruct profile.
      - unfold timer_report in E2. destruct (Timer.report (timer s1)) as [[[] | e | ] out];
          now inversion E2.
      - now inversion E2. }
    assert (Hex : exists tl, trace sF = trace sT ++ Phase "after_training" :: tl /\
                             Forall (fun ev => is_phase ev = false) tl).
    { destruct (bind_inv _ _ _ _ _ EF) as [(u & s1 & E1 & E2) | [(e' & E1 & _) | [E1 _]]].
      - destruct (run_extensions_one_phase _ _ _ _ _ E1) as (tl & Etl & Hf).
        exists tl. rewrite (Hrest _ _ _ E2). auto.
      - apply (run_extensions_one_phase _ _ _ _ _ E1).
      - apply (run_extensions_one_phase _ _ _ _ _ E1). }
    destruct Hex as (tl & Etl & Hf).
    exists (Phase "after_training" :: tl). split; [ exact Etl | ].
    cbn [List.filter is_after_training].
    change (String.eqb "after_training" "after_training") with true.
    cbn [length]. now rewrite phase_is_not_after_training.
  - exists []. rewrite app_nil_r. split; [ | reflexivity ].
    now apply (traces_run_finally_unfinished _ _ _ Hflag EF).
Qed.

(** X18.  The [after_training] phase is started at most once in a run,
    whatever the outcome, and only by the [finally] block: exactly when
    the current row shows [training_finished] at the end of the [try]
    statement. *)
Theorem after_training_runs_at_most_once (fuel : nat) (s : State) :
  let sT := snd (try_except (run_try fuel) run_handlers (at_try s)) in
  exists tl,
    trace (snd (run fuel s)) = trace s ++ tl /\
    (length (List.filter is_after_training tl) <= 1)%nat /\
    (fst (try_except (run_try fuel) run_handlers (at_try s)) <> Timeout ->
     length (List.filter is_after_training tl) =
       if flag (current_row (log sT)) "training_finished" then 1%nat else 0%nat).
Proof.
  intros sT.
  destruct quiet_of_after_training as [Hn Ht].
  pose proof (appends_stepwise
                (fun ev : @event Batch Ext => is_after_training ev = false)) as HR.
  destruct (at_try_appends _ s Hn) as (tl0 & Etl0 & Hf0).
  assert (Htry : frame (appends (fun ev => is_after_training ev = false))
                   (try_except (run_try fuel) run_handlers)).
  { apply (steps_try_except _ _ HR).
    - apply (steps_run_try _ _ HR Hn Ht); repeat split.
    - intros e k. apply (steps_run_handlers _ _ HR Hn). repeat split. }
  rewrite at_try_run, try_finally_state. fold sT.
  destruct (try_except (run_try fuel) run_handlers (at_try s)) as [rT sT0] eqn:ET.
  subst sT. cbn [fst snd].
  destruct (Htry _ _ _ ET) as (tl1 & Etl1 & Hf1).
  assert (Hq : List.filter is_after_training (tl0 ++ tl1) = [])
    by (rewrite List.filter_app, !count_quiet by assumption; reflexivity).
  assert (Hdone : forall sF rF, run_finally sT0 = (rF, sF) ->
            exists tl,
              trace sF = trace s ++ tl /\
              (length (List.filter is_after_training tl) <= 1)%nat /\
              length (List.filter is_after_training tl) =
                if flag (current_row (log sT0)) "training_finished"
                then 1%nat else 0%nat).
  { intros sF rF EF.
    destruct (run_finally_phase_count _ _ _ EF) as (tl2 & Etl2 & Hc2).
    exists ((tl0 ++ tl1) ++ tl2).
    split; [ now rewrite Etl2, Etl1, Etl0, !app_assoc | ].
    rewrite List.filter_app, Hq. cbn [app]. rewrite Hc2.
    split; [ destruct (flag _ _); lia | reflexivity ]. }
  destruct rT as [a | e | ].
  - destruct (Hdone _ _ (surjective_pairing _)) as (tl & Etl & Hle & Hc).
    exists tl. auto.
  - destruct (Hdone _ _ (surjective_pairing _)) as (tl & Etl & Hle & Hc).
    exists tl. auto.
  - exists (tl0 ++ tl1). split; [ now rewrite Etl1, Etl0, app_assoc | ].
    rewrite Hq. cbn. split; [ lia | intros Hc; now contradiction Hc ].
Qed.

End Properties.

(** * Instances *)

(** The collaborators of the example world never write the status. *)
Lemma demo_respects (profiling : bool) (keys : list string) :
  all_respect (H := Demo.collaborators profiling) (same_status_on keys).
Proof.
  unfold all_respect, respects, same_status_on. cbn.
  split; [ reflexivity | ].
  split.
  { intros b w l k _. unfold Demo.process_batch.
    destruct (b =? 0)%nat; [ reflexivity | ].
    destruct (b =? 98)%nat; [ reflexivity | ].
    destruct (b =? 99)%nat; reflexivity. }
  split.
  { intros w l k _. unfold Demo.epoch_iterator. now destruct (Demo.stream w). }
  split.
  { intros w l k _. unfold Demo.next. now destruct (Demo.iterator w). }
  intros e phase payload w l k _. unfold Demo.dispatch_ext.
  destruct e; [ reflexivity | now destruct (String.eqb phase "on_error") | ].
  destruct payload as [ [ | [ | [ | [ | [ | [ | [ | [ | n ] ] ] ] ] ] ] ] | ];
    try reflexivity.
  now destruct (String.eqb phase "after_batch").
Qed.

(** C1, on a resumed loop.  The current row is the one in which the
    previous run finished, so it shows [training_finished]; the algorithm
    fails on the first batch.  The error is recorded and raised again,
    [on_error] runs, and then the [finally] block runs the
    [after_training] phase all the same. *)
Theorem error_on_resumed_row_runs_after_training :
  let s := Demo.resumed 3 [[0%nat]] [Demo.Printing] in
  let out := run (H := Demo.collaborators false) 5 s in
  fst out = Raise (OtherError "nan") /\
  current_row (log (snd out)) !! "got_exception"
    = Some (VStr "Traceback (most recent call last)") /\
  trace (snd out) =
    [ Logged "info" "Entered the main loop";
      Phase "on_resumption";
      Called (Dispatch Demo.Printing "on_resumption" None) None;
      Called GetEpochIterator None;
      Phase "before_epoch";
      Called (Dispatch Demo.Printing "before_epoch" None) None;
      Called Next None;
      Phase "before_batch";
      Called (Dispatch Demo.Printing "before_batch" (Some 0%nat)) None;
      Called (ProcessBatch 0%nat) (Some (OtherError "nan"));
      Logged "error" ("Error occured during training." +:+ error_message);
      Phase "on_error";
      Called (Dispatch Demo.Printing "on_error" None) None;
      Phase "after_training";
      Called (Dispatch Demo.Printing "after_training" None) None ].
Proof.
  cbv zeta. split; [ vm_compute; reflexivity | ].
  split; vm_compute; reflexivity.
Qed.

Lemma exhaustion_before_first_batch_fails_witness :
  let s := set_status "received_first_batch" (VBool false)
             (Demo.fresh [] []) in
  exists s',
    _run_iteration (H := Demo.collaborators false) s =
      (Raise (ValueError "epoch iterator yielded zero batches"), s').
Proof.
  cbv zeta.
  exact (proj1 (exhaustion_before_first_batch_fails
                  (H := Demo.collaborators false)
                  (demo_respects false ["received_first_batch"]))
               (set_status "received_first_batch" (VBool false)
                  (Demo.fresh [] []))
               (VBool false) eq_refl eq_refl).
Defined.

Lemma TimeIt_enter_exit_once_witness :
  let s := Demo.fresh [] [] in
  let body := invoke (ProcessBatch 0%nat) (Demo.process_batch 0) in
  exists s',
    TimeIt (H := Demo.collaborators false) "batch" body s
      = (Raise (OtherError "nan"), s') /\
    Timer.current (timer s') = Timer.current (timer s).
Proof.
  cbv zeta.
  destruct (TimeIt_enter_exit_once (H := Demo.collaborators false) "batch"
              (invoke (ProcessBatch 0%nat) (Demo.process_batch 0))
              (Demo.fresh [] [])
              (snd (invoke (ProcessBatch 0%nat) (Demo.process_batch 0)
                      (entered "batch" (Demo.fresh [] []))))
              (Raise (OtherError "nan")) []
              eq_refl ltac:(discriminate) eq_refl eq_refl)
    as [(s' & E & _ & _ & Hc) _].
  exists s'. split; [ exact E | exact Hc ].
Defined.

Lemma interrupt_controller_refinement_witness :
  let s := at_try (H := Demo.collaborators false) (Demo.fresh [] []) in
  interrupts_wf s /\
  controller_of (deliver SIGINT s) = EpochInterruptPending /\
  controller_of (deliver SIGINT (deliver SIGINT s)) = BatchInterruptPending.
Proof.
  cbv zeta.
  assert (Hwf : interrupts_wf
                  (at_try (H := Demo.collaborators false) (Demo.fresh [] []))).
  { unfold interrupts_wf. cbn. auto. }
  split; [ exact Hwf | ].
  destruct (interrupt_controller_refinement
              (at_try (H := Demo.collaborators false) (Demo.fresh [] []))
              SIGINT Hwf) as (_ & _ & Hfirst & _).
  destruct (Hfirst eq_refl eq_refl) as (H1 & _ & _ & _ & H2).
  split; [ exact H1 | exact H2 ].
Defined.

Lemma finish_signal_runs_after_training_witness :
  let s := Demo.fresh [[1; 99; 2]%nat] [Demo.Printing] in
  exists r s' tl,
    run (H := Demo.collaborators false) 5 s = (r, s') /\
    trace s' =
      trace (snd (run_try (H := Demo.collaborators false) 5
                    (at_try (H := Demo.collaborators false) s)))
        ++ Phase "after_training" :: tl /\
    calls_of tl = [(Dispatch Demo.Printing "after_training" None, None)].
Proof.
  cbv zeta.
  assert (E : run_try (H := Demo.collaborators false) 5
                (at_try (H := Demo.collaborators false)
                   (Demo.fresh [[1; 99; 2]%nat] [Demo.Printing]))
              = (Raise TrainingFinish,
                 snd (run_try (H := Demo.collaborators false) 5
                        (at_try (H := Demo.collaborators false)
                           (Demo.fresh [[1; 99; 2]%nat] [Demo.Printing])))))
    by (vm_compute; reflexivity).
  destruct (finish_signal_runs_after_training
              (H := Demo.collaborators false) 5 _ _ E)
    as (_ & _ & (r & s' & tl & Er & Et & Hd) & _).
  assert (Hv : fst (_run_extensions (H := Demo.collaborators false)
                      "after_training" None
                      (set_row "training_finished" (VBool true)
                         (snd (run_try (H := Demo.collaborators false) 5
                                 (at_try (H := Demo.collaborators false)
                                    (Demo.fresh [[1; 99; 2]%nat] [Demo.Printing]))))))
               = Val tt)
    by (vm_compute; reflexivity).
  assert (Hx : extensions
                 (snd (run_try (H := Demo.collaborators false) 5
                         (at_try (H := Demo.collaborators false)
                            (Demo.fresh [[1; 99; 2]%nat] [Demo.Printing]))))
               = [Demo.Printing])
    by (vm_compute; reflexivity).
  rewrite Hv, Hx in Hd.
  exists r, s', tl. split; [ exact Er | ]. split; [ exact Et | exact Hd ].
Defined.

(** C8.  After no work at all the report is the bare header and nothing
    is raised.  After one section whose elapsed time is zero (the clock
    gave the same reading at entry and exit) every accumulator is zero,
    and the report raises [ZeroDivisionError] at the first line, once the
    header is printed: the share of the total is computed by a division
    by the total.  So a profiled run over one epoch of one batch, under
    a clock that shows no time passing, ends by that error although
    nothing failed. *)
Theorem report_after_zero_elapsed_work :
  Timer.report Timer.init = (Val tt, [Timer.Header; Timer.Rule]) /\
  let tm := snd (Timer.exit 0 (Timer.enter "training" Timer.init)) in
  Timer.current tm = [] /\
  Timer.order tm = [["training"]] /\
  Timer.get (Timer.total tm) ["training"] = 0%Q /\
  Timer.top_level_total (Timer.total tm) = 0%Q /\
  Timer.report tm = (Raise ZeroDivisionError, [Timer.Header; Timer.Rule]) /\
  fst (run (H := Demo.frozen) 5 (Demo.fresh [[1%nat]] [])) =
    Raise ZeroDivisionError.
Proof.
  split; [ vm_compute; reflexivity | ].
  cbv zeta. repeat split; vm_compute; reflexivity.
Qed.

(** A run over two epochs of two batches and one batch. *)
Example run_two_epochs_three_batches :
  let out := run (H := Demo.collaborators false) 5
               (Demo.fresh [[1; 2]; [3]]%nat [Demo.Printing]) in
  fst out = Val tt /\
  status (log (snd out)) !! "iterations_done" = Some (VInt 3) /\
  status (log (snd out)) !! "epochs_done" = Some (VInt 2) /\
  status (log (snd out)) !! "_epoch_ends" = Some (VList [VInt 2; VInt 3]) /\
  processed (trace (snd out)) = 3%Z /\
  completed (trace (snd out)) = 2%Z.
Proof. cbv zeta. repeat split; vm_compute; reflexivity. Qed.

Lemma demo_streaming (profiling : bool) :
  streaming (H := Demo.collaborators profiling) Demo.stream Demo.iterator
    (fun b => b <> 0 /\ b <> 98 /\ b <> 99)%nat [Demo.Printing].
Proof.
  assert (Hcalm : forall l, calm l l) by (intros l; now split).
  split; cbn.
  - intros w l. repeat split; auto; apply Hcalm.
  - intros b w l (H0 & H98 & H99). unfold Demo.process_batch.
    apply Nat.eqb_neq in H0, H98, H99. rewrite H0, H98, H99.
    repeat split; auto; apply Hcalm.
  - intros e name payload w l He _.
    apply list_elem_of_singleton in He. subst e.
    repeat split; auto; apply Hcalm.
  - intros w l. unfold Demo.epoch_iterator.
    destruct (Demo.stream w) as [ | ep rest ] eqn:E; cbn;
      repeat split; auto; apply Hcalm.
  - intros w l. unfold Demo.next.
    destruct (Demo.iterator w) as [ | b bs ]; cbn;
      repeat split; auto; apply Hcalm.
Qed.

Lemma counters_count_batches_and_epochs_witness :
  let s := Demo.fresh [[1; 2]; [3]]%nat [Demo.Printing] in
  (exists (tl : list (@event nat Demo.Ext)),
      trace (snd (run (H := Demo.collaborators false) 5 s)) = tl /\
      status (log (snd (run (H := Demo.collaborators false) 5 s)))
        !! "iterations_done" = Some (VInt (processed tl)) /\
      status (log (snd (run (H := Demo.collaborators false) 5 s)))
        !! "epochs_done" = Some (VInt (completed tl))) /\
  (exists (r : res unit) (s' : @MainLoop Demo.World nat Demo.Ext),
      run (H := Demo.collaborators false) 5 s = (r, s') /\
      r = Val tt /\
      Demo.stream (world s') = [] /\
      status (log s') !! "iterations_done" = Some (VInt 3) /\
      status (log s') !! "epochs_done" = Some (VInt 2)).
Proof.
  cbv zeta.
  pose proof (counters_count_batches_and_epochs
                (H := Demo.collaborators false)
                (demo_respects false counter_keys))
    as (Hrun & _ & _ & _ & _ & Hstream).
  split.
  - destruct (Hrun 5 (Demo.fresh [[1; 2]; [3]]%nat [Demo.Printing]) _ _
                0%Z 0%Z []
                (surjective_pairing _) eq_refl eq_refl eq_refl)
      as (tl & l' & Et & _ & _ & _ & _ & _ & _ & Hzero).
    destruct (Hzero eq_refl eq_refl) as [Hi He].
    exists tl. split; [ exact Et | ]. split; [ exact Hi | exact He ].
  - destruct (Hstream Demo.stream Demo.iterator
                (fun b => b <> 0 /\ b <> 98 /\ b <> 99)%nat
                5%nat (Demo.fresh [[1; 2]; [3]]%nat [Demo.Printing])
                0%Z 0%Z [[1; 2]; [3]]%nat (VBool false)
                (demo_streaming false))
      as (r & s' & E & _ & Hval & Hrem & Hi & He).
    + split; [ split | ]; try reflexivity. now exists [].
    + reflexivity.
    + split; [ | cbn; lia ].
      repeat constructor; cbn; try lia; discriminate.
    + exists r, s'. split; [ exact E | ]. split; [ now apply Hval | ].
      split; [ exact Hrem | ]. split; [ exact Hi | exact He ].
Defined.

Lemma finish_mid_epoch_leaves_epoch_open_witness :
  let s := Demo.fresh [[1; 7; 2]%nat] [Demo.Stopper] in
  let out := _run_epoch (H := Demo.collaborators false) 5 s in
  fst out = Raise TrainingFinish /\
  flag (status (log (snd out))) "epoch_started" = true /\
  status (log (snd out)) !! "epochs_done" = Some (VInt 0).
Proof.
  cbv zeta.
  split; [ vm_compute; reflexivity | ].
  destruct (proj1 (finish_mid_epoch_leaves_epoch_open
                     (H := Demo.collaborators false)
                     (demo_respects false epoch_keys))
              5 (Demo.fresh [[1; 7; 2]%nat] [Demo.Stopper])
              (snd (_run_epoch (H := Demo.collaborators false) 5
                      (Demo.fresh [[1; 7; 2]%nat] [Demo.Stopper])))
              ltac:(vm_compute; reflexivity) ltac:(vm_compute; reflexivity))
    as (Hs & Hd & _).
  split; [ exact Hs | ]. rewrite Hd. reflexivity.
Defined.



Lemma report_outcomes_witness :
  let tm := snd (Timer.exit 3 (Timer.enter "read_data" Timer.init)) in
  exists lines line,
    Timer.report tm = (Val tt, Timer.Header :: Timer.Rule :: lines) /\
    line_of (Timer.total tm) (Timer.top_level_total (Timer.total tm))
            ["read_data"] = Some line /\
    line ∈ lines.
Proof.
  cbv zeta.
  assert (Ht : tidy (snd (Timer.exit 3 (Timer.enter "read_data" Timer.init)))).
  { apply (exit_tidy (Timer.enter "read_data" Timer.init) [] "read_data" 3).
    - apply enter_tidy, tidy_init.
    - reflexivity.
    - lra. }
  destruct (report_outcomes
              (snd (Timer.exit 3 (Timer.enter "read_data" Timer.init))) Ht)
    as (_ & _ & Hlines).
  { intros k Hk. apply list_elem_of_singleton in Hk. subst k. reflexivity. }
  destruct Hlines as (lines & E & Hl).
  { apply Qeq_bool_neq. vm_compute. reflexivity. }
  destruct (Hl ["read_data"]) as (line & El & Hin).
  { apply list_elem_of_singleton. reflexivity. }
  exists lines, line. auto.
Defined.

Lemma run_restores_signal_handlers_witness :
  let out := run (H := Demo.collaborators false) 5
               (Demo.fresh [[1; 2]; [3]]%nat [Demo.Printing]) in
  sigint (snd out) = Previous 0 /\ sigterm (snd out) = Previous 1.
Proof.
  cbv zeta.
  destruct (run_restores_signal_handlers (H := Demo.collaborators false) 5
              (Demo.fresh [[1; 2]; [3]]%nat [Demo.Printing]) _ _
              (surjective_pairing _) ltac:(vm_compute; discriminate))
    as [Hval _].
  apply Hval. vm_compute. reflexivity.
Defined.

Lemma normal_return_never_ran_on_error_witness :
  let s := Demo.fresh [[1; 2]; [3]]%nat [Demo.Saver] in
  exists s' tl,
    run (H := Demo.collaborators false) 5 s = (Val tt, s') /\
    trace s' = trace s ++ tl /\
    Forall (fun ev => is_error_handling ev = false) tl.
Proof.
  cbv zeta.
  assert (E : run (H := Demo.collaborators false) 5
                (Demo.fresh [[1; 2]; [3]]%nat [Demo.Saver])
              = (Val tt,
                 snd (run (H := Demo.collaborators false) 5
                        (Demo.fresh [[1; 2]; [3]]%nat [Demo.Saver]))))
    by (vm_compute; reflexivity).
  destruct (normal_return_never_ran_on_error
              (H := Demo.collaborators false) 5 _ _ E) as (tl & Etl & Hf).
  eauto.
Defined.

Lemma started_loop_is_not_initialized_again_witness :
  let s := Demo.resumed 3 [[1; 2]]%nat [Demo.Printing] in
  let out := run (H := Demo.collaborators false) 5 s in
  exists tl,
    trace (snd out) = trace s ++ tl /\
    Forall (fun ev => is_startup ev = false) tl.
Proof.
  cbv zeta.
  apply (started_loop_is_not_initialized_again
           (H := Demo.collaborators false) 5
           (Demo.resumed 3 [[1; 2]]%nat [Demo.Printing]) _
           (fst (run (H := Demo.collaborators false) 5
                   (Demo.resumed 3 [[1; 2]]%nat [Demo.Printing])))).
  - intros v Hv. vm_compute in Hv. inversion Hv. reflexivity.
  - apply surjective_pairing.
Defined.

(** The collaborators of the example world never write the entry
    [got_exception] of the current row. *)
Lemma demo_keeps_row (profiling : bool) :
  all_respect (H := Demo.collaborators profiling) (keeps_row "got_exception").
Proof.
  unfold all_respect, respects, keeps_row. cbn.
  split; [ reflexivity | ].
  split.
  { intros b w l. unfold Demo.process_batch.
    destruct (b =? 0)%nat; [ reflexivity | ].
    destruct (b =? 98)%nat; [ reflexivity | ].
    destruct (b =? 99)%nat; reflexivity. }
  split.
  { intros w l. unfold Demo.epoch_iterator. now destruct (Demo.stream w). }
  split.
  { intros w l. unfold Demo.next. now destruct (Demo.iterator w). }
  intros e phase payload w l. unfold Demo.dispatch_ext.
  destruct e; [ reflexivity | now destruct (String.eqb phase "on_error") | ].
  destruct payload as [ [ | [ | [ | [ | [ | [ | [ | [ | n ] ] ] ] ] ] ] ] | ];
    try reflexivity.
  destruct (String.eqb phase "after_batch"); [ | reflexivity ].
  cbn. now rewrite lookup_insert_ne.
Qed.

Lemma ordinary_error_is_recorded_and_raised_witness :
  let out := run (H := Demo.collaborators false) 5
               (Demo.fresh [[1; 0]]%nat [Demo.Saver]) in
  (exists e', fst out = Raise e') /\
  current_row (log (snd out)) !! "got_exception"
    = Some (VStr "Traceback (most recent call last)").
Proof.
  cbv zeta.
  destruct (ordinary_error_is_recorded_and_raised
              (H := Demo.collaborators false) 5
              (Demo.fresh [[1; 0]]%nat [Demo.Saver])
              (snd (run_try (H := Demo.collaborators false) 5
                      (at_try (H := Demo.collaborators false)
                         (Demo.fresh [[1; 0]]%nat [Demo.Saver]))))
              _ (OtherError "nan") _
              ltac:(vm_compute; reflexivity) eq_refl eq_refl
              (surjective_pairing _) ltac:(vm_compute; discriminate))
    as (Hraise & _ & Hrow).
  split; [ exact Hraise | exact (Hrow (demo_keeps_row false)) ].
Defined.

Lemma stream_exhaustion_ends_training_witness :
  let s := Demo.fresh [] [Demo.Printing] in
  exists s',
    _run_epoch (H := Demo.collaborators false) 5 s = (Val false, s') /\
    epochs (H := Demo.collaborators false) 5 3 s = (Val tt, s').
Proof.
  cbv zeta.
  destruct (stream_exhaustion_ends_training (H := Demo.collaborators false)
              5 2 (Demo.fresh [] [Demo.Printing]) StopIteration
              ltac:(vm_compute; reflexivity) eq_refl)
    as (s' & _ & Hr & He).
  exists s'. split; [ exact Hr | exact He ].
Defined.

Lemma error_outside_Exception_is_not_handled_witness :
  let s := Demo.fresh [[1; 0; 2]]%nat [Demo.Saver] in
  let out := run (H := interrupted) 5 s in
  fst out = Raise KeyboardInterrupt /\
  sigint (snd out) = Previous 0 /\
  current_row (log (snd out)) !! "got_exception" = None.
Proof.
  cbv zeta.
  destruct (error_outside_Exception_is_not_handled (H := interrupted) 5
              (Demo.fresh [[1; 0; 2]]%nat [Demo.Saver])
              (snd (run_try (H := interrupted) 5
                      (at_try (H := interrupted)
                         (Demo.fresh [[1; 0; 2]]%nat [Demo.Saver]))))
              KeyboardInterrupt
              ltac:(vm_compute; reflexivity) eq_refl)
    as (_ & _ & Hrun).
  rewrite (Hrun ltac:(vm_compute; reflexivity) eq_refl).
  split; [ reflexivity | ]. split; vm_compute; reflexivity.
Defined.

Lemma batch_step_call_order_witness :
  let s := snd (start_epoch (H := Demo.collaborators false)
                  (Demo.fresh [[1; 2]]%nat [Demo.Printing; Demo.Saver])) in
  exists batch tl,
    trace (snd (_run_iteration (H := Demo.collaborators false) s))
      = trace s ++ tl /\
    calls_of tl =
      [ (Next, None);
        (Dispatch Demo.Printing "before_batch" (Some batch), None);
        (Dispatch Demo.Saver "before_batch" (Some batch), None);
        (ProcessBatch batch, None);
        (Dispatch Demo.Printing "after_batch" (Some batch), None);
        (Dispatch Demo.Saver "after_batch" (Some batch), None) ].
Proof.
  cbv zeta.
  assert (E : _run_iteration (H := Demo.collaborators false)
                (snd (start_epoch (H := Demo.collaborators false)
                        (Demo.fresh [[1; 2]]%nat [Demo.Printing; Demo.Saver])))
              = (Val true,
                 snd (_run_iteration (H := Demo.collaborators false)
                        (snd (start_epoch (H := Demo.collaborators false)
                                (Demo.fresh [[1; 2]]%nat
                                   [Demo.Printing; Demo.Saver]))))))
    by (vm_compute; reflexivity).
  destruct (batch_step_call_order (H := Demo.collaborators false) _ _ E)
    as (batch & tl & Etl & Hc).
  exists batch, tl. split; [ exact Etl | exact Hc ].
Defined.

Lemma finish_signal_leaves_only_from_after_training_witness :
  let s := Demo.resumed 3 [] [Demo.Printing] in
  fst (run (H := finishing) 5 s) = Raise TrainingFinish /\
  flag (current_row
          (log (snd (try_except (run_try (H := finishing) 5)
                       (run_handlers (H := finishing))
                       (at_try (H := finishing) s)))))
       "training_finished" = true.
Proof.
  cbv zeta.
  assert (E : run (H := finishing) 5 (Demo.resumed 3 [] [Demo.Printing])
              = (Raise TrainingFinish,
                 snd (run (H := finishing) 5 (Demo.resumed 3 [] [Demo.Printing]))))
    by (vm_compute; reflexivity).
  split; [ now rewrite E | ].
  exact (proj1 (finish_signal_leaves_only_from_after_training
                  (H := finishing) 5 _ _ E)).
Defined.
